(** * Monark raw-data processing: decode-and-derive pipeline

    A shallow embedding of [monark_processing/command.py]
    (class [MonarkProcessingCommand]): the tick decoder [hex_to_int], the
    window smoother [calc_window] and the batch [transform].

    Conventions of the embedding.
    - A Python [str] is a [string]; a character is a code point below 256.
    - A Python [int] is a [Z].
    - A Python/numpy [float] is a binary64 primitive float, so that
      rounding, NaN, infinities and signed zeros behave as in the source.
    - A raised exception is the [Err] branch of [result].
    - A data frame is the list of its rows, in row order; a column
      expression of pandas is the same expression on every row.

    The file has three parts: the embedding of the code with the
    definitions the statements need, error bounds for binary64 arithmetic,
    and the properties of the decoder, the smoother and the batch. *)

From Stdlib Require Import ZArith List Bool Lia Ascii String.
From Stdlib Require Import Uint63 Floats.
From Stdlib Require Import Reals Lra Sorted.
Import ListNotations.

Local Open Scope Z_scope.

(** ** Exceptions and results *)

Inductive exn : Type :=
| ValueError_invalid_literal  (* int(): invalid literal for int() with base 16 *)
| ValueError_nan_to_integer   (* round(): cannot convert float NaN to integer *)
| ValueError_no_objects       (* pd.concat(): No objects to concatenate *)
| ZeroDivisionError           (* float division by zero *)
| OverflowError               (* round(): cannot convert float infinity to integer *)
| IndexError                  (* .iloc[0]: single positional indexer is out-of-bounds *)
| NotInt64.                   (* no exception: see [process_attempt] *)

Inductive result (A : Type) : Type :=
| OK (a : A)
| Err (e : exn).

Arguments OK {A} a.
Arguments Err {A} e.

Definition bind {A B : Type} (r : result A) (k : A -> result B) : result B :=
  match r with
  | OK a => k a
  | Err e => Err e
  end.

Notation "'do' x <- r ; k" := (bind r (fun x => k))
  (at level 10, x name, r at level 100, k at level 200).

(** The error kinds of the specification, as the exceptions the code raises:
    a tick chunk that [int(_, 16)] rejects, and a division by a zero
    sampling-magnets term. *)
Definition DecodeError : exn := ValueError_invalid_literal.
Definition ConfigError : exn := ZeroDivisionError.

(** [mapM f l]: a [for] loop that appends [f x] for each [x], left to right,
    and stops at the first exception. *)
Fixpoint mapM {A B : Type} (f : A -> result B) (l : list A) : result (list B) :=
  match l with
  | [] => OK []
  | x :: t => do y <- f x; do ys <- mapM f t; OK (y :: ys)
  end.

(** ** Python's [int(s, 16)] on a [str] *)

Module PyInt.

Definition code (c : ascii) : N := N_of_ascii c.

(** [Py_ISSPACE] on ASCII, and the two Latin-1 code points that
    [str] to ASCII conversion turns into a space (NEL and NBSP). *)
Definition is_space (c : ascii) : bool :=
  let n := code c in
  ((9 <=? n) && (n <=? 13) || (n =? 32) || (n =? 133) || (n =? 160))%N.

(** The value of a character as a base-16 digit. *)
Definition digit16 (c : ascii) : option Z :=
  let n := code c in
  if ((48 <=? n) && (n <=? 57))%N then Some (Z.of_N n - 48)
  else if ((97 <=? n) && (n <=? 102))%N then Some (Z.of_N n - 87)
  else if ((65 <=? n) && (n <=? 70))%N then Some (Z.of_N n - 55)
  else None.

Definition is_underscore (c : ascii) : bool := (code c =? 95)%N.

Fixpoint skip_spaces (s : string) : string :=
  match s with
  | String c t => if is_space c then skip_spaces t else s
  | EmptyString => s
  end.

(** An optional sign. *)
Definition take_sign (s : string) : bool * string :=
  match s with
  | String "+" t => (false, t)
  | String "-" t => (true, t)
  | _ => (false, s)
  end.

(** The optional [0x] / [0X] prefix of base 16, after which one underscore
    is allowed. *)
Definition take_prefix (s : string) : string :=
  match s with
  | String "0" (String x t) =>
      if ((code x =? 120) || (code x =? 88))%N then
        match t with
        | String "_" t' => t'
        | _ => t
        end
      else s
  | _ => s
  end.

(** The digit scan: hex digits with single underscores between them.
    [acc] is the value so far, [ndigits] the number of digits read and
    [prev_us] whether the previous character was an underscore.  Returns
    the value and the unread rest, or [None] on a doubled or trailing
    underscore or when no digit was read. *)
Fixpoint scan (s : string) (acc : Z) (ndigits : nat) (prev_us : bool)
  : option (Z * string) :=
  match s with
  | String c t =>
      if is_underscore c then
        if prev_us then None else scan t acc ndigits true
      else
        match digit16 c with
        | Some d => scan t (16 * acc + d) (S ndigits) false
        | None =>
            if prev_us then None
            else match ndigits with O => None | _ => Some (acc, s) end
        end
  | EmptyString =>
      if prev_us then None
      else match ndigits with O => None | _ => Some (acc, s) end
  end.

(** The digits may not start with an underscore. *)
Definition starts_with_underscore (s : string) : bool :=
  match s with
  | String c _ => is_underscore c
  | EmptyString => false
  end.

(** Leading blanks, sign, prefix, digits, trailing blanks, end of string. *)
Definition int16 (s : string) : result Z :=
  let (neg, s1) := take_sign (skip_spaces s) in
  let s2 := take_prefix s1 in
  if starts_with_underscore s2 then Err ValueError_invalid_literal
  else
    match scan s2 0 O false with
    | Some (v, rest) =>
        match skip_spaces rest with
        | EmptyString => OK (if neg then - v else v)
        | _ => Err ValueError_invalid_literal
        end
    | None => Err ValueError_invalid_literal
    end.

End PyInt.

(** ** Slices of a Python string *)

(** [s[a:]] and [s[a:b]] for non-negative [a <= b]. *)
Definition slice_from (a : nat) (s : string) : string :=
  substring a (String.length s - a) s.

Definition slice (a b : nat) (s : string) : string :=
  substring a (Nat.min b (String.length s) - a) s.

(** ** TickDecoder: [hex_to_int] *)

Definition hex_to_int (hex_str : string) : result Z :=
  let hex_reversed :=
    (slice_from 6 hex_str ++ slice 4 6 hex_str
       ++ slice 2 4 hex_str ++ slice 0 2 hex_str)%string in
  PyInt.int16 hex_reversed.

(** ** Floating-point primitives of Python, numpy and pandas *)

Module Np.

(** [math.pi], and [math.pi ** 2] (the product, as libm's [pow] returns). *)
Definition pi : float := 0x1.921fb54442d18p+1%float.
Definition pi_sq : float := (pi * pi)%float.

(** The values of an int64 cell. *)
Definition int64 (z : Z) : bool := (- 2 ^ 63 <=? z) && (z <? 2 ^ 63).

(** Arithmetic on a 64-bit integer column wraps around. *)
Definition wrap64 (z : Z) : Z := (z + 2 ^ 63) mod 2 ^ 64 - 2 ^ 63.

(** Conversion of an int64 value to a float, correctly rounded.  It is
    applied to int64 values only: ticks and their differences, row counts,
    the results of [wrap64], and a Magnets value that [process_attempt] has
    checked with [int64]. *)
Definition of_int (z : Z) : float :=
  match z with
  | Z0 => 0%float
  | Zpos _ => of_uint63 (Uint63.of_Z z)
  | Zneg _ =>
      if z =? - 2 ^ 63 then (- 0x1p63)%float
      else (- of_uint63 (Uint63.of_Z (- z)))%float
  end.

(** The integer nearest to [m * 2 ^ e] for [0 <= m], ties to even. *)
Definition round_half_even (m e : Z) : Z :=
  if 0 <=? e then m * 2 ^ e
  else
    let d := 2 ^ (- e) in
    let q := m / d in
    match 2 * (m mod d) ?= d with
    | Lt => q
    | Gt => q + 1
    | Eq => if Z.even q then q else q + 1
    end.

(** Python's [round(x)] of a float: an exact integer, or an exception. *)
Definition py_round (x : float) : result Z :=
  match Prim2SF x with
  | S754_nan => Err ValueError_nan_to_integer
  | S754_infinity _ => Err OverflowError
  | S754_zero _ => OK 0
  | S754_finite s m e => OK (cond_Zopp s (round_half_even (Zpos m) e))
  end.

(** numpy's [rint]: the nearest integral float, ties to even, sign kept. *)
Definition rint (x : float) : float :=
  match Prim2SF x with
  | S754_finite s m e =>
      if 0 <=? e then x
      else SF2Prim (binary_normalize prec emax
                      (cond_Zopp s (round_half_even (Zpos m) e)) 0 s)
  | _ => x
  end.

(** numpy's [round(x, 2)]: scale by 100, [rint], scale back. *)
Definition round2 (x : float) : float := (rint (x * 100) / 100)%float.

(** numpy's [add.reduce] over a float64 vector, the sum behind
    [Series.sum()]: the identity [0.0] plus the pairwise sum of the vector
    ([DOUBLE_pairwise_sum]).  Fewer than 8 terms are added from left to
    right.  Up to 128 terms go to eight accumulators, the term at index [i]
    to accumulator [i mod 8], for the full groups of eight; the accumulators
    are added in pairs and the terms after the last full group are added
    last.  A longer vector is split in two, the first part half as long
    rounded down to a multiple of 8, and the sums of the parts are added. *)
Definition add8 (r a : list float) : list float :=
  map (fun p => (fst p + snd p)%float) (combine r a).

Fixpoint accumulate (groups : nat) (r a : list float)
  : list float * list float :=
  match groups with
  | O => (r, a)
  | S g => accumulate g (add8 r (firstn 8 a)) (skipn 8 a)
  end.

Definition reduce8 (r : list float) : float :=
  match r with
  | [r0; r1; r2; r3; r4; r5; r6; r7] =>
      (((r0 + r1) + (r2 + r3)) + ((r4 + r5) + (r6 + r7)))%float
  | _ => 0%float
  end.

Definition sum_block (a : list float) : float :=
  let (r, rest) :=
    accumulate (List.length a / 8 - 1) (firstn 8 a) (skipn 8 a) in
  fold_left add rest (reduce8 r).

(** [fuel] bounds the depth of the splitting; the length of the vector is
    enough ([pairwise_sum_fuel] below). *)
Fixpoint pairwise_sum (fuel : nat) (a : list float) : float :=
  let n := List.length a in
  if (n <? 8)%nat then fold_left add a 0%float
  else if (n <=? 128)%nat then sum_block a
  else
    match fuel with
    | O => 0%float
    | S f =>
        let n2 := (n / 2 - (n / 2) mod 8)%nat in
        (pairwise_sum f (firstn n2 a) + pairwise_sum f (skipn n2 a))%float
    end.

Definition add_reduce (a : list float) : float :=
  (0 + pairwise_sum (List.length a) a)%float.

(** pandas' [Series.sum()] with its default [skipna=True]: NaN entries are
    replaced by [0.0] and the vector is summed by numpy. *)
Definition nansum (l : list float) : float :=
  add_reduce (map (fun v => if is_nan v then 0%float else v) l).

End Np.

(** ** Data model *)

(** One row of the input table (only the fields [transform] reads).  The
    identifier, the timestamp and the names are taken as present: a missing
    one is not modelled. *)
Module Input.
Record t : Type := mk {
  FlyWheelLog : string;
  BoutNumber : Z;
  _time : string;
  LastName : string;
  FirstName : string;
  PersonWeight : float;
  SamplingMagnets : float;
  BrakeWeight : float;
  Duration : float
}.
End Input.

(** One row of [res_df] before smoothing.  [index] is the row label of the
    frame, the position of the tick in the attempt's log; [timer] and
    [Magnets] are 64-bit integer cells, the derived cells are floats. *)
Record Row : Type := mkRow {
  index : nat;
  timer : Z;
  hex : string;
  Attempt : Z;
  Created : string;
  LastName : string;
  FirstName : string;
  Weight : float;
  Inertia : float;
  Magnets : Z;
  BrakeWeight : float;
  time_elapsed : float;
  time_test : float;
  time_diff : float;
  rpm : float;
  time_test_diff : float;
  power_brake : float;
  power_kinetic : float;
  time_recorded : float
}.

(** One row of the output table. *)
Record Sample : Type := mkSample {
  row : Row;
  power_centered : float;
  rpm_centered : float
}.

(** ** WindowSmoother: [calc_window] *)

Definition in_window (current_time : float) (r : Row) : bool :=
  ((current_time - 0.5 <? time_test r) && (time_test r <? current_time + 0.5))%float.

(** [sample_df]: the rows of [df] strictly inside the window. *)
Definition sample_df (current_time : float) (df : list Row) : list Row :=
  filter (in_window current_time) df.

(** [sample_df.shape[0]]. *)
Definition shape0 (df : list Row) : float := Np.of_int (Z.of_nat (List.length df)).

(** In the last branch the source builds an [AssertionError] and drops it:
    nothing is raised and the initial [0.0] is returned. *)
Definition calc_window (current_time : float) (df : list Row)
    (type_measurement : string) : result float :=
  let sample := sample_df current_time df in
  if String.eqb type_measurement "power" then
    OK (Np.round2
          (Np.nansum (map (fun r => power_brake r + power_kinetic r)%float sample)
           / shape0 sample)%float)
  else if String.eqb type_measurement "rpm" then
    OK (Np.round2 (Np.nansum (map rpm sample) / shape0 sample)%float)
  else OK 0%float.

(** ** AttemptSeriesBuilder and KinematicsCalculator *)

(** The chunks of a log: [s[i*8:(i+1)*8]] for [i] in [range(len(s) // 8)]. *)
Definition chunks (s : string) : list string :=
  map (fun i => slice (i * 8) ((i + 1) * 8) s) (seq 0 (String.length s / 8)).

(** The decoding loop: [bufs] and [secs]. *)
Definition decode_log (s : string) : result (list Z) :=
  mapM hex_to_int (chunks s).

(** [round(14 / (52 * SamplingMagnets / 10000))] on Python floats. *)
Definition magnets (sampling_magnets : float) : result Z :=
  let d := (52 * sampling_magnets / 10000)%float in
  if (d =? 0)%float then Err ZeroDivisionError
  else Np.py_round (14 / d)%float.

(** A float column is a function of the row label; [shift k] moves it down
    by [k] rows and fills with NaN. *)
Definition column : Type := nat -> float.

Definition shift (k : nat) (c : column) : column :=
  fun i => if (i <? k)%nat then nan else c (i - k)%nat.

Definition diff (c : column) : column :=
  fun i => (c i - shift 1 c i)%float.

Section Kinematics.

Variable input : Input.t.
Variable secs : list Z.
Variable bufs : list string.
Variable M : Z.

Definition col_timer (i : nat) : Z := nth i secs 0.
Definition col_timerF : column := fun i => Np.of_int (col_timer i).

(** [res_df["timer"].iloc[0]] and [res_df["time_elapsed"].iloc[-1]]. *)
Definition col_time_elapsed : column :=
  fun i => (Np.of_int (col_timer i - col_timer 0) / 57600)%float.

Definition col_time_test : column :=
  fun i => ((col_time_elapsed i + shift 1 col_time_elapsed i) / 2)%float.

Definition col_time_diff : column := diff col_timerF.

Definition col_rpm : column :=
  fun i => Np.rint (48384000 / (Np.of_int (Np.wrap64 (M * 52)) * col_time_diff i))%float.

Definition col_time_test_diff : column := diff col_time_test.

Definition col_power_brake : column :=
  fun i => (Input.BrakeWeight input * 0x1.39eb851eb851fp+3 (* 9.81 *) * Np.pi
            * 0x1.072b020c49ba6p-1 (* 0.514 *)
            / (Np.of_int M * col_time_test_diff i))%float.

Definition inertia : float := 0x1.d1eb851eb851fp-1%float. (* 0.91 *)

Definition col_power_kinetic : column :=
  fun i =>
    let d1 := (col_timerF i - shift 1 col_timerF i)%float in
    let d2 := (shift 1 col_timerF i - shift 2 col_timerF i)%float in
    (4 * Np.pi_sq * 191102976000000 (* 57600 ** 3 *) * inertia
     / (Np.of_int (Np.wrap64 (M ^ 2)) * (col_timerF i - shift 2 col_timerF i))
     * (1 / (d1 * d1) - 1 / (d2 * d2)))%float.

Definition col_time_recorded : column :=
  fun i =>
    Np.round2 (col_time_elapsed i - col_time_elapsed (List.length secs - 1)%nat
               + Input.Duration input)%float.

Definition mk_row (i : nat) : Row :=
  {| index := i;
     timer := col_timer i;
     hex := nth i bufs EmptyString;
     Attempt := Input.BoutNumber input;
     Created := Input._time input;
     LastName := Input.LastName input;
     FirstName := Input.FirstName input;
     Weight := Input.PersonWeight input;
     Inertia := inertia;
     Magnets := M;
     BrakeWeight := Input.BrakeWeight input;
     time_elapsed := col_time_elapsed i;
     time_test := col_time_test i;
     time_diff := col_time_diff i;
     rpm := col_rpm i;
     time_test_diff := col_time_test_diff i;
     power_brake := col_power_brake i;
     power_kinetic := col_power_kinetic i;
     time_recorded := col_time_recorded i |}.

(** The frame with all derived columns, one row per decoded tick. *)
Definition frame : list Row := map mk_row (seq 0 (List.length secs)).

End Kinematics.

(** [dropna()]: a row goes when any of its float cells is NaN. *)
Definition has_nan (r : Row) : bool :=
  is_nan (Weight r) || is_nan (Inertia r) || is_nan (BrakeWeight r)
  || is_nan (time_elapsed r) || is_nan (time_test r) || is_nan (time_diff r)
  || is_nan (rpm r) || is_nan (time_test_diff r) || is_nan (power_brake r)
  || is_nan (power_kinetic r) || is_nan (time_recorded r).

Definition dropna (df : list Row) : list Row :=
  filter (fun r => negb (has_nan r)) df.

(** [.iloc[1:]]. *)
Definition iloc_from_1 (df : list Row) : list Row := tl df.

(** The two [apply] calls: every row is smoothed against the whole of
    [res_df], with its own [time_test] as the centre. *)
Definition smooth (res_df : list Row) : result (list Sample) :=
  do pc <- mapM (fun r => calc_window (time_test r) res_df "power") res_df;
  do rc <- mapM (fun r => calc_window (time_test r) res_df "rpm") res_df;
  OK (map (fun t => mkSample (fst (fst t)) (snd (fst t)) (snd t))
          (combine (combine res_df pc) rc)).

(** The body of the loop over the rows of the input table.

    The Magnets value is a Python integer of any size.  When it fits an
    int64 cell the Magnets column is an int64 column and the formulas are
    the ones above.  When it does not, pandas stores it in a uint64 or an
    object column, where the arithmetic is another one (unsigned, or on
    Python integers, which can raise [OverflowError]): such an attempt is
    outside this embedding, which gives it no rows and no exception of the
    code but the mark [NotInt64].  On an empty frame the column is never
    used and the read of the first tick fails as for any Magnets value. *)
Definition process_attempt (input : Input.t) : result (list Sample) :=
  do secs <- decode_log (Input.FlyWheelLog input);
  let bufs := chunks (Input.FlyWheelLog input) in
  do M <- magnets (Input.SamplingMagnets input);
  match secs with
  | [] => Err IndexError
  | _ :: _ =>
      if Np.int64 M then
        let res_df := iloc_from_1 (dropna (frame input secs bufs M)) in
        smooth res_df
      else Err NotInt64
  end.

(** ** BatchAggregator: [transform] *)

(** [pd.concat(dfs)]: fails on an empty list of frames. *)
Definition concat_frames (dfs : list (list Sample)) : result (list Sample) :=
  match dfs with
  | [] => Err ValueError_no_objects
  | _ => OK (List.concat dfs)
  end.

Definition transform (df : list Input.t) : result (list Sample) :=
  do dfs <- mapM process_attempt df;
  concat_frames dfs.

(** ** The byte-order contract, in the words of the specification *)

Module Encode.

(** The four big-endian bytes of a 32-bit value. *)
Definition be_bytes (v : Z) : list Z :=
  [v / 2 ^ 24 mod 256; v / 2 ^ 16 mod 256; v / 2 ^ 8 mod 256; v mod 256].

(** One hex digit, in upper or lower case. *)
Definition hex_digit (upper : bool) (d : Z) : ascii :=
  ascii_of_N (Z.to_N (if d <? 10 then 48 + d else (if upper then 55 else 87) + d)).

Definition hex_byte (upper : bool) (b : Z) : string :=
  String (hex_digit upper (b / 16)) (String (hex_digit upper (b mod 16)) EmptyString).

Fixpoint hex_encode (upper : bool) (bs : list Z) : string :=
  match bs with
  | [] => EmptyString
  | b :: t => (hex_byte upper b ++ hex_encode upper t)%string
  end.

(** Encode as four bytes, reverse the byte order, hex-encode. *)
Definition encode_chunk (upper : bool) (v : Z) : string :=
  hex_encode upper (rev (be_bytes v)).

End Encode.

(** A chunk of exactly 8 hexadecimal characters. *)
Definition is_hex (c : ascii) : bool :=
  match PyInt.digit16 c with Some _ => true | None => false end.

Fixpoint all_hex (s : string) : bool :=
  match s with
  | EmptyString => true
  | String c t => is_hex c && all_hex t
  end.

Definition valid_chunk (s : string) : bool :=
  (String.length s =? 8)%nat && all_hex s.

(** The hex digits of a string, position by position. *)
Definition hex_digits (s : string) : list (option Z) :=
  map PyInt.digit16 (list_ascii_of_string s).

(** A log written from a list of ticks, chunk after chunk. *)
Definition encode_log (upper : bool) (ticks : list Z) : string :=
  fold_right (fun v s => (Encode.encode_chunk upper v ++ s)%string) EmptyString ticks.

(** ** Python's integer literal of base 16, in the words of the language *)

Module Literal.






End Literal.

(** [hex_reversed] of [hex_to_int]: the chunk with its byte groups in
    reverse order. *)
Definition hex_reversed (hex_str : string) : string :=
  (slice_from 6 hex_str ++ slice 4 6 hex_str
     ++ slice 2 4 hex_str ++ slice 0 2 hex_str)%string.


(** ** Derived definitions *)

(** What [calc_window] returns for the two kinds of measurement. *)
Definition window_power (df : list Row) (current_time : float) : float :=
  let sample := sample_df current_time df in
  Np.round2
    (Np.nansum (map (fun r => power_brake r + power_kinetic r)%float sample)
     / shape0 sample)%float.

Definition window_rpm (df : list Row) (current_time : float) : float :=
  let sample := sample_df current_time df in
  Np.round2 (Np.nansum (map rpm sample) / shape0 sample)%float.

(** A row of [res_df] with its two smoothed cells. *)
Definition finish (res_df : list Row) (r : Row) : Sample :=
  {| row := r;
     power_centered := window_power res_df (time_test r);
     rpm_centered := window_rpm res_df (time_test r) |}.

(** [res_df] at the point where the smoother is applied. *)
Definition res_df_of (input : Input.t) (secs : list Z) (M : Z) : list Row :=
  iloc_from_1
    (dropna (frame input secs (chunks (Input.FlyWheelLog input)) M)).

(** The label of an output row: the index of its tick in the log. *)
Definition label (s : Sample) : nat := index (row s).

(** An attempt whose sampling-magnets value is zero ([+0.0] or [-0.0]). *)
Definition zero_magnets (r : Input.t) : bool :=
  (Input.SamplingMagnets r =? 0)%float.

(** [time_elapsed]: the tick difference [d] over the clock frequency. *)
Definition elapsed (d : Z) : float := (Np.of_int d / 57600)%float.

(** A tick of 32 bits in magnitude. *)
Definition tick32 (t : Z) : Prop := - 2 ^ 32 < t < 2 ^ 32.

(** [time_elapsed] does not go down from sample [a] to sample [b]. *)
Definition elapsed_le (a b : Sample) : Prop :=
  (time_elapsed (row a) <=? time_elapsed (row b))%float = true.

(** [time_elapsed] and [time_test] go strictly up from sample [a] to [b]. *)
Definition time_lt (a b : Sample) : Prop :=
  (time_elapsed (row a) <? time_elapsed (row b))%float = true
  /\ (time_test (row a) <? time_test (row b))%float = true.

(** [time_test] does not go down from sample [a] to sample [b]. *)
Definition time_test_le (a b : Sample) : Prop :=
  (time_test (row a) <=? time_test (row b))%float = true.

(** A float that is not NaN and not below zero. *)
Definition nonneg (x : spec_float) : bool :=
  match x with
  | S754_zero _ => true
  | S754_infinity s | S754_finite s _ _ => negb s
  | S754_nan => false
  end.

(** ** The window mean, in the words of the specification *)

Module Naive.

(** Strictly inside the open interval (center - 0.5, center + 0.5). *)
Definition strictly_within (center : float) (r : Row) : bool :=
  ((center - 0.5 <? time_test r) && (time_test r <? center + 0.5))%float.

(** The mean, as numpy's [mean] computes it: the sum of the values, added
    as numpy adds a vector, over their count. *)
Definition mean (l : list float) : float :=
  (Np.add_reduce l / Np.of_int (Z.of_nat (List.length l)))%float.

Definition power_centered (series : list Row) (center : float) : float :=
  Np.round2
    (mean (map (fun r => power_brake r + power_kinetic r)%float
               (filter (strictly_within center) series))).

End Naive.

(** The mean of [rpm] over a window, in the words of the specification. *)
Definition naive_rpm_centered (series : list Row) (center : float) : float :=
  Np.round2 (Naive.mean (map rpm (filter (Naive.strictly_within center) series))).

(** ** Example inputs *)

(** Inputs used in the examples below: an attempt with the given log and
    sampling-magnets value, brake weight 2 and duration 5. *)
Definition attempt_of (log : string) (sampling_magnets : float) : Input.t :=
  {| Input.FlyWheelLog := log;
     Input.BoutNumber := 1;
     Input._time := "2020-01-01";
     Input.LastName := "Doe";
     Input.FirstName := "Jo";
     Input.PersonWeight := 80%float;
     Input.SamplingMagnets := sampling_magnets;
     Input.BrakeWeight := 2%float;
     Input.Duration := 5%float |}.

(** Six ticks 576 apart: 0, 576, 1152, 1728, 2304, 2880. *)
Definition log_even : string :=
  ("00000000" ++ "40020000" ++ "80040000" ++ "C0060000" ++ "00090000"
   ++ "400B0000")%string.

(** Six ticks with growing gaps: 0, 10, 30, 60, 100, 150. *)
Definition log_spread : string :=
  ("00000000" ++ "0A000000" ++ "1E000000" ++ "3C000000" ++ "64000000"
   ++ "96000000")%string.

(** Four equal ticks: 5, 5, 5, 5. *)
Definition log_stuck : string :=
  ("05000000" ++ "05000000" ++ "05000000" ++ "05000000")%string.

(** Five ticks, the last one going back: 0, 10, 20, 40, 30. *)
Definition log_back : string :=
  ("00000000" ++ "0A000000" ++ "14000000" ++ "28000000" ++ "1E000000")%string.

(** A sampling-magnets value for which Magnets is 14. *)
Definition sampling_14 : float := 0x1.809999999999ap+7%float. (* 192.3 *)

(** The attempt of the six evenly spaced ticks, with Magnets 14: its decoded
    ticks, its output series and the output row of the tick at index 3. *)
Definition attempt_even : Input.t := attempt_of log_even sampling_14.

Definition secs_even : list Z := [0; 576; 1152; 1728; 2304; 2880].

Definition series_even : list Sample :=
  map (finish (res_df_of attempt_even secs_even 14))
      (res_df_of attempt_even secs_even 14).

Definition sample_even_3 : Sample :=
  finish (res_df_of attempt_even secs_even 14)
         (mk_row attempt_even secs_even (chunks log_even) 14 3%nat).

(** * Binary64 arithmetic

    Error bounds for the primitive float operations, derived from their
    specification ([SpecFloat], [FloatAxioms]).  A finite float stands for a
    real number; every operation on finite operands below the overflow
    threshold returns a finite float within a few units in the last place
    of the exact result. *)

Module Binary64.

(** ** Digits *)

Lemma digits2_pos_bounds (p : positive) :
  2 ^ (Zpos (digits2_pos p) - 1) <= Zpos p < 2 ^ Zpos (digits2_pos p).
Proof.
  induction p as [p IH | p IH |]; cbn [digits2_pos].
  - rewrite Pos2Z.inj_succ.
    replace (Z.succ (Zpos (digits2_pos p)) - 1) with (Z.succ (Zpos (digits2_pos p) - 1)) by lia.
    rewrite !Z.pow_succ_r by lia. lia.
  - rewrite Pos2Z.inj_succ.
    replace (Z.succ (Zpos (digits2_pos p)) - 1) with (Z.succ (Zpos (digits2_pos p) - 1)) by lia.
    rewrite !Z.pow_succ_r by lia. lia.
  - cbn. lia.
Qed.

Lemma Zdigits2_nonneg (n : Z) : 0 <= Zdigits2 n.
Proof. destruct n; cbn; lia. Qed.

Lemma Zdigits2_bounds (n : Z) :
  0 < n -> 2 ^ (Zdigits2 n - 1) <= n < 2 ^ Zdigits2 n.
Proof. destruct n as [|p|p]; try lia. intros _. apply digits2_pos_bounds. Qed.

Lemma Zdigits2_le (n d : Z) : 0 <= d -> 0 <= n < 2 ^ d -> Zdigits2 n <= d.
Proof.
  intros Hd [H0 H]. destruct (Z.eq_dec n 0) as [-> | N]; [cbn; lia|].
  pose proof (Zdigits2_bounds n ltac:(lia)) as [L _].
  destruct (Z_le_gt_dec (Zdigits2 n) d) as [|G]; [assumption|].
  assert (2 ^ d <= 2 ^ (Zdigits2 n - 1)) by (apply Z.pow_le_mono_r; lia). lia.
Qed.

(** ** Right shifts *)

Lemma shr_1_m (mrs : shr_record) :
  0 <= shr_m mrs -> shr_m (shr_1 mrs) = shr_m mrs / 2.
Proof.
  destruct mrs as [m r s]. cbn [shr_m]. intros H.
  destruct m as [|[p|p|]|p]; cbn [shr_1 shr_m]; try lia; try reflexivity.
  - apply Z.div_unique with 1; lia.
  - apply Z.div_unique with 0; lia.
Qed.

Lemma shr_1_nonneg (mrs : shr_record) : 0 <= shr_m mrs -> 0 <= shr_m (shr_1 mrs).
Proof. intros H. rewrite shr_1_m by assumption. apply Z.div_pos; lia. Qed.

Lemma iter_pos_shr_1 (p : positive) (mrs : shr_record) :
  0 <= shr_m mrs ->
  shr_m (SpecFloat.iter_pos shr_1 p mrs) = shr_m mrs / 2 ^ Zpos p.
Proof.
  revert mrs. induction p as [p IH | p IH |]; intros mrs H; cbn [SpecFloat.iter_pos].
  - assert (H1 := shr_1_nonneg mrs H).
    assert (H2 : 0 <= shr_m (SpecFloat.iter_pos shr_1 p (shr_1 mrs))).
    { rewrite IH by assumption. apply Z.div_pos; lia. }
    rewrite IH, IH, shr_1_m by assumption.
    rewrite !Z.div_div by lia. f_equal.
    replace (Zpos p~1) with (1 + Zpos p + Zpos p) by lia.
    rewrite !Z.pow_add_r by lia. change (2 ^ 1) with 2. ring.
  - assert (H2 : 0 <= shr_m (SpecFloat.iter_pos shr_1 p mrs)).
    { rewrite IH by assumption. apply Z.div_pos; lia. }
    rewrite IH, IH by assumption.
    rewrite !Z.div_div by lia. f_equal.
    replace (Zpos p~0) with (Zpos p + Zpos p) by lia.
    rewrite !Z.pow_add_r by lia. ring.
  - now apply shr_1_m.
Qed.

Lemma shr_record_of_loc_m (m : Z) (l : location) : shr_m (shr_record_of_loc m l) = m.
Proof. destruct l as [|[]]; reflexivity. Qed.

(** The number of bits that [shr_fexp] drops. *)
Definition drop (m e : Z) : Z := Z.max 0 (fexp prec emax (Zdigits2 m + e) - e).

Lemma shr_fexp_spec (m e : Z) (l : location) :
  0 <= m ->
  shr_m (fst (shr_fexp prec emax m e l)) = m / 2 ^ drop m e
  /\ snd (shr_fexp prec emax m e l) = e + drop m e.
Proof.
  intros H. unfold shr_fexp, shr, drop.
  destruct (fexp prec emax (Zdigits2 m + e) - e) as [|p|p] eqn:E; cbn [fst snd].
  - rewrite shr_record_of_loc_m. cbn. rewrite Z.div_1_r. lia.
  - rewrite iter_pos_shr_1 by (rewrite shr_record_of_loc_m; assumption).
    rewrite shr_record_of_loc_m. rewrite Z.max_r by lia. split; [reflexivity | lia].
  - rewrite shr_record_of_loc_m. rewrite Z.max_l by lia. cbn. rewrite Z.div_1_r. lia.
Qed.

Lemma round_nearest_even_bounds (m : Z) (l : location) :
  m <= round_nearest_even m l <= m + 1.
Proof. destruct l as [|[]]; cbn; try lia. destruct (Z.even m); lia. Qed.

(** ** Rounding *)

(** The float that [binary_round_aux] builds from its final mantissa and
    exponent. *)
Definition SFmake (sx : bool) (m e : Z) : spec_float :=
  match m with
  | Z0 => S754_zero sx
  | Zpos p => if e <=? emax - prec then S754_finite sx p e else S754_infinity sx
  | Zneg _ => S754_nan
  end.

Lemma fexp_eq (x : Z) : fexp prec emax x = Z.max (x - 53) (-1074).
Proof. reflexivity. Qed.

Lemma div_pow2_bounds (m k : Z) :
  0 <= m -> 0 <= k ->
  0 <= m / 2 ^ k /\ m / 2 ^ k * 2 ^ k <= m < (m / 2 ^ k + 1) * 2 ^ k.
Proof.
  intros Hm Hk. assert (P : 0 < 2 ^ k) by (apply Z.pow_pos_nonneg; lia).
  pose proof (Z.div_mod m (2 ^ k) ltac:(lia)) as E.
  pose proof (Z.mod_pos_bound m (2 ^ k) P) as B.
  split; [apply Z.div_pos; lia | nia].
Qed.

Lemma shifted_digits (m dg k : Z) :
  0 <= m < 2 ^ dg -> 0 <= dg -> 0 <= k ->
  m / 2 ^ k + 1 <= 2 ^ Z.max (dg - k) 0.
Proof.
  intros [H0 H] Hd Hk.
  assert (P : 0 < 2 ^ k) by (apply Z.pow_pos_nonneg; lia).
  destruct (Z_le_gt_dec k dg) as [L | G].
  - rewrite Z.max_l by lia.
    assert (m / 2 ^ k < 2 ^ (dg - k)); [|lia].
    apply Z.div_lt_upper_bound; [assumption|].
    rewrite <- Z.pow_add_r by lia. now replace (k + (dg - k)) with dg by lia.
  - rewrite Z.max_r by lia.
    assert (2 ^ dg <= 2 ^ k) by (apply Z.pow_le_mono_r; lia).
    rewrite Z.div_small by lia. cbn. lia.
Qed.

Lemma binary_round_aux_spec (sx : bool) (mx ex : Z) (lx : location) :
  0 <= mx ->
  exists m k,
    binary_round_aux prec emax sx mx ex lx = SFmake sx m (ex + k)
    /\ 0 <= m /\ 0 <= k
    /\ ex + k <= Z.max ex (fexp prec emax (Zdigits2 mx + ex)) + 1
    /\ mx - 2 * 2 ^ k < m * 2 ^ k <= mx + 2 ^ k.
Proof.
  intros Hm. unfold binary_round_aux.
  destruct (shr_fexp_spec mx ex lx Hm) as [M1 E1].
  destruct (shr_fexp prec emax mx ex lx) as [mrs1 e1]. cbn [fst snd] in M1, E1.
  set (k1 := drop mx ex) in *.
  assert (K1 : 0 <= k1) by (unfold k1, drop; lia).
  destruct (div_pow2_bounds mx k1 Hm K1) as (N1 & B1).
  pose proof (round_nearest_even_bounds (shr_m mrs1) (loc_of_shr_record mrs1)) as R.
  set (m1 := round_nearest_even (shr_m mrs1) (loc_of_shr_record mrs1)) in *.
  rewrite M1 in R.
  assert (Hm1 : 0 <= m1) by lia.
  destruct (shr_fexp_spec m1 e1 loc_Exact Hm1) as [M2 E2].
  destruct (shr_fexp prec emax m1 e1 loc_Exact) as [mrs2 e2]. cbn [fst snd] in M2, E2.
  set (k2 := drop m1 e1) in *.
  assert (K2 : 0 <= k2) by (unfold k2, drop; lia).
  destruct (div_pow2_bounds m1 k2 Hm1 K2) as (N2 & B2).
  exists (shr_m mrs2), (k1 + k2).
  assert (P1 : 0 < 2 ^ k1) by (apply Z.pow_pos_nonneg; lia).
  assert (P2 : 0 < 2 ^ k2) by (apply Z.pow_pos_nonneg; lia).
  repeat split.
  - unfold SFmake. now replace (ex + (k1 + k2)) with e2 by lia.
  - rewrite M2. assumption.
  - lia.
  - (* the exponent grows by at most one bit in the second shift *)
    assert (D : Zdigits2 m1 <= Z.max (Zdigits2 mx - k1) 0 + 1).
    { apply Zdigits2_le; [lia|]. split; [assumption|].
      assert (S : mx / 2 ^ k1 + 1 <= 2 ^ Z.max (Zdigits2 mx - k1) 0).
      { destruct (Z.eq_dec mx 0) as [-> | NZ].
        - rewrite Z.div_0_l by lia. cbn [Zdigits2].
          assert (0 < 2 ^ Z.max (0 - k1) 0) by (apply Z.pow_pos_nonneg; lia). lia.
        - apply shifted_digits; [|apply Zdigits2_nonneg|assumption].
          pose proof (Zdigits2_bounds mx ltac:(lia)). lia. }
      rewrite Z.pow_add_r by lia. change (2 ^ 1) with 2. lia. }
    unfold k2, drop. unfold k1, drop in D, E1 |- *. rewrite !fexp_eq in *.
    pose proof (Zdigits2_nonneg mx). lia.
  - rewrite M2, Z.pow_add_r by lia. nia.
  - rewrite M2, Z.pow_add_r by lia. nia.
Qed.

(** ** Real values *)

Definition bpow (e : Z) : R := powerRZ 2 e.

Lemma bpow_pos (e : Z) : (0 < bpow e)%R.
Proof. apply powerRZ_lt. lra. Qed.

Lemma bpow_add (a b : Z) : bpow (a + b) = (bpow a * bpow b)%R.
Proof. apply powerRZ_add. lra. Qed.

Lemma bpow_1 : bpow 1 = 2%R.
Proof. unfold bpow. change (powerRZ 2 1) with (2 * 1)%R. lra. Qed.

Lemma bpow_IZR (n : Z) : 0 <= n -> bpow n = IZR (2 ^ n).
Proof.
  intros H. unfold bpow. rewrite <- (Z2Nat.id n H) at 1.
  rewrite <- pow_powerRZ, pow_IZR. now rewrite Z2Nat.id.
Qed.

Lemma bpow_ge_1 (n : Z) : 0 <= n -> (1 <= bpow n)%R.
Proof.
  intros H. rewrite bpow_IZR by assumption. apply IZR_le.
  assert (0 < 2 ^ n) by (apply Z.pow_pos_nonneg; lia). lia.
Qed.

Lemma bpow_le (a b : Z) : a <= b -> (bpow a <= bpow b)%R.
Proof.
  intros H. replace b with (a + (b - a)) by lia. rewrite bpow_add.
  pose proof (bpow_pos a). pose proof (bpow_ge_1 (b - a) ltac:(lia)). nra.
Qed.

Lemma bpow_lt (a b : Z) : a < b -> (bpow a < bpow b)%R.
Proof.
  intros H. replace b with (a + 1 + (b - a - 1)) by lia. rewrite !bpow_add.
  pose proof (bpow_pos a). pose proof (bpow_ge_1 (b - a - 1) ltac:(lia)).
  rewrite bpow_1. nra.
Qed.

Lemma bpow_lt_inv (a b : Z) : (bpow a < bpow b)%R -> a < b.
Proof.
  intros H. destruct (Z_lt_le_dec a b) as [|L]; [assumption|].
  pose proof (bpow_le b a L). lra.
Qed.

Lemma bpow_succ (a : Z) : bpow (a + 1) = (2 * bpow a)%R.
Proof. rewrite bpow_add, bpow_1. ring. Qed.

(** The real number a finite float stands for; 0 for the others. *)
Definition B2R (f : spec_float) : R :=
  match f with
  | S754_finite s m e => (IZR (cond_Zopp s (Zpos m)) * bpow e)%R
  | _ => 0%R
  end.

Definition is_fin (f : spec_float) : bool :=
  match f with
  | S754_zero _ | S754_finite _ _ _ => true
  | _ => false
  end.

Definition cond_Ropp (s : bool) (r : R) : R := if s then (- r)%R else r.

Lemma B2R_SFmake (sx : bool) (m e : Z) :
  0 <= m -> e <= emax - prec ->
  is_fin (SFmake sx m e) = true
  /\ B2R (SFmake sx m e) = cond_Ropp sx (IZR m * bpow e).
Proof.
  intros Hm He. unfold SFmake. destruct m as [|p|p]; [| |lia].
  - split; [reflexivity|]. cbn. destruct sx; cbn; lra.
  - apply Z.leb_le in He. rewrite He. split; [reflexivity|].
    destruct sx; cbn [B2R cond_Zopp cond_Ropp]; [|reflexivity].
    rewrite opp_IZR. ring.
Qed.

Lemma digits_bpow (m : Z) :
  0 < m -> (bpow (Zdigits2 m - 1) <= IZR m < bpow (Zdigits2 m))%R.
Proof.
  intros H. pose proof (Zdigits2_bounds m H) as [L U].
  assert (D : 0 < Zdigits2 m) by (destruct m; cbn; lia).
  rewrite !bpow_IZR by lia. split; [apply IZR_le | apply IZR_lt]; assumption.
Qed.

(** A non-negative quantity below [2^P] has its digits below position [P]. *)
Lemma digits_below (m e P : Z) :
  0 < m -> (IZR m * bpow e < bpow P)%R -> Zdigits2 m + e <= P.
Proof.
  intros Hm H. pose proof (digits_bpow m Hm) as [L _].
  pose proof (bpow_pos e).
  assert (bpow (Zdigits2 m - 1 + e) < bpow P)%R by (rewrite bpow_add; nra).
  apply bpow_lt_inv in H1. lia.
Qed.

Lemma fexp_mono (a b : Z) : a <= b -> fexp prec emax a <= fexp prec emax b.
Proof. rewrite !fexp_eq. lia. Qed.

(** [binary_round_aux] is faithful up to a few units of the last place. *)
Lemma binary_round_aux_R (sx : bool) (mx ex : Z) (lx : location) (E : Z) :
  0 <= mx -> ex <= E -> fexp prec emax (Zdigits2 mx + ex) <= E -> E + 1 <= emax - prec ->
  is_fin (binary_round_aux prec emax sx mx ex lx) = true
  /\ exists r,
      B2R (binary_round_aux prec emax sx mx ex lx) = cond_Ropp sx r
      /\ (0 <= r)%R
      /\ (IZR mx * bpow ex - 4 * bpow E < r <= IZR mx * bpow ex + 2 * bpow E)%R.
Proof.
  intros Hm He Hf HE.
  destruct (binary_round_aux_spec sx mx ex lx Hm) as (m & k & -> & M0 & K0 & EK & B).
  destruct (B2R_SFmake sx m (ex + k) M0 ltac:(lia)) as [F V].
  split; [assumption|]. exists (IZR m * bpow (ex + k))%R. split; [assumption|].
  pose proof (bpow_pos ex) as Pe. pose proof (bpow_pos E) as PE.
  assert (KE : (bpow (ex + k) <= 2 * bpow E)%R).
  { rewrite <- bpow_succ. apply bpow_le. lia. }
  assert (P2 : 0 < 2 ^ k) by (apply Z.pow_pos_nonneg; lia).
  assert (Bk : bpow (ex + k) = (bpow ex * IZR (2 ^ k))%R).
  { rewrite bpow_add, (bpow_IZR k) by assumption. reflexivity. }
  destruct B as [B1 B2].
  apply IZR_lt in B1. apply IZR_le in B2.
  rewrite minus_IZR, !mult_IZR in B1. rewrite plus_IZR, mult_IZR in B2.
  assert (0 <= IZR m)%R by (now apply IZR_le).
  assert (0 < IZR (2 ^ k))%R by (now apply IZR_lt).
  rewrite Bk in *.
  pose proof (Rmult_lt_compat_l _ _ _ Pe B1) as C1.
  pose proof (Rmult_le_compat_l _ _ _ (Rlt_le _ _ Pe) B2) as C2.
  split; [|split; lra].
  apply Rmult_le_pos; [assumption|]. apply Rmult_le_pos; lra.
Qed.

Lemma Zdigits2_unique (n d : Z) :
  2 ^ (d - 1) <= n < 2 ^ d -> 0 < n -> Zdigits2 n = d.
Proof.
  intros [L U] Hn. pose proof (Zdigits2_bounds n Hn) as [L' U'].
  assert (D' : 0 < Zdigits2 n) by (destruct n; cbn; lia).
  assert (D : 0 < d).
  { destruct (Z_lt_le_dec 0 d) as [|N]; [assumption|].
    destruct d as [|p|p]; try lia; cbn in U; lia. }
  destruct (Z.lt_trichotomy (Zdigits2 n) d) as [C | [C | C]]; [|assumption|].
  - assert (2 ^ Zdigits2 n <= 2 ^ (d - 1)) by (apply Z.pow_le_mono_r; lia). lia.
  - assert (2 ^ d <= 2 ^ (Zdigits2 n - 1)) by (apply Z.pow_le_mono_r; lia). lia.
Qed.

Lemma Zdigits2_shift (m s : Z) :
  0 < m -> 0 <= s -> Zdigits2 (m * 2 ^ s) = Zdigits2 m + s.
Proof.
  intros Hm Hs. pose proof (Zdigits2_bounds m Hm) as [L U].
  assert (D : 0 < Zdigits2 m) by (destruct m; cbn; lia).
  assert (P : 0 < 2 ^ s) by (apply Z.pow_pos_nonneg; lia).
  apply Zdigits2_unique; [|nia].
  replace (Zdigits2 m + s - 1) with (Zdigits2 m - 1 + s) by lia.
  rewrite !Z.pow_add_r by lia. nia.
Qed.

Lemma shl_align_spec (mx : positive) (ex ex' : Z) :
  snd (shl_align mx ex ex') = Z.min ex ex'
  /\ Zpos (fst (shl_align mx ex ex')) = Zpos mx * 2 ^ (ex - Z.min ex ex').
Proof.
  unfold shl_align. destruct (ex' - ex) as [|d|d] eqn:E; cbn [fst snd].
  - rewrite Z.min_l by lia. rewrite Z.sub_diag. cbn. lia.
  - rewrite Z.min_l by lia. rewrite Z.sub_diag. cbn. lia.
  - rewrite Z.min_r by lia. split; [reflexivity|].
    change (Pos.iter xO mx d) with (shift_pos d mx). rewrite shift_pos_correct.
    replace (ex - ex') with (Zpos d) by lia. cbn [Z.pow]. lia.
Qed.

Lemma binary_round_aux_exact (sx : bool) (mx ex : Z) :
  0 <= mx -> fexp prec emax (Zdigits2 mx + ex) <= ex ->
  binary_round_aux prec emax sx mx ex loc_Exact = SFmake sx mx ex.
Proof.
  intros Hm H. unfold binary_round_aux.
  assert (S : shr_fexp prec emax mx ex loc_Exact
              = ({| shr_m := mx; shr_r := false; shr_s := false |}, ex)).
  { unfold shr_fexp, shr. cbn [shr_record_of_loc].
    destruct (fexp prec emax (Zdigits2 mx + ex) - ex) eqn:E; try reflexivity. lia. }
  rewrite S. cbn [shr_m loc_of_shr_record round_nearest_even]. rewrite S.
  reflexivity.
Qed.

(** The quantity [+/- m * 2^e] that a rounding function is applied to. *)
Definition signed (sx : bool) (m e : Z) : R := cond_Ropp sx (IZR m * bpow e).

Section BinaryRound.

Variables (sx : bool) (mx : positive) (ex : Z).

Let D := Zdigits2 (Zpos mx) + ex.

Lemma binary_round_unfold :
  exists mz ez,
    binary_round prec emax sx mx ex = binary_round_aux prec emax sx (Zpos mz) ez loc_Exact
    /\ ez = Z.min ex (fexp prec emax D)
    /\ Zdigits2 (Zpos mz) + ez = D
    /\ (IZR (Zpos mz) * bpow ez = IZR (Zpos mx) * bpow ex)%R.
Proof.
  unfold binary_round.
  destruct (shl_align_spec mx ex (fexp prec emax D)) as [E M].
  change (Zpos (digits2_pos mx)) with (Zdigits2 (Zpos mx)). fold D.
  destruct (shl_align mx ex (fexp prec emax D)) as [mz ez]. cbn [fst snd] in E, M.
  exists mz, ez. repeat split; try assumption.
  - rewrite M, E, Zdigits2_shift by lia. unfold D. lia.
  - rewrite M, mult_IZR, <- bpow_IZR by lia. rewrite Rmult_assoc, <- bpow_add.
    f_equal. f_equal. lia.
Qed.

Lemma binary_round_R (E : Z) :
  fexp prec emax D <= E -> E + 1 <= emax - prec ->
  is_fin (binary_round prec emax sx mx ex) = true
  /\ exists r,
      B2R (binary_round prec emax sx mx ex) = cond_Ropp sx r
      /\ (0 <= r)%R
      /\ (IZR (Zpos mx) * bpow ex - 4 * bpow E < r
          <= IZR (Zpos mx) * bpow ex + 2 * bpow E)%R.
Proof.
  intros HD HE. destruct binary_round_unfold as (mz & ez & -> & Ez & Dz & V).
  rewrite <- V. apply binary_round_aux_R; try lia. rewrite Dz. assumption.
Qed.

Lemma binary_round_exact :
  fexp prec emax D <= ex -> ex <= emax - prec ->
  is_fin (binary_round prec emax sx mx ex) = true
  /\ B2R (binary_round prec emax sx mx ex) = signed sx (Zpos mx) ex.
Proof.
  intros HD HE. destruct binary_round_unfold as (mz & ez & -> & Ez & Dz & V).
  rewrite binary_round_aux_exact by (rewrite ?Dz; lia).
  unfold signed. rewrite <- V. apply B2R_SFmake; lia.
Qed.

End BinaryRound.

Lemma cond_Zopp_IZR (s : bool) (m : Z) : IZR (cond_Zopp s m) = cond_Ropp s (IZR m).
Proof. destruct s; cbn; [apply opp_IZR | reflexivity]. Qed.

(** [binary_normalize]: exact when the integer has at most 53 bits above
    [fexp], faithful otherwise. *)
Lemma binary_normalize_exact (m e : Z) (sz : bool) :
  fexp prec emax (Zdigits2 m + e) <= e -> e <= emax - prec ->
  is_fin (binary_normalize prec emax m e sz) = true
  /\ B2R (binary_normalize prec emax m e sz) = (IZR m * bpow e)%R.
Proof.
  intros H He. destruct m as [|p|p]; cbn [binary_normalize].
  - split; [reflexivity | cbn; lra].
  - destruct (binary_round_exact false p e H He) as [F V].
    split; [assumption|]. rewrite V. reflexivity.
  - destruct (binary_round_exact true p e H He) as [F V].
    split; [assumption|]. rewrite V. unfold signed, cond_Ropp.
    change (Zneg p) with (- Zpos p). rewrite opp_IZR. ring.
Qed.

Lemma binary_normalize_R (m e : Z) (sz : bool) (E : Z) :
  fexp prec emax (Zdigits2 m + e) <= E -> E + 1 <= emax - prec ->
  is_fin (binary_normalize prec emax m e sz) = true
  /\ (Rabs (B2R (binary_normalize prec emax m e sz) - IZR m * bpow e) <= 4 * bpow E)%R.
Proof.
  intros H HE. pose proof (bpow_pos E) as PE.
  destruct m as [|p|p]; cbn [binary_normalize].
  - split; [reflexivity|]. cbn [B2R].
    rewrite Rmult_0_l, Rminus_0_r, Rabs_R0. lra.
  - destruct (binary_round_R false p e E H HE) as (F & r & V & R0 & B).
    split; [assumption|]. rewrite V. cbn [cond_Ropp].
    apply Rabs_le. lra.
  - destruct (binary_round_R true p e E H HE) as (F & r & V & R0 & B).
    split; [assumption|]. rewrite V. cbn [cond_Ropp].
    change (Zneg p) with (- Zpos p). rewrite opp_IZR.
    apply Rabs_le. lra.
Qed.

(** ** Division *)

Lemma SFdiv_core_spec (mx my : positive) (ex ey : Z) :
  exists q e' l,
    SFdiv_core_binary prec emax (Zpos mx) ex (Zpos my) ey = (q, e', l)
    /\ e' = Z.min (fexp prec emax (Zdigits2 (Zpos mx) + ex - (Zdigits2 (Zpos my) + ey)))
                  (ex - ey)
    /\ 0 <= q
    /\ q * Zpos my <= Zpos mx * 2 ^ (ex - ey - e') < (q + 1) * Zpos my.
Proof.
  unfold SFdiv_core_binary.
  set (e' := Z.min _ (ex - ey)).
  set (s := ex - ey - e').
  assert (Hs : 0 <= s) by (unfold s, e'; lia).
  set (m' := match s with Z0 => Zpos mx | Zpos _ => Z.shiftl (Zpos mx) s | Zneg _ => 0 end).
  assert (Hm' : m' = Zpos mx * 2 ^ s).
  { unfold m'. destruct s as [|p|p] eqn:Es; [cbn; lia | | lia].
    rewrite Z.shiftl_mul_pow2 by lia. reflexivity. }
  pose proof (Z_div_mod m' (Zpos my) ltac:(lia)) as DM.
  destruct (Z.div_eucl m' (Zpos my)) as [q r].
  exists q, e', (new_location (Zpos my) r). destruct DM as [DM R].
  assert (P : 0 < 2 ^ s) by (apply Z.pow_pos_nonneg; lia).
  rewrite Hm' in DM. set (t := 2 ^ s) in *.
  assert (Q0 : 0 <= q).
  { destruct (Z_lt_le_dec q 0) as [N|]; [|assumption].
    assert (Zpos my * q <= - Zpos my) by nia. nia. }
  change (2 ^ (ex - ey - e')) with t.
  repeat split; try reflexivity; try assumption; lia.
Qed.

Lemma Rabs_cond_Ropp (s : bool) (r : R) : Rabs (cond_Ropp s r) = Rabs r.
Proof. destruct s; cbn; [apply Rabs_Ropp | reflexivity]. Qed.

Lemma cond_Ropp_div (s1 s2 : bool) (a b : R) :
  b <> 0%R ->
  (cond_Ropp s1 a / cond_Ropp s2 b)%R = cond_Ropp (xorb s1 s2) (a / b)%R.
Proof. intros H. destruct s1, s2; cbn; field; assumption. Qed.

Lemma B2R_finite (s : bool) (m : positive) (e : Z) :
  B2R (S754_finite s m e) = cond_Ropp s (IZR (Zpos m) * bpow e).
Proof.
  cbn [B2R]. rewrite cond_Zopp_IZR. destruct s; cbn; ring.
Qed.

Lemma mag_pos (m : positive) (e : Z) : (0 < IZR (Zpos m) * bpow e)%R.
Proof.
  apply Rmult_lt_0_compat; [apply IZR_lt; lia | apply bpow_pos].
Qed.

Lemma SFdiv_R (x : spec_float) (sy : bool) (my : positive) (ey : Z) (P Q : Z) :
  is_fin x = true ->
  (Rabs (B2R x) < bpow P)%R ->
  (bpow Q <= Rabs (B2R (S754_finite sy my ey)))%R ->
  fexp prec emax (P - Q) + 1 <= emax - prec ->
  is_fin (SFdiv prec emax x (S754_finite sy my ey)) = true
  /\ (Rabs (B2R (SFdiv prec emax x (S754_finite sy my ey))
             - B2R x / B2R (S754_finite sy my ey))
      <= 5 * bpow (fexp prec emax (P - Q)))%R.
Proof.
  intros Fx Bx By HE. set (E := fexp prec emax (P - Q)) in *.
  pose proof (bpow_pos E) as PE.
  destruct x as [sx| | |sx mx ex]; try discriminate Fx.
  - cbn [SFdiv is_fin B2R]. split; [reflexivity|].
    unfold Rdiv. rewrite Rmult_0_l, Rminus_0_r, Rabs_R0. lra.
  - cbn [SFdiv].
    destruct (SFdiv_core_spec mx my ex ey) as (q & e' & l & -> & Ee & Hq & Bq).
    rewrite !B2R_finite in *. rewrite Rabs_cond_Ropp in Bx, By.
    pose proof (mag_pos mx ex) as Px. pose proof (mag_pos my ey) as Py.
    rewrite Rabs_pos_eq in Bx, By by lra.
    set (s := ex - ey - e') in *.
    assert (Hs : 0 <= s) by (unfold s; lia).
    set (xt := (IZR (Zpos mx) * bpow ex / (IZR (Zpos my) * bpow ey))%R).
    assert (Ex : bpow ex = (bpow s * bpow e' * bpow ey)%R).
    { rewrite <- !bpow_add. f_equal. unfold s. lia. }
    assert (Xt : xt = (IZR (Zpos mx) * bpow s / IZR (Zpos my) * bpow e')%R).
    { unfold xt. rewrite Ex. field.
      split; solve [apply eq_IZR_contrapositive; lia | apply Rgt_not_eq, bpow_pos]. }
    pose proof (bpow_pos e') as Pe'. pose proof (bpow_pos ey) as Pey.
    assert (Pmy : (0 < IZR (Zpos my))%R) by (apply IZR_lt; lia).
    destruct Bq as [B1 B2]. apply IZR_le in B1. apply IZR_lt in B2.
    rewrite !mult_IZR in B1, B2. rewrite plus_IZR in B2.
    rewrite <- (bpow_IZR s Hs) in B1, B2.
    assert (L1 : (IZR q <= IZR (Zpos mx) * bpow s / IZR (Zpos my))%R).
    { apply Rmult_le_reg_r with (IZR (Zpos my)); [assumption|].
      unfold Rdiv. rewrite Rmult_assoc, Rinv_l, Rmult_1_r by lra. assumption. }
    assert (L2 : (IZR (Zpos mx) * bpow s / IZR (Zpos my) < IZR q + 1)%R).
    { apply Rmult_lt_reg_r with (IZR (Zpos my)); [assumption|].
      unfold Rdiv. rewrite Rmult_assoc, Rinv_l, Rmult_1_r by lra. assumption. }
    assert (X1 : (IZR q * bpow e' <= xt)%R) by (rewrite Xt; nra).
    assert (X2 : (xt < IZR q * bpow e' + bpow e')%R) by (rewrite Xt; nra).
    assert (XP : (xt < bpow (P - Q))%R).
    { unfold xt. apply Rmult_lt_reg_r with (IZR (Zpos my) * bpow ey)%R; [assumption|].
      unfold Rdiv. rewrite Rmult_assoc, Rinv_l, Rmult_1_r by lra.
      replace (P - Q) with (P + - Q) by lia. rewrite bpow_add.
      assert (bpow (- Q) * bpow Q = 1)%R.
      { rewrite <- bpow_add. replace (- Q + Q) with 0 by lia. reflexivity. }
      pose proof (bpow_pos (- Q)) as PQ. pose proof (bpow_pos P) as PP.
      assert (1 <= bpow (- Q) * (IZR (Zpos my) * bpow ey))%R.
      { rewrite <- H. apply Rmult_le_compat_l; lra. }
      assert (bpow P * 1 <= bpow P * (bpow (- Q) * (IZR (Zpos my) * bpow ey)))%R
        by (apply Rmult_le_compat_l; lra).
      lra. }
    (* exponents *)
    assert (D1 : Zdigits2 (Zpos mx) + ex <= P) by (apply digits_below; [lia | assumption]).
    assert (D2 : Q < Zdigits2 (Zpos my) + ey).
    { apply bpow_lt_inv. rewrite bpow_add.
      pose proof (digits_bpow (Zpos my) ltac:(lia)) as [_ U]. nra. }
    assert (E1 : e' <= E).
    { rewrite Ee. unfold E. rewrite !fexp_eq. lia. }
    assert (E2 : fexp prec emax (Zdigits2 q + e') <= E).
    { destruct (Z.eq_dec q 0) as [-> | NZ].
      - cbn [Zdigits2]. unfold E in *. rewrite !fexp_eq in *. lia.
      - apply fexp_mono. apply digits_below; [lia|]. lra. }
    destruct (binary_round_aux_R (xorb sx sy) q e' l E Hq E1 E2 HE) as (F & r & V & R0 & B).
    split; [assumption|]. rewrite V, cond_Ropp_div by lra. fold xt.
    assert (LE : (bpow e' <= bpow E)%R) by (now apply bpow_le).
    destruct (xorb sx sy); cbn [cond_Ropp]; apply Rabs_le; lra.
Qed.

(** ** Addition and subtraction *)

Lemma Zdigits2_abs (m : Z) : Zdigits2 (Z.abs m) = Zdigits2 m.
Proof. destruct m; reflexivity. Qed.

Lemma align_value (s : bool) (mx : positive) (ex ez : Z) :
  ez <= ex ->
  (IZR (cond_Zopp s (Zpos (fst (shl_align mx ex ez)))) * bpow ez)%R
  = cond_Ropp s (IZR (Zpos mx) * bpow ex).
Proof.
  intros H. destruct (shl_align_spec mx ex ez) as [_ M].
  rewrite Z.min_r in M by assumption.
  rewrite cond_Zopp_IZR, M, mult_IZR, <- bpow_IZR by lia.
  replace (bpow ex) with (bpow (ex - ez) * bpow ez)%R
    by (rewrite <- bpow_add; f_equal; lia).
  destruct s; cbn; ring.
Qed.

(** Rounding the exact integer [M * 2^ez] whose real value is [v]. *)
Lemma normalize_sum (M ez P : Z) (v : R) :
  (IZR M * bpow ez)%R = v -> (Rabs v < bpow P)%R -> ez < P ->
  fexp prec emax P + 1 <= emax - prec ->
  is_fin (binary_normalize prec emax M ez false) = true
  /\ (Rabs (B2R (binary_normalize prec emax M ez false) - v)
      <= 4 * bpow (fexp prec emax P))%R.
Proof.
  intros V B Hez HE. rewrite <- V. apply binary_normalize_R; [|assumption].
  apply fexp_mono. destruct (Z.eq_dec M 0) as [-> | NZ]; [cbn; lia|].
  rewrite <- Zdigits2_abs. apply digits_below; [lia|].
  rewrite abs_IZR. rewrite <- V, Rabs_mult, (Rabs_pos_eq (bpow ez)) in B; [assumption|].
  apply Rlt_le, bpow_pos.
Qed.

Lemma finite_exp_below (s : bool) (m : positive) (e P : Z) :
  (Rabs (B2R (S754_finite s m e)) < bpow P)%R -> e < P.
Proof.
  rewrite B2R_finite, Rabs_cond_Ropp. pose proof (mag_pos m e).
  rewrite Rabs_pos_eq by lra. intros H'.
  pose proof (digits_below (Zpos m) e P ltac:(lia) H').
  assert (0 < Zdigits2 (Zpos m)) by (cbn; lia). lia.
Qed.

Lemma SFadd_R (x y : spec_float) (P : Z) :
  is_fin x = true -> is_fin y = true ->
  (Rabs (B2R x) + Rabs (B2R y) < bpow P)%R ->
  fexp prec emax P + 1 <= emax - prec ->
  is_fin (SFadd prec emax x y) = true
  /\ (Rabs (B2R (SFadd prec emax x y) - (B2R x + B2R y))
      <= 4 * bpow (fexp prec emax P))%R.
Proof.
  intros Fx Fy B HE. pose proof (bpow_pos (fexp prec emax P)) as PE.
  assert (Z0 : forall r, (r - r = 0)%R) by (intros; ring).
  destruct x as [sx| | |sx mx ex], y as [sy| | |sy my ey];
    try discriminate Fx; try discriminate Fy.
  - split; [now destruct sx, sy|].
    replace (B2R (SFadd prec emax (S754_zero sx) (S754_zero sy))) with 0%R
      by (now destruct sx, sy).
    cbn [B2R]. rewrite Rplus_0_l, Z0, Rabs_R0. lra.
  - cbn [SFadd]. split; [reflexivity|].
    cbn [B2R]. rewrite Rplus_0_l, Z0, Rabs_R0. lra.
  - cbn [SFadd]. split; [reflexivity|].
    cbn [B2R]. rewrite Rplus_0_r, Z0, Rabs_R0. lra.
  - cbn [SFadd].
    pose proof (Rabs_pos (B2R (S754_finite sx mx ex))).
    pose proof (Rabs_pos (B2R (S754_finite sy my ey))).
    assert (Hx : ex < P) by (apply (finite_exp_below sx mx); lra).
    apply normalize_sum; try lia.
    + rewrite plus_IZR, Rmult_plus_distr_r, !align_value by lia.
      now rewrite !B2R_finite.
    + eapply Rle_lt_trans; [apply Rabs_triang | assumption].
Qed.

Lemma SFsub_R (x y : spec_float) (P : Z) :
  is_fin x = true -> is_fin y = true ->
  (Rabs (B2R x) + Rabs (B2R y) < bpow P)%R ->
  fexp prec emax P + 1 <= emax - prec ->
  is_fin (SFsub prec emax x y) = true
  /\ (Rabs (B2R (SFsub prec emax x y) - (B2R x - B2R y))
      <= 4 * bpow (fexp prec emax P))%R.
Proof.
  intros Fx Fy B HE. pose proof (bpow_pos (fexp prec emax P)) as PE.
  assert (Z0 : forall r, (r - r = 0)%R) by (intros; ring).
  destruct x as [sx| | |sx mx ex], y as [sy| | |sy my ey];
    try discriminate Fx; try discriminate Fy.
  - split; [now destruct sx, sy|].
    replace (B2R (SFsub prec emax (S754_zero sx) (S754_zero sy))) with 0%R
      by (now destruct sx, sy).
    cbn [B2R]. rewrite Rminus_0_r, Z0, Rabs_R0. lra.
  - cbn [SFsub]. split; [reflexivity|].
    rewrite !B2R_finite. cbn [B2R].
    replace (cond_Ropp (negb sy) (IZR (Zpos my) * bpow ey)
             - (0 - cond_Ropp sy (IZR (Zpos my) * bpow ey)))%R with 0%R
      by (destruct sy; cbn; ring).
    rewrite Rabs_R0. lra.
  - cbn [SFsub]. split; [reflexivity|].
    cbn [B2R]. rewrite Rminus_0_r, Z0, Rabs_R0. lra.
  - cbn [SFsub].
    pose proof (Rabs_pos (B2R (S754_finite sx mx ex))).
    pose proof (Rabs_pos (B2R (S754_finite sy my ey))).
    assert (Hx : ex < P) by (apply (finite_exp_below sx mx); lra).
    apply normalize_sum; try lia.
    + rewrite minus_IZR. unfold Rminus at 1.
      rewrite Rmult_plus_distr_r, Ropp_mult_distr_l_reverse, !align_value by lia.
      now rewrite !B2R_finite.
    + unfold Rminus. eapply Rle_lt_trans; [apply Rabs_triang|].
      now rewrite Rabs_Ropp.
Qed.

(** ** Comparison *)

Lemma bounded_inv (m : positive) (e : Z) :
  SpecFloat.bounded prec emax m e = true ->
  fexp prec emax (Zdigits2 (Zpos m) + e) = e /\ e <= emax - prec.
Proof.
  unfold SpecFloat.bounded, canonical_mantissa. intros H.
  apply andb_true_iff in H as [C B].
  apply Z.eqb_eq in C. apply Z.leb_le in B. now split.
Qed.

Lemma canonical_lt (m1 m2 : positive) (e1 e2 : Z) :
  SpecFloat.bounded prec emax m1 e1 = true ->
  SpecFloat.bounded prec emax m2 e2 = true -> e1 < e2 ->
  (IZR (Zpos m1) * bpow e1 < IZR (Zpos m2) * bpow e2)%R.
Proof.
  intros B1 B2 H.
  destruct (bounded_inv m1 e1 B1) as [C1 _]. destruct (bounded_inv m2 e2 B2) as [C2 _].
  rewrite fexp_eq in C1, C2.
  pose proof (digits_bpow (Zpos m1) ltac:(lia)) as [_ U1].
  pose proof (digits_bpow (Zpos m2) ltac:(lia)) as [L2 _].
  assert (D2 : Zdigits2 (Zpos m2) = 53) by lia.
  assert (D1 : Zdigits2 (Zpos m1) <= 53) by lia.
  rewrite D2 in L2.
  pose proof (bpow_le (Zdigits2 (Zpos m1)) 53 D1) as U1'.
  pose proof (bpow_pos e1) as P1. pose proof (bpow_pos e2) as P2.
  assert (S : (bpow 53 * bpow e1 <= bpow (53 - 1) * bpow e2)%R).
  { rewrite <- !bpow_add. apply bpow_le. lia. }
  assert (IZR (Zpos m1) * bpow e1 < bpow 53 * bpow e1)%R
    by (apply Rmult_lt_compat_r; lra).
  assert (bpow (53 - 1) * bpow e2 <= IZR (Zpos m2) * bpow e2)%R
    by (apply Rmult_le_compat_r; lra).
  lra.
Qed.

Lemma mantissa_compare (m1 m2 : positive) (e : Z) :
  match Pos.compare_cont Eq m1 m2 with
  | Lt => (IZR (Zpos m1) * bpow e < IZR (Zpos m2) * bpow e)%R
  | Eq => m1 = m2
  | Gt => (IZR (Zpos m2) * bpow e < IZR (Zpos m1) * bpow e)%R
  end.
Proof.
  change (Pos.compare_cont Eq m1 m2) with (Pos.compare m1 m2).
  pose proof (bpow_pos e).
  destruct (Pos.compare_spec m1 m2) as [E | L | G]; [assumption| |];
    apply Rmult_lt_compat_r; try assumption; apply IZR_lt; lia.
Qed.

Lemma SFcompare_R (x y : spec_float) :
  valid_binary x = true -> valid_binary y = true ->
  is_fin x = true -> is_fin y = true ->
  ((B2R x < B2R y)%R -> SFcompare x y = Some Lt)
  /\ (B2R x = B2R y -> SFcompare x y = Some Eq)
  /\ ((B2R y < B2R x)%R -> SFcompare x y = Some Gt).
Proof.
  intros Vx Vy Fx Fy.
  destruct x as [sx| | |sx mx ex], y as [sy| | |sy my ey];
    try discriminate Fx; try discriminate Fy; cbn [SFcompare].
  - cbn [B2R]. repeat split; intros; try reflexivity; lra.
  - rewrite B2R_finite. cbn [B2R]. pose proof (mag_pos my ey).
    destruct sy; cbn [cond_Ropp]; repeat split; intros; try reflexivity; lra.
  - rewrite B2R_finite. cbn [B2R]. pose proof (mag_pos mx ex).
    destruct sx; cbn [cond_Ropp]; repeat split; intros; try reflexivity; lra.
  - rewrite !B2R_finite. cbn [valid_binary] in Vx, Vy.
    pose proof (mag_pos mx ex). pose proof (mag_pos my ey).
    pose proof (mantissa_compare mx my ex) as MC.
    destruct sx, sy; cbn [cond_Ropp];
      try (repeat split; intros; try reflexivity; lra);
      destruct (Z.compare_spec ex ey) as [E | L | G];
      try (pose proof (canonical_lt mx my ex ey Vx Vy L));
      try (pose proof (canonical_lt my mx ey ex Vy Vx G));
      try (repeat split; intros; try reflexivity; lra);
      subst ey; destruct (Pos.compare_cont Eq mx my); cbn [CompOpp];
      try subst my; repeat split; intros; try reflexivity; lra.
Qed.

Lemma SFltb_R (x y : spec_float) :
  valid_binary x = true -> valid_binary y = true ->
  is_fin x = true -> is_fin y = true ->
  (B2R x < B2R y)%R -> SFltb x y = true.
Proof.
  intros Vx Vy Fx Fy H. unfold SFltb.
  now rewrite (proj1 (SFcompare_R x y Vx Vy Fx Fy) H).
Qed.

Lemma SFleb_R (x y : spec_float) :
  valid_binary x = true -> valid_binary y = true ->
  is_fin x = true -> is_fin y = true ->
  (B2R x <= B2R y)%R -> SFleb x y = true.
Proof.
  intros Vx Vy Fx Fy H. unfold SFleb.
  destruct (SFcompare_R x y Vx Vy Fx Fy) as (L & E & _).
  destruct H as [H | H]; [now rewrite (L H) | now rewrite (E H)].
Qed.

(** ** Primitive floats *)

Definition FR (x : float) : R := B2R (Prim2SF x).
Definition fin (x : float) : bool := is_fin (Prim2SF x).

Lemma ltb_R (x y : float) :
  fin x = true -> fin y = true -> (FR x < FR y)%R -> (x <? y)%float = true.
Proof.
  intros Fx Fy H. rewrite ltb_spec.
  apply SFltb_R; try assumption; apply Prim2SF_valid.
Qed.

Lemma leb_R (x y : float) :
  fin x = true -> fin y = true -> (FR x <= FR y)%R -> (x <=? y)%float = true.
Proof.
  intros Fx Fy H. rewrite leb_spec.
  apply SFleb_R; try assumption; apply Prim2SF_valid.
Qed.

Lemma add_R (x y : float) (P : Z) :
  fin x = true -> fin y = true ->
  (Rabs (FR x) + Rabs (FR y) < bpow P)%R ->
  fexp prec emax P + 1 <= emax - prec ->
  fin (x + y) = true
  /\ (Rabs (FR (x + y) - (FR x + FR y)) <= 4 * bpow (fexp prec emax P))%R.
Proof. unfold fin, FR. rewrite add_spec. apply SFadd_R. Qed.

Lemma sub_R (x y : float) (P : Z) :
  fin x = true -> fin y = true ->
  (Rabs (FR x) + Rabs (FR y) < bpow P)%R ->
  fexp prec emax P + 1 <= emax - prec ->
  fin (x - y) = true
  /\ (Rabs (FR (x - y) - (FR x - FR y)) <= 4 * bpow (fexp prec emax P))%R.
Proof. unfold fin, FR. rewrite sub_spec. apply SFsub_R. Qed.

Lemma div_R (x y : float) (P Q : Z) :
  fin x = true ->
  (exists s m e, Prim2SF y = S754_finite s m e) ->
  (Rabs (FR x) < bpow P)%R -> (bpow Q <= Rabs (FR y))%R ->
  fexp prec emax (P - Q) + 1 <= emax - prec ->
  fin (x / y) = true
  /\ (Rabs (FR (x / y) - FR x / FR y) <= 5 * bpow (fexp prec emax (P - Q)))%R.
Proof.
  unfold fin, FR. rewrite div_spec. intros Fx (s & m & e & ->). now apply SFdiv_R.
Qed.

Lemma bpow_neg (n : Z) : 0 <= n -> bpow (- n) = (/ IZR (2 ^ n))%R.
Proof.
  intros H. unfold bpow. rewrite powerRZ_neg'. fold (bpow n).
  now rewrite bpow_IZR.
Qed.

(** ** Representable values round to themselves *)

Lemma shr_1_double (x : Z) :
  0 <= x ->
  shr_1 {| shr_m := 2 * x; shr_r := false; shr_s := false |}
  = {| shr_m := x; shr_r := false; shr_s := false |}.
Proof. destruct x as [|p|p]; [reflexivity | reflexivity | lia]. Qed.

Lemma iter_pos_shr_1_exact (p : positive) :
  forall q, 0 <= q ->
    SpecFloat.iter_pos shr_1 p
      {| shr_m := q * 2 ^ Zpos p; shr_r := false; shr_s := false |}
    = {| shr_m := q; shr_r := false; shr_s := false |}.
Proof.
  induction p as [p IH | p IH |]; intros q Hq; cbn [SpecFloat.iter_pos].
  - assert (P : 0 < 2 ^ Zpos p) by (apply Z.pow_pos_nonneg; lia).
    replace (q * 2 ^ Zpos p~1) with (2 * (q * 2 ^ Zpos p * 2 ^ Zpos p)).
    + rewrite shr_1_double by nia. rewrite IH by nia. now apply IH.
    + replace (Zpos p~1) with (1 + Zpos p + Zpos p) by lia.
      rewrite !Z.pow_add_r by lia. change (2 ^ 1) with 2. ring.
  - assert (P : 0 < 2 ^ Zpos p) by (apply Z.pow_pos_nonneg; lia).
    replace (q * 2 ^ Zpos p~0) with (q * 2 ^ Zpos p * 2 ^ Zpos p).
    + rewrite IH by nia. now apply IH.
    + replace (Zpos p~0) with (Zpos p + Zpos p) by lia.
      rewrite !Z.pow_add_r by lia. ring.
  - replace (q * 2 ^ 1) with (2 * q) by (change (2 ^ 1) with 2; ring).
    now apply shr_1_double.
Qed.

(** Shifting out [d] zero bits loses nothing. *)
Lemma shr_exact (q e d : Z) :
  0 <= q -> 0 <= d ->
  shr {| shr_m := q * 2 ^ d; shr_r := false; shr_s := false |} e d
  = ({| shr_m := q; shr_r := false; shr_s := false |}, e + d).
Proof.
  intros Hq Hd. destruct d as [|p|p]; [| |lia]; cbn [shr].
  - rewrite Z.mul_1_r, Z.add_0_r. reflexivity.
  - now rewrite iter_pos_shr_1_exact.
Qed.

Lemma binary_round_aux_repr (sx : bool) (n g k : Z) :
  0 < n -> 0 <= k ->
  fexp prec emax (Zdigits2 n + g) <= g -> g <= emax - prec ->
  is_fin (binary_round_aux prec emax sx (n * 2 ^ k) (g - k) loc_Exact) = true
  /\ B2R (binary_round_aux prec emax sx (n * 2 ^ k) (g - k) loc_Exact)
     = cond_Ropp sx (IZR n * bpow g).
Proof.
  intros Hn Hk Hf Hg.
  set (D := Zdigits2 n + g) in *.
  set (d := Z.max 0 (fexp prec emax D - (g - k))).
  assert (Hd : 0 <= d <= k) by (unfold d; lia).
  set (m1 := n * 2 ^ (k - d)).
  assert (P1 : 0 < 2 ^ (k - d)) by (apply Z.pow_pos_nonneg; lia).
  assert (Hm1 : 0 < m1) by (unfold m1; nia).
  assert (M : n * 2 ^ k = m1 * 2 ^ d).
  { unfold m1. rewrite <- Z.mul_assoc, <- Z.pow_add_r by lia. do 2 f_equal. lia. }
  assert (D1 : Zdigits2 (n * 2 ^ k) + (g - k) = D).
  { rewrite Zdigits2_shift by lia. unfold D. lia. }
  assert (D2 : Zdigits2 m1 + (g - k + d) = D).
  { unfold m1. rewrite Zdigits2_shift by lia. unfold D. lia. }
  assert (S1 : shr_fexp prec emax (n * 2 ^ k) (g - k) loc_Exact
               = ({| shr_m := m1; shr_r := false; shr_s := false |}, g - k + d)).
  { unfold shr_fexp. rewrite D1. cbn [shr_record_of_loc].
    destruct (fexp prec emax D - (g - k)) as [|p|p] eqn:E.
    - assert (Ed : d = 0) by (unfold d; lia).
      cbn [shr]. unfold m1. rewrite Ed, Z.sub_0_r, Z.add_0_r. reflexivity.
    - assert (Ed : d = Zpos p) by (unfold d; lia).
      rewrite M, Ed. apply shr_exact; lia.
    - assert (Ed : d = 0) by (unfold d; lia).
      cbn [shr]. unfold m1. rewrite Ed, Z.sub_0_r, Z.add_0_r. reflexivity. }
  assert (S2 : shr_fexp prec emax m1 (g - k + d) loc_Exact
               = ({| shr_m := m1; shr_r := false; shr_s := false |}, g - k + d)).
  { unfold shr_fexp. rewrite D2. cbn [shr_record_of_loc].
    destruct (fexp prec emax D - (g - k + d)) as [|p|p] eqn:E; try reflexivity.
    unfold d in E. lia. }
  unfold binary_round_aux. rewrite S1. cbn [shr_m loc_of_shr_record round_nearest_even].
  rewrite S2. cbn [shr_m].
  change (match m1 with
          | 0 => S754_zero sx
          | Zpos m => if g - k + d <=? emax - prec then S754_finite sx m (g - k + d)
                      else S754_infinity sx
          | Zneg _ => S754_nan
          end) with (SFmake sx m1 (g - k + d)).
  destruct (B2R_SFmake sx m1 (g - k + d) ltac:(lia) ltac:(lia)) as [F V].
  split; [assumption|]. rewrite V. f_equal. unfold m1.
  rewrite mult_IZR, <- (bpow_IZR (k - d)) by lia.
  rewrite Rmult_assoc, <- bpow_add. do 2 f_equal. lia.
Qed.

(** A positive real [m * 2^e] that equals [n * 2^g] with [n * 2^g]
    representable is rounded to itself. *)
Lemma binary_round_repr (sx : bool) (mx : positive) (ex n g : Z) :
  (IZR (Zpos mx) * bpow ex = IZR n * bpow g)%R ->
  fexp prec emax (Zdigits2 n + g) <= g -> g <= emax - prec ->
  is_fin (binary_round prec emax sx mx ex) = true
  /\ B2R (binary_round prec emax sx mx ex) = cond_Ropp sx (IZR n * bpow g).
Proof.
  intros V Hf Hg.
  pose proof (mag_pos mx ex) as Pv. pose proof (bpow_pos g) as Pg.
  assert (Hn : 0 < n).
  { apply lt_IZR. rewrite V in Pv.
    destruct (Rlt_le_dec 0 (IZR n)) as [|N]; [assumption|]. nra. }
  destruct (binary_round_unfold sx mx ex) as (mz & ez & -> & Ez & Dz & Vz).
  (* the position of the leading digit is that of the value *)
  assert (DD : Zdigits2 (Zpos mx) + ex = Zdigits2 n + g).
  { pose proof (digits_bpow (Zpos mx) ltac:(lia)) as [L1 U1].
    pose proof (digits_bpow n Hn) as [L2 U2].
    pose proof (bpow_pos ex) as Pe.
    assert (A1 : (bpow (Zdigits2 (Zpos mx) - 1 + ex) < bpow (Zdigits2 n + g))%R).
    { rewrite !bpow_add.
      apply Rle_lt_trans with (IZR (Zpos mx) * bpow ex)%R;
        [apply Rmult_le_compat_r; lra|].
      rewrite V. apply Rmult_lt_compat_r; lra. }
    assert (A2 : (bpow (Zdigits2 n - 1 + g) < bpow (Zdigits2 (Zpos mx) + ex))%R).
    { rewrite !bpow_add.
      apply Rle_lt_trans with (IZR n * bpow g)%R;
        [apply Rmult_le_compat_r; lra|].
      rewrite <- V. apply Rmult_lt_compat_r; lra. }
    apply bpow_lt_inv in A1, A2. lia. }
  rewrite DD in Ez.
  assert (Le : ez <= g) by lia.
  assert (Mz : Zpos mz = n * 2 ^ (g - ez)).
  { apply eq_IZR. rewrite mult_IZR, <- (bpow_IZR (g - ez)) by lia.
    pose proof (bpow_pos ez) as Pz.
    apply Rmult_eq_reg_r with (bpow ez); [|lra].
    rewrite Vz, V, Rmult_assoc, <- bpow_add. do 2 f_equal. lia. }
  rewrite Mz.
  destruct (binary_round_aux_repr sx n g (g - ez)) as [F W]; try lia.
  replace (g - (g - ez)) with ez in F, W by lia. now split.
Qed.

Lemma binary_normalize_repr (m e n g : Z) (sz : bool) :
  (IZR m * bpow e = IZR n * bpow g)%R ->
  fexp prec emax (Zdigits2 n + g) <= g -> g <= emax - prec ->
  is_fin (binary_normalize prec emax m e sz) = true
  /\ B2R (binary_normalize prec emax m e sz) = (IZR n * bpow g)%R.
Proof.
  intros V Hf Hg. destruct m as [|p|p]; cbn [binary_normalize].
  - split; [reflexivity|]. cbn [B2R]. rewrite <- V. ring.
  - destruct (binary_round_repr false p e n g V Hf Hg) as [F W].
    split; [assumption | exact W].
  - destruct (binary_round_repr true p e (- n) g) as [F W]; try assumption.
    + rewrite opp_IZR. change (Zneg p) with (- Zpos p) in V. rewrite opp_IZR in V. lra.
    + now rewrite <- Zdigits2_abs, Z.abs_opp, Zdigits2_abs.
    + split; [assumption|]. rewrite W. cbn [cond_Ropp]. rewrite opp_IZR. ring.
Qed.

(** ** Exact subtraction *)

Lemma SFsub_repr (x y : spec_float) (n g : Z) :
  is_fin x = true -> is_fin y = true ->
  (B2R x - B2R y = IZR n * bpow g)%R ->
  fexp prec emax (Zdigits2 n + g) <= g -> g <= emax - prec ->
  is_fin (SFsub prec emax x y) = true
  /\ B2R (SFsub prec emax x y) = (B2R x - B2R y)%R.
Proof.
  intros Fx Fy V Hf Hg.
  destruct x as [sx| | |sx mx ex], y as [sy| | |sy my ey];
    try discriminate Fx; try discriminate Fy.
  - split; [now destruct sx, sy|].
    replace (B2R (SFsub prec emax (S754_zero sx) (S754_zero sy))) with 0%R
      by (now destruct sx, sy).
    cbn [B2R]. ring.
  - cbn [SFsub]. split; [reflexivity|]. rewrite !B2R_finite. cbn [B2R].
    destruct sy; cbn; ring.
  - cbn [SFsub]. split; [reflexivity|]. cbn [B2R]. ring.
  - cbn [SFsub]. rewrite V. apply binary_normalize_repr; try assumption.
    rewrite <- V, minus_IZR. unfold Rminus at 1.
    rewrite Rmult_plus_distr_r, Ropp_mult_distr_l_reverse, !align_value by lia.
    now rewrite !B2R_finite.
Qed.

(** ** Multiplication *)

Lemma Zdigits2_mul (a b : Z) :
  0 < a -> 0 < b -> Zdigits2 a + Zdigits2 b - 1 <= Zdigits2 (a * b).
Proof.
  intros Ha Hb.
  pose proof (Zdigits2_bounds a Ha) as [La _].
  pose proof (Zdigits2_bounds b Hb) as [Lb _].
  pose proof (Zdigits2_bounds (a * b) ltac:(nia)) as [_ U].
  assert (Da : 0 < Zdigits2 a) by (destruct a; cbn; lia).
  assert (Db : 0 < Zdigits2 b) by (destruct b; cbn; lia).
  assert (P : 2 ^ (Zdigits2 a - 1 + (Zdigits2 b - 1)) < 2 ^ Zdigits2 (a * b)).
  { rewrite Z.pow_add_r by lia.
    assert (0 < 2 ^ (Zdigits2 a - 1)) by (apply Z.pow_pos_nonneg; lia).
    assert (0 < 2 ^ (Zdigits2 b - 1)) by (apply Z.pow_pos_nonneg; lia). nia. }
  apply Z.pow_lt_mono_r_iff in P; [lia | lia | apply Zdigits2_nonneg].
Qed.

(** The exponent of a product of canonical mantissas is below the exponent
    of the rounded product. *)
Lemma product_exp (mx my : positive) (ex ey : Z) :
  SpecFloat.bounded prec emax mx ex = true ->
  SpecFloat.bounded prec emax my ey = true ->
  ex + ey <= fexp prec emax (Zdigits2 (Zpos (mx * my)) + (ex + ey)).
Proof.
  intros Bx By.
  destruct (bounded_inv mx ex Bx) as [Cx _]. destruct (bounded_inv my ey By) as [Cy _].
  pose proof (Zdigits2_mul (Zpos mx) (Zpos my) ltac:(lia) ltac:(lia)) as D.
  change (Zpos mx * Zpos my) with (Zpos (mx * my)) in D.
  assert (0 < Zdigits2 (Zpos mx)) by (cbn; lia).
  assert (0 < Zdigits2 (Zpos my)) by (cbn; lia).
  rewrite fexp_eq in *. lia.
Qed.

Lemma cond_Ropp_mult (s1 s2 : bool) (a b : R) :
  (cond_Ropp s1 a * cond_Ropp s2 b)%R = cond_Ropp (xorb s1 s2) (a * b)%R.
Proof. destruct s1, s2; cbn; ring. Qed.

Lemma SFmul_R (x y : spec_float) (P : Z) :
  valid_binary x = true -> valid_binary y = true ->
  is_fin x = true -> is_fin y = true ->
  (Rabs (B2R x) * Rabs (B2R y) < bpow P)%R ->
  fexp prec emax P + 1 <= emax - prec ->
  is_fin (SFmul prec emax x y) = true
  /\ (Rabs (B2R (SFmul prec emax x y) - B2R x * B2R y)
      <= 4 * bpow (fexp prec emax P))%R.
Proof.
  intros Vx Vy Fx Fy B HE. pose proof (bpow_pos (fexp prec emax P)) as PE.
  assert (Z0 : forall r, (r - r = 0)%R) by (intros; ring).
  destruct x as [sx| | |sx mx ex], y as [sy| | |sy my ey];
    try discriminate Fx; try discriminate Fy; cbn [SFmul].
  - split; [reflexivity|]. cbn [B2R]. rewrite Rmult_0_l, Z0, Rabs_R0. lra.
  - split; [reflexivity|]. cbn [B2R]. rewrite Rmult_0_l, Z0, Rabs_R0. lra.
  - split; [reflexivity|]. cbn [B2R]. rewrite Rmult_0_r, Z0, Rabs_R0. lra.
  - cbn [valid_binary] in Vx, Vy.
    rewrite !B2R_finite in *. rewrite !Rabs_cond_Ropp in B.
    pose proof (mag_pos mx ex) as Px. pose proof (mag_pos my ey) as Py.
    rewrite !Rabs_pos_eq in B by lra.
    assert (V : (IZR (Zpos (mx * my)) * bpow (ex + ey)
                 = IZR (Zpos mx) * bpow ex * (IZR (Zpos my) * bpow ey))%R).
    { rewrite Pos2Z.inj_mul, mult_IZR, bpow_add. ring. }
    pose proof (product_exp mx my ex ey Vx Vy) as PX.
    assert (DP : Zdigits2 (Zpos (mx * my)) + (ex + ey) <= P).
    { apply digits_below; [lia|]. rewrite V. assumption. }
    pose proof (fexp_mono _ _ DP) as FM.
    destruct (binary_round_aux_R (xorb sx sy) (Zpos (mx * my)) (ex + ey) loc_Exact
                (fexp prec emax P)) as (F & r & W & R0 & Br); try lia.
    split; [assumption|]. rewrite W, cond_Ropp_mult, <- V.
    destruct (xorb sx sy); cbn [cond_Ropp]; apply Rabs_le; lra.
Qed.

(** A canonical float whose value is an integer below [2^53]. *)
Lemma integer_mantissa (s : bool) (m : positive) (e a : Z) :
  SpecFloat.bounded prec emax m e = true ->
  B2R (S754_finite s m e) = IZR a -> Z.abs a < 2 ^ 53 ->
  e <= 0 /\ Zpos m = Z.abs a * 2 ^ (- e) /\ a = cond_Zopp s (Z.abs a).
Proof.
  intros Bm V Ha. rewrite B2R_finite in V.
  pose proof (mag_pos m e) as Pm.
  assert (Va : (IZR (Zpos m) * bpow e = IZR (Z.abs a))%R).
  { rewrite abs_IZR, <- V, Rabs_cond_Ropp, Rabs_pos_eq; lra. }
  destruct (bounded_inv m e Bm) as [C _].
  assert (D : Zdigits2 (Zpos m) + e <= 53).
  { apply digits_below; [lia|]. rewrite Va, (bpow_IZR 53) by lia. now apply IZR_lt. }
  assert (E0 : e <= 0) by (rewrite fexp_eq in C; lia).
  split; [assumption|]. split.
  - apply eq_IZR. rewrite mult_IZR, <- (bpow_IZR (- e)), <- Va by lia.
    rewrite Rmult_assoc, <- bpow_add. replace (e + - e) with 0 by lia.
    change (bpow 0) with 1%R. ring.
  - apply eq_IZR. rewrite cond_Zopp_IZR, <- Va, <- V. reflexivity.
Qed.

Lemma SFmul_int (x y : spec_float) (a b : Z) :
  valid_binary x = true -> valid_binary y = true ->
  is_fin x = true -> is_fin y = true ->
  B2R x = IZR a -> B2R y = IZR b ->
  Z.abs a < 2 ^ 53 -> Z.abs b < 2 ^ 53 -> Z.abs (a * b) < 2 ^ 53 ->
  is_fin (SFmul prec emax x y) = true
  /\ B2R (SFmul prec emax x y) = IZR (a * b).
Proof.
  intros Vx Vy Fx Fy Ex Ey Ha Hb Hab.
  destruct x as [sx| | |sx mx ex], y as [sy| | |sy my ey];
    try discriminate Fx; try discriminate Fy; cbn [SFmul].
  - split; [reflexivity|]. cbn [B2R] in *. apply eq_IZR in Ex. subst a. reflexivity.
  - split; [reflexivity|]. cbn [B2R] in Ex |- *. apply eq_IZR in Ex. subst a. reflexivity.
  - split; [reflexivity|]. cbn [B2R] in Ey |- *. apply eq_IZR in Ey. subst b.
    now rewrite Z.mul_0_r.
  - cbn [valid_binary] in Vx, Vy.
    destruct (integer_mantissa sx mx ex a Vx Ex Ha) as (Ex0 & Mx & Sa).
    destruct (integer_mantissa sy my ey b Vy Ey Hb) as (Ey0 & My & Sb).
    assert (Pa : 0 < Z.abs a) by (destruct (Z.abs a) eqn:?; lia).
    assert (Pb : 0 < Z.abs b) by (destruct (Z.abs b) eqn:?; lia).
    assert (M : Zpos (mx * my) = Z.abs (a * b) * 2 ^ (- (ex + ey))).
    { rewrite Pos2Z.inj_mul, Mx, My, Z.abs_mul.
      replace (- (ex + ey)) with (- ex + - ey) by lia.
      rewrite Z.pow_add_r by lia. ring. }
    rewrite M.
    assert (Pab : 0 < Z.abs (a * b)) by (rewrite Z.abs_mul; now apply Z.mul_pos_pos).
    assert (Fab : fexp prec emax (Zdigits2 (Z.abs (a * b)) + 0) <= 0).
    { rewrite Z.add_0_r, fexp_eq.
      pose proof (Zdigits2_le (Z.abs (a * b)) 53 ltac:(lia) ltac:(lia)). lia. }
    assert (E0 : 0 <= emax - prec) by (cbn; lia).
    destruct (binary_round_aux_repr (xorb sx sy) (Z.abs (a * b)) 0 (- (ex + ey))
                Pab ltac:(lia) Fab E0) as [F W].
    replace (0 - - (ex + ey)) with (ex + ey) in F, W by lia.
      split; [assumption|]. rewrite W. change (bpow 0) with 1%R. rewrite Rmult_1_r.
      rewrite <- cond_Zopp_IZR. f_equal.
      rewrite Sa, Sb at 2. rewrite Z.abs_mul.
      destruct sx, sy; cbn [cond_Zopp xorb]; ring.
Qed.

(** ** Equality test *)

Lemma SFeqb_R (x y : spec_float) :
  valid_binary x = true -> valid_binary y = true ->
  is_fin x = true -> is_fin y = true ->
  B2R x <> B2R y -> SFeqb x y = false.
Proof.
  intros Vx Vy Fx Fy H. unfold SFeqb.
  destruct (SFcompare_R x y Vx Vy Fx Fy) as (L & _ & G).
  destruct (Rtotal_order (B2R x) (B2R y)) as [C | [C | C]]; [|contradiction|].
  - now rewrite (L C).
  - now rewrite (G C).
Qed.

(** A finite float that is not zero has a mantissa. *)
Lemma nonzero_finite (x : spec_float) :
  is_fin x = true -> B2R x <> 0%R -> exists s m e, x = S754_finite s m e.
Proof.
  intros F N. destruct x as [s| | |s m e]; try discriminate F.
  - cbn in N. contradiction.
  - now exists s, m, e.
Qed.

(** ** Exact operations on primitive floats *)

Lemma mul_R (x y : float) (P : Z) :
  fin x = true -> fin y = true ->
  (Rabs (FR x) * Rabs (FR y) < bpow P)%R ->
  fexp prec emax P + 1 <= emax - prec ->
  fin (x * y) = true
  /\ (Rabs (FR (x * y) - FR x * FR y) <= 4 * bpow (fexp prec emax P))%R.
Proof.
  unfold fin, FR. rewrite mul_spec. apply SFmul_R; apply Prim2SF_valid.
Qed.

Lemma mul_int (x y : float) (a b : Z) :
  fin x = true -> fin y = true -> FR x = IZR a -> FR y = IZR b ->
  Z.abs a < 2 ^ 53 -> Z.abs b < 2 ^ 53 -> Z.abs (a * b) < 2 ^ 53 ->
  fin (x * y) = true /\ FR (x * y) = IZR (a * b).
Proof.
  unfold fin, FR. rewrite mul_spec. apply SFmul_int; apply Prim2SF_valid.
Qed.

Lemma sub_int (x y : float) (a b : Z) :
  fin x = true -> fin y = true -> FR x = IZR a -> FR y = IZR b ->
  Z.abs (a - b) < 2 ^ 53 ->
  fin (x - y) = true /\ FR (x - y) = IZR (a - b).
Proof.
  unfold fin, FR. rewrite sub_spec. intros Fx Fy Ex Ey H.
  destruct (SFsub_repr (Prim2SF x) (Prim2SF y) (a - b) 0 Fx Fy) as [F V].
  - rewrite Ex, Ey, minus_IZR. change (bpow 0) with 1%R. ring.
  - rewrite Z.add_0_r, fexp_eq, <- Zdigits2_abs.
    pose proof (Zdigits2_le (Z.abs (a - b)) 53 ltac:(lia) ltac:(lia)). lia.
  - cbn. lia.
  - split; [assumption|].
    transitivity (B2R (Prim2SF x) - B2R (Prim2SF y))%R; [exact V|].
    rewrite Ex, Ey, minus_IZR. reflexivity.
Qed.

Lemma eqb_R (x y : float) :
  fin x = true -> fin y = true -> FR x <> FR y -> (x =? y)%float = false.
Proof.
  intros Fx Fy H. rewrite eqb_spec. apply SFeqb_R; try assumption; apply Prim2SF_valid.
Qed.

Lemma nonzero_float (x : float) :
  fin x = true -> FR x <> 0%R -> exists s m e, Prim2SF x = S754_finite s m e.
Proof. apply nonzero_finite. Qed.

End Binary64.

(** * Properties of the decoder *)

Section DecoderFacts.

Local Ltac by_bits c :=
  destruct c as [[] [] [] [] [] [] [] []]; cbn in *; try discriminate; try reflexivity.

Lemma hex_not_space c : is_hex c = true -> PyInt.is_space c = false.
Proof. by_bits c. Qed.

Lemma hex_not_underscore c : is_hex c = true -> PyInt.is_underscore c = false.
Proof. by_bits c. Qed.

Lemma hex_no_sign c t :
  is_hex c = true -> PyInt.take_sign (String c t) = (false, String c t).
Proof. by_bits c. Qed.

Lemma hex_no_prefix c c' t :
  is_hex c' = true -> PyInt.take_prefix (String c (String c' t)) = String c (String c' t).
Proof.
  intros H. unfold PyInt.take_prefix.
  assert (E : ((PyInt.code c' =? 120) || (PyInt.code c' =? 88))%N = false) by (by_bits c').
  rewrite E. by_bits c.
Qed.

Lemma hex_digit16 c :
  is_hex c = true -> exists d, PyInt.digit16 c = Some d /\ 0 <= d < 16.
Proof.
  unfold is_hex. destruct (PyInt.digit16 c) as [d|] eqn:E; [|discriminate].
  intros _. exists d. split; [reflexivity|].
  revert E. by_bits c; intros E; injection E as <-; lia.
Qed.

Lemma scan_hex c t acc n us d :
  PyInt.digit16 c = Some d ->
  PyInt.scan (String c t) acc n us = PyInt.scan t (16 * acc + d) (S n) false.
Proof.
  intros E. assert (H : is_hex c = true) by (unfold is_hex; now rewrite E).
  cbn [PyInt.scan]. rewrite (hex_not_underscore _ H), E. reflexivity.
Qed.

Lemma length8_inv (s : string) :
  String.length s = 8%nat ->
  exists c0 c1 c2 c3 c4 c5 c6 c7,
    s = String c0 (String c1 (String c2 (String c3
          (String c4 (String c5 (String c6 (String c7 EmptyString))))))).
Proof.
  intros H.
  do 8 (destruct s as [|? s]; [discriminate H|]).
  destruct s; [|discriminate H]. repeat eexists.
Qed.

(** What [hex_to_int] returns on eight hex digits: the last byte group is
    the most significant. *)
Lemma hex_to_int_digits c0 c1 c2 c3 c4 c5 c6 c7 d0 d1 d2 d3 d4 d5 d6 d7 :
  PyInt.digit16 c0 = Some d0 -> PyInt.digit16 c1 = Some d1 ->
  PyInt.digit16 c2 = Some d2 -> PyInt.digit16 c3 = Some d3 ->
  PyInt.digit16 c4 = Some d4 -> PyInt.digit16 c5 = Some d5 ->
  PyInt.digit16 c6 = Some d6 -> PyInt.digit16 c7 = Some d7 ->
  hex_to_int (String c0 (String c1 (String c2 (String c3
               (String c4 (String c5 (String c6 (String c7 EmptyString))))))))
  = OK (((d6 * 16 + d7) * 256 + (d4 * 16 + d5)) * 65536
        + (d2 * 16 + d3) * 256 + (d0 * 16 + d1)).
Proof.
  intros E0 E1 E2 E3 E4 E5 E6 E7.
  assert (H6 : is_hex c6 = true) by (unfold is_hex; now rewrite E6).
  assert (H7 : is_hex c7 = true) by (unfold is_hex; now rewrite E7).
  unfold hex_to_int. cbn [slice_from slice String.length substring Nat.sub Nat.min append].
  unfold PyInt.int16. cbn [PyInt.skip_spaces].
  rewrite (hex_not_space _ H6), (hex_no_sign _ _ H6), (hex_no_prefix _ _ _ H7).
  cbn [PyInt.starts_with_underscore]. rewrite (hex_not_underscore _ H6).
  rewrite (scan_hex _ _ _ _ _ _ E6), (scan_hex _ _ _ _ _ _ E7),
    (scan_hex _ _ _ _ _ _ E4), (scan_hex _ _ _ _ _ _ E5),
    (scan_hex _ _ _ _ _ _ E2), (scan_hex _ _ _ _ _ _ E3),
    (scan_hex _ _ _ _ _ _ E0), (scan_hex _ _ _ _ _ _ E1).
  cbn [PyInt.scan PyInt.skip_spaces]. f_equal. ring.
Qed.

Lemma valid_chunk_decodes (s : string) :
  valid_chunk s = true ->
  exists v, hex_to_int s = OK v /\ 0 <= v <= 2 ^ 32 - 1.
Proof.
  unfold valid_chunk. intros H. apply andb_true_iff in H as [L A].
  apply Nat.eqb_eq in L.
  destruct (length8_inv s L) as (c0 & c1 & c2 & c3 & c4 & c5 & c6 & c7 & ->).
  cbn [all_hex] in A.
  repeat (apply andb_true_iff in A as [?H A]).
  destruct (hex_digit16 c0) as (d0 & E0 & B0); [assumption|].
  destruct (hex_digit16 c1) as (d1 & E1 & B1); [assumption|].
  destruct (hex_digit16 c2) as (d2 & E2 & B2); [assumption|].
  destruct (hex_digit16 c3) as (d3 & E3 & B3); [assumption|].
  destruct (hex_digit16 c4) as (d4 & E4 & B4); [assumption|].
  destruct (hex_digit16 c5) as (d5 & E5 & B5); [assumption|].
  destruct (hex_digit16 c6) as (d6 & E6 & B6); [assumption|].
  destruct (hex_digit16 c7) as (d7 & E7 & B7); [assumption|].
  eexists. split.
  - apply (hex_to_int_digits _ _ _ _ _ _ _ _ _ _ _ _ _ _ _ _ E0 E1 E2 E3 E4 E5 E6 E7).
  - change (2 ^ 32) with 4294967296. lia.
Qed.

Lemma digit16_hex_digit upper d :
  0 <= d < 16 -> PyInt.digit16 (Encode.hex_digit upper d) = Some d.
Proof.
  intros H.
  assert (C : d = 0 \/ d = 1 \/ d = 2 \/ d = 3 \/ d = 4 \/ d = 5 \/ d = 6 \/ d = 7
              \/ d = 8 \/ d = 9 \/ d = 10 \/ d = 11 \/ d = 12 \/ d = 13 \/ d = 14
              \/ d = 15) by lia.
  destruct upper;
    repeat (destruct C as [-> | C]; [reflexivity|]); subst d; reflexivity.
Qed.

Lemma encode_chunk_decodes upper v :
  0 <= v < 2 ^ 32 -> hex_to_int (Encode.encode_chunk upper v) = OK v.
Proof.
  intros H. change (2 ^ 32) with 4294967296 in H.
  unfold Encode.encode_chunk, Encode.be_bytes.
  cbn [rev app Encode.hex_encode Encode.hex_byte append].
  change (2 ^ 24) with 16777216. change (2 ^ 16) with 65536. change (2 ^ 8) with 256.
  set (b3 := v / 16777216 mod 256). set (b2 := v / 65536 mod 256).
  set (b1 := v / 256 mod 256). set (b0 := v mod 256).
  assert (R0 : 0 <= b0 < 256) by (apply Z.mod_pos_bound; lia).
  assert (R1 : 0 <= b1 < 256) by (apply Z.mod_pos_bound; lia).
  assert (R2 : 0 <= b2 < 256) by (apply Z.mod_pos_bound; lia).
  assert (R3 : 0 <= b3 < 256) by (apply Z.mod_pos_bound; lia).
  assert (D : forall b, 0 <= b < 256 -> 0 <= b / 16 < 16 /\ 0 <= b mod 16 < 16).
  { intros b Hb. split; [|apply Z.mod_pos_bound; lia].
    split; [apply Z.div_pos; lia | apply Z.div_lt_upper_bound; lia]. }
  rewrite (hex_to_int_digits _ _ _ _ _ _ _ _
             (b0 / 16) (b0 mod 16) (b1 / 16) (b1 mod 16)
             (b2 / 16) (b2 mod 16) (b3 / 16) (b3 mod 16));
    try (apply digit16_hex_digit; apply D; assumption).
  f_equal.
  assert (J : forall b, b / 16 * 16 + b mod 16 = b).
  { intros b. pose proof (Z.div_mod b 16). lia. }
  rewrite !J. subst b0 b1 b2 b3.
  pose proof (Z.div_mod v 256). pose proof (Z.div_mod (v / 256) 256).
  pose proof (Z.div_mod (v / 256 / 256) 256).
  replace (v / 65536) with (v / 256 / 256) by (rewrite Z.div_div by lia; reflexivity).
  replace (v / 16777216) with (v / 256 / 256 / 256)
    by (rewrite !Z.div_div by lia; reflexivity).
  assert (v / 256 / 256 / 256 < 256).
  { rewrite !Z.div_div by lia. apply Z.div_lt_upper_bound; lia. }
  assert (0 <= v / 256 / 256 / 256) by (rewrite !Z.div_div by lia; apply Z.div_pos; lia).
  rewrite (Z.mod_small (v / 256 / 256 / 256) 256) by lia. lia.
Qed.

End DecoderFacts.

(** C4. Byte-order contract: a 32-bit value written as four big-endian
    bytes, byte-reversed and hex-encoded (in either letter case) decodes
    back to itself; the two known vectors decode to 1 and 4294967295; every
    chunk of 8 hex characters decodes to a value of [0, 2^32 - 1]. *)
Theorem hex_to_int_byte_order_contract :
  (forall upper v, 0 <= v <= 2 ^ 32 - 1 ->
     hex_to_int (Encode.encode_chunk upper v) = OK v)
  /\ hex_to_int "01000000" = OK 1
  /\ hex_to_int "FFFFFFFF" = OK 4294967295
  /\ (forall s, valid_chunk s = true ->
        exists v, hex_to_int s = OK v /\ 0 <= v <= 2 ^ 32 - 1).
Proof.
  split; [|split; [|split]].
  - intros upper v H. apply encode_chunk_decodes. lia.
  - reflexivity.
  - reflexivity.
  - exact valid_chunk_decodes.
Qed.

Lemma hex_to_int_byte_order_contract_witness :
  hex_to_int (Encode.encode_chunk false 305419896) = OK 305419896
  /\ exists v, hex_to_int "78563412" = OK v /\ 0 <= v <= 2 ^ 32 - 1.
Proof.
  split.
  - apply (proj1 hex_to_int_byte_order_contract). vm_compute. split; discriminate.
  - apply (proj2 (proj2 (proj2 hex_to_int_byte_order_contract))). reflexivity.
Defined.


(** * The strings that the decoder accepts *)

Section Literals.

Import Literal.

Local Ltac by_bits c :=
  destruct c as [[] [] [] [] [] [] [] []]; cbn in *; try discriminate; try reflexivity.





























End Literals.

(** * Properties of the window smoother *)

(** C1. The code does not raise for an unknown measurement kind: the
    exception object is built and dropped, and [0.0] is returned. *)
Theorem calc_window_unknown_kind_returns_zero
    (current_time : float) (df : list Row) (kind : string) :
  kind <> "power"%string -> kind <> "rpm"%string ->
  calc_window current_time df kind = OK 0%float
  /\ forall e, calc_window current_time df kind <> Err e.
Proof.
  intros Hp Hr. unfold calc_window.
  apply String.eqb_neq in Hp. apply String.eqb_neq in Hr.
  rewrite Hp, Hr. split; [reflexivity | discriminate].
Qed.

Lemma calc_window_unknown_kind_returns_zero_witness :
  calc_window 0%float (map row series_even) "speed" = OK 0%float
  /\ forall e, calc_window 0%float (map row series_even) "speed" <> Err e.
Proof.
  apply calc_window_unknown_kind_returns_zero; discriminate.
Defined.

(** C7. With an empty selection the smoother does not raise: it returns the
    rounded quotient of the empty sum by a zero count, which is NaN. *)
Theorem calc_window_empty_selection_is_nan
    (current_time : float) (df : list Row) (kind : string) :
  kind = "power"%string \/ kind = "rpm"%string ->
  sample_df current_time df = [] ->
  calc_window current_time df kind = OK (Np.round2 (0 / Np.of_int 0)%float)
  /\ is_nan (Np.round2 (0 / Np.of_int 0)%float) = true
  /\ is_finite (Np.round2 (0 / Np.of_int 0)%float) = false.
Proof.
  intros K E. unfold calc_window. rewrite E.
  split; [|split; reflexivity].
  destruct K as [-> | ->]; reflexivity.
Qed.

Lemma calc_window_empty_selection_is_nan_witness :
  calc_window 7%float (map row series_even) "power"
  = OK (Np.round2 (0 / Np.of_int 0)%float)
  /\ is_nan (Np.round2 (0 / Np.of_int 0)%float) = true
  /\ is_finite (Np.round2 (0 / Np.of_int 0)%float) = false.
Proof.
  apply calc_window_empty_selection_is_nan; [left; reflexivity|].
  vm_compute. reflexivity.
Defined.

(** * Failure of the batch *)

Section Failure.

Context {A B : Type} (f : A -> result B).

Lemma mapM_Exists_Err (l : list A) :
  Exists (fun x => exists e, f x = Err e) l -> exists e, mapM f l = Err e.
Proof.
  induction 1 as [x l [e E] | x l _ [e IH]]; cbn [mapM].
  - exists e. now rewrite E.
  - destruct (f x) as [y|e']; cbn [bind]; [|now exists e'].
    exists e. now rewrite IH.
Qed.

Lemma mapM_first_Err (pre post : list A) (x : A) (e : exn) :
  Forall (fun p => exists y, f p = OK y) pre ->
  f x = Err e ->
  mapM f (pre ++ x :: post) = Err e.
Proof.
  intros Hpre Hx. induction Hpre as [|p pre [y Ep] _ IH]; cbn [mapM app].
  - now rewrite Hx.
  - now rewrite Ep, IH.
Qed.

Lemma mapM_OK_Forall2 (l : list A) (ys : list B) :
  mapM f l = OK ys -> Forall2 (fun x y => f x = OK y) l ys.
Proof.
  revert ys. induction l as [|x l IH]; cbn [mapM]; intros ys E.
  - injection E as <-. constructor.
  - destruct (f x) as [y|] eqn:Ex; cbn [bind] in E; [|discriminate].
    destruct (mapM f l) as [ys'|]; cbn [bind] in E; [|discriminate].
    injection E as <-. constructor; [assumption | now apply IH].
Qed.

Lemma mapM_total (g : A -> B) (l : list A) :
  (forall x, f x = OK (g x)) -> mapM f l = OK (map g l).
Proof.
  intros H. induction l as [|x l IH]; cbn [mapM map]; [reflexivity|].
  now rewrite H, IH.
Qed.

End Failure.

(** A float that compares equal to zero is [+0.0] or [-0.0]. *)
Lemma float_eqb_zero (x : float) :
  (x =? 0)%float = true -> x = 0%float \/ x = (- 0)%float.
Proof.
  rewrite eqb_spec. change (Prim2SF 0) with (S754_zero false). intros H.
  rewrite <- (SF2Prim_Prim2SF x).
  destruct (Prim2SF x) as [[|]|s| |[|] m e]; try discriminate H.
  - now right.
  - now left.
  - destruct s; discriminate H.
Qed.

Lemma magnets_zero (sm : float) :
  (sm =? 0)%float = true -> magnets sm = Err ZeroDivisionError.
Proof.
  intros H. destruct (float_eqb_zero sm H) as [-> | ->]; reflexivity.
Qed.

Lemma process_attempt_zero_magnets (r : Input.t) :
  zero_magnets r = true ->
  (exists e, process_attempt r = Err e)
  /\ ((exists secs, decode_log (Input.FlyWheelLog r) = OK secs) ->
      process_attempt r = Err ConfigError).
Proof.
  intros Z. unfold process_attempt. rewrite (magnets_zero _ Z).
  destruct (decode_log (Input.FlyWheelLog r)) as [secs|e]; cbn [bind].
  - split; [now exists ZeroDivisionError | reflexivity].
  - split; [now exists e | intros [secs E]; discriminate E].
Qed.

Lemma transform_Exists_Err (df : list Input.t) :
  Exists (fun r => exists e, process_attempt r = Err e) df ->
  exists e, transform df = Err e.
Proof.
  intros H. destruct (mapM_Exists_Err process_attempt df H) as [e E].
  exists e. unfold transform. now rewrite E.
Qed.

Lemma transform_first_Err (pre post : list Input.t) (r : Input.t) (e : exn) :
  Forall (fun p => exists s, process_attempt p = OK s) pre ->
  process_attempt r = Err e ->
  transform (pre ++ r :: post) = Err e.
Proof.
  intros Hpre Hr. unfold transform.
  now rewrite (mapM_first_Err process_attempt pre post r e Hpre Hr).
Qed.

(** C5 as stated fails: the attempts are processed in order and, within an
    attempt, the chunks are decoded before the sampling-magnets value is
    used.  With an undecodable chunk in an earlier attempt the batch fails
    with the decode error, not the configuration error. *)
Lemma transform_zero_magnets_decode_error_first :
  ~ (forall df : list Input.t,
       Exists (fun r => zero_magnets r = true) df ->
       transform df = Err ConfigError).
Proof.
  intros H.
  specialize (H [attempt_of "ZZZZZZZZ" sampling_14; attempt_of log_even 0%float]).
  assert (E : transform [attempt_of "ZZZZZZZZ" sampling_14; attempt_of log_even 0%float]
              = Err DecodeError) by reflexivity.
  rewrite E in H. discriminate H. right. left. reflexivity.
Qed.

(** C5, amended. If any attempt has a zero sampling-magnets value the batch
    fails and returns no rows; the failure is the configuration error when
    the attempts before the first such one succeed and its own log decodes. *)
Theorem transform_zero_magnets_fails (df : list Input.t) :
  Exists (fun r => zero_magnets r = true) df ->
  (exists e, transform df = Err e)
  /\ (forall pre r post,
        df = pre ++ r :: post ->
        Forall (fun p => exists s, process_attempt p = OK s) pre ->
        zero_magnets r = true ->
        (exists secs, decode_log (Input.FlyWheelLog r) = OK secs) ->
        transform df = Err ConfigError).
Proof.
  intros H. split.
  - apply transform_Exists_Err.
    apply Exists_exists in H as (r & Hin & Z). apply Exists_exists.
    exists r. split; [assumption|].
    apply (process_attempt_zero_magnets r Z).
  - intros pre r post -> Hpre Z D.
    apply transform_first_Err; [assumption|].
    now apply (process_attempt_zero_magnets r Z).
Qed.

(** C9 as stated fails: the Magnets line runs before the first tick is read,
    so an attempt with a log of 4 characters and a zero sampling-magnets
    value fails with the division error, not with the index error. *)
Lemma transform_empty_log_division_error :
  ~ (forall df : list Input.t,
       Exists (fun r => (String.length (Input.FlyWheelLog r) < 8)%nat) df ->
       transform df = Err IndexError).
Proof.
  intros H.
  specialize (H [attempt_of "0500" 0%float]).
  assert (E : transform [attempt_of "0500" 0%float] = Err ZeroDivisionError)
    by (vm_compute; reflexivity).
  rewrite E in H.
  assert (F : Err (A := list Sample) ZeroDivisionError = Err IndexError).
  { apply H. left. vm_compute. lia. }
  discriminate F.
Qed.

(** C9, amended. A table with an attempt whose log is shorter than 8
    characters (no tick decoded) makes the batch fail and return no rows;
    when the attempts before it succeed and its Magnets value is computed,
    the failure is the index error of reading the first tick of an empty
    series. *)
Theorem transform_empty_log_fails (df : list Input.t) :
  Exists (fun r => (String.length (Input.FlyWheelLog r) < 8)%nat) df ->
  (exists e, transform df = Err e)
  /\ (forall pre r post,
        df = pre ++ r :: post ->
        Forall (fun p => exists s, process_attempt p = OK s) pre ->
        (String.length (Input.FlyWheelLog r) < 8)%nat ->
        (exists M, magnets (Input.SamplingMagnets r) = OK M) ->
        transform df = Err IndexError).
Proof.
  assert (P : forall r, (String.length (Input.FlyWheelLog r) < 8)%nat ->
            (exists e, process_attempt r = Err e)
            /\ ((exists M, magnets (Input.SamplingMagnets r) = OK M) ->
                process_attempt r = Err IndexError)).
  { intros r L. unfold process_attempt, decode_log, chunks.
    rewrite (Nat.div_small _ 8 L). cbn [seq map mapM bind].
    destruct (magnets (Input.SamplingMagnets r)) as [M|e]; cbn [bind].
    - split; [now exists IndexError | reflexivity].
    - split; [now exists e | intros [M E]; discriminate E]. }
  intros H. split.
  - apply transform_Exists_Err.
    apply Exists_exists in H as (r & Hin & L). apply Exists_exists.
    exists r. split; [assumption | apply (P r L)].
  - intros pre r post -> Hpre L HM.
    apply transform_first_Err; [assumption | now apply (P r L)].
Qed.

Lemma transform_zero_magnets_fails_witness :
  (exists e, transform [attempt_of log_even sampling_14; attempt_of log_even 0%float] = Err e)
  /\ transform [attempt_of log_even sampling_14; attempt_of log_even 0%float]
     = Err ConfigError.
Proof.
  pose proof (transform_zero_magnets_fails
                [attempt_of log_even sampling_14; attempt_of log_even 0%float]) as H.
  destruct H as [H1 H2].
  - right. left. reflexivity.
  - split; [exact H1|].
    apply (H2 [attempt_of log_even sampling_14] (attempt_of log_even 0%float) []).
    + reflexivity.
    + constructor; [|constructor]. eexists. vm_compute. reflexivity.
    + reflexivity.
    + eexists. vm_compute. reflexivity.
Defined.

Lemma transform_empty_log_fails_witness :
  (exists e, transform [attempt_of log_even sampling_14; attempt_of "0500" sampling_14] = Err e)
  /\ transform [attempt_of log_even sampling_14; attempt_of "0500" sampling_14]
     = Err IndexError.
Proof.
  pose proof (transform_empty_log_fails
                [attempt_of log_even sampling_14; attempt_of "0500" sampling_14]) as H.
  destruct H as [H1 H2].
  - right. left. vm_compute. lia.
  - split; [exact H1|].
    apply (H2 [attempt_of log_even sampling_14] (attempt_of "0500" sampling_14) []).
    + reflexivity.
    + constructor; [|constructor]. eexists. vm_compute. reflexivity.
    + vm_compute. lia.
    + eexists. vm_compute. reflexivity.
Defined.

(** * The attempt series *)

Lemma combine_map_finish {A B C D : Type} (f : A -> B) (g : A -> C)
    (h : A -> B -> C -> D) (l : list A) :
  map (fun t => h (fst (fst t)) (snd (fst t)) (snd t))
      (combine (combine l (map f l)) (map g l))
  = map (fun a => h a (f a) (g a)) l.
Proof.
  induction l as [|a l IH]; cbn [map combine fst snd]; [reflexivity|].
  now rewrite IH.
Qed.

Lemma smooth_eq (res_df : list Row) :
  smooth res_df = OK (map (finish res_df) res_df).
Proof.
  unfold smooth.
  rewrite (mapM_total _ (fun r => window_power res_df (time_test r)))
    by reflexivity.
  rewrite (mapM_total _ (fun r => window_rpm res_df (time_test r)))
    by reflexivity.
  cbn [bind]. f_equal.
  apply (combine_map_finish _ _ mkSample).
Qed.

Lemma map_row_finish (res_df l : list Row) :
  map row (map (finish res_df) l) = l.
Proof.
  rewrite map_map. cbn [finish row]. apply map_id.
Qed.

Lemma process_attempt_eq (input : Input.t) (secs : list Z) (M : Z) :
  decode_log (Input.FlyWheelLog input) = OK secs ->
  magnets (Input.SamplingMagnets input) = OK M ->
  Np.int64 M = true ->
  secs <> [] ->
  process_attempt input
  = OK (map (finish (res_df_of input secs M)) (res_df_of input secs M)).
Proof.
  intros D HM I N. unfold process_attempt. rewrite D, HM. cbn [bind].
  destruct secs; [contradiction|]. rewrite I. apply smooth_eq.
Qed.

Lemma process_attempt_inv (input : Input.t) (series : list Sample) :
  process_attempt input = OK series ->
  exists secs M,
    decode_log (Input.FlyWheelLog input) = OK secs
    /\ magnets (Input.SamplingMagnets input) = OK M
    /\ secs <> []
    /\ series = map (finish (res_df_of input secs M)) (res_df_of input secs M).
Proof.
  intros E. unfold process_attempt in E.
  destruct (decode_log (Input.FlyWheelLog input)) as [secs|] eqn:D;
    cbn [bind] in E; [|discriminate].
  destruct (magnets (Input.SamplingMagnets input)) as [M|] eqn:HM;
    cbn [bind] in E; [|discriminate].
  destruct secs as [|t secs]; [discriminate|].
  destruct (Np.int64 M); [|discriminate].
  exists (t :: secs), M. repeat split; try reflexivity; [discriminate|].
  rewrite smooth_eq in E. now injection E as <-.
Qed.

(** A processed attempt has a Magnets value that fits an int64 cell. *)
Lemma process_attempt_int64 (input : Input.t) (series : list Sample) (M : Z) :
  process_attempt input = OK series ->
  magnets (Input.SamplingMagnets input) = OK M ->
  Np.int64 M = true.
Proof.
  intros E HM. unfold process_attempt in E. rewrite HM in E.
  destruct (decode_log (Input.FlyWheelLog input)) as [[|t secs]|];
    cbn [bind] in E; try discriminate.
  now destruct (Np.int64 M).
Qed.

Lemma transform_inv (df : list Input.t) (out : list Sample) :
  transform df = OK out ->
  exists dfs,
    Forall2 (fun input series => process_attempt input = OK series) df dfs
    /\ out = List.concat dfs.
Proof.
  unfold transform. intros E.
  destruct (mapM process_attempt df) as [dfs|] eqn:Em; cbn [bind] in E;
    [|discriminate].
  exists dfs. split; [now apply mapM_OK_Forall2|].
  destruct dfs; [discriminate|]. now injection E as <-.
Qed.

(** Every output row comes from the series of one attempt of the table. *)
Lemma transform_sample_origin (df : list Input.t) (out : list Sample) (s : Sample) :
  transform df = OK out -> In s out ->
  exists input series,
    In input df /\ process_attempt input = OK series /\ In s series.
Proof.
  intros E Hs. destruct (transform_inv df out E) as (dfs & F & ->).
  apply in_concat in Hs as (series & Hser & Hs). clear E.
  induction F as [|input ser df dfs Hp F IH].
  - destruct Hser.
  - destruct Hser as [<- | Hser].
    + exists input, ser. repeat split; [now left | assumption | assumption].
    + destruct (IH Hser) as (i & se & Hi & Hpi & Hsi).
      exists i, se. repeat split; [now right | assumption | assumption].
Qed.

Lemma nansum_no_nan (l : list float) :
  Forall (fun v => is_nan v = false) l -> Np.nansum l = Np.add_reduce l.
Proof.
  intros H. unfold Np.nansum. f_equal.
  induction H as [|v l Hv _ IH]; cbn [map]; [reflexivity|].
  now rewrite Hv, IH.
Qed.

(** The length of a vector is enough fuel for its pairwise sum: with any
    fuel from the length on, the splitting ends in blocks of at most 128
    terms and the result is the same. *)
Lemma pairwise_sum_fuel (f1 : nat) :
  forall (f2 : nat) (a : list float),
    (List.length a <= f1)%nat -> (List.length a <= f2)%nat ->
    Np.pairwise_sum f1 a = Np.pairwise_sum f2 a.
Proof.
  induction f1 as [|f1 IH]; intros f2 a H1 H2.
  - destruct a; [|cbn in H1; lia]. now destruct f2.
  - destruct f2 as [|f2]; [destruct a; [reflexivity | cbn in H2; lia]|].
    cbn [Np.pairwise_sum].
    destruct (Nat.ltb_spec (List.length a) 8) as [|L8]; [reflexivity|].
    destruct (Nat.leb_spec (List.length a) 128) as [|L128]; [reflexivity|].
    set (n := List.length a) in *.
    pose proof (Nat.div_mod_eq n 2) as D2.
    pose proof (Nat.mod_upper_bound n 2 ltac:(lia)) as M2.
    pose proof (Nat.mod_upper_bound (n / 2) 8 ltac:(lia)) as M8.
    pose proof (Nat.Div0.mod_le (n / 2) 8) as M8'.
    set (n2 := (n / 2 - (n / 2) mod 8)%nat).
    assert (B : (0 < n2 < n)%nat) by (unfold n2; lia).
    f_equal; apply IH; rewrite ?length_firstn, ?length_skipn; fold n; lia.
Qed.

(** A vector of fewer than 8 terms is added from left to right. *)
Lemma add_reduce_short (a : list float) :
  (List.length a < 8)%nat ->
  Np.add_reduce a = (0 + fold_left add a 0)%float.
Proof.
  intros H. unfold Np.add_reduce. f_equal.
  generalize (List.length a) at 1. intros fuel.
  destruct fuel; cbn [Np.pairwise_sum];
    destruct (Nat.ltb_spec (List.length a) 8) as [|L]; try reflexivity; lia.
Qed.

(** From 8 terms on the order shows: on 1e16 followed by eight ones the
    eight accumulators give 1e16 + 8, where a sum from left to right stays
    at 1e16. *)
Lemma add_reduce_eight_accumulators :
  Np.add_reduce [1e16; 1; 1; 1; 1; 1; 1; 1; 1]%float = 10000000000000008%float
  /\ fold_left add [1e16; 1; 1; 1; 1; 1; 1; 1; 1]%float 0%float = 1e16%float.
Proof. split; vm_compute; reflexivity. Qed.

(** C2 as stated fails. With Magnets 0 (sampling-magnets 10000) and growing
    tick gaps every row has [power_brake = +inf] and [power_kinetic = -inf]:
    the summed terms are NaN, which the code's sum skips, so
    [power_centered] is 0.0 while the mean of the terms is NaN. *)
Lemma power_centered_skips_nan_terms :
  ~ (forall (df : list Input.t) (out : list Sample),
       transform df = OK out ->
       forall s, In s out ->
       exists input series,
         In input df /\ process_attempt input = OK series /\ In s series
         /\ power_centered s
            = Naive.power_centered (map row series) (time_test (row s))).
Proof.
  intros H.
  pose (a := attempt_of log_spread 10000%float).
  destruct (process_attempt a) as [ser|] eqn:E; [|vm_compute in E; discriminate E].
  assert (T : transform [a] = OK ser).
  { unfold transform. cbn [mapM]. rewrite E. cbn [bind concat_frames List.concat].
    now rewrite app_nil_r. }
  destruct ser as [|s ser']; [vm_compute in E; discriminate E|].
  destruct (H [a] _ T s (or_introl eq_refl)) as (input & series & Hin & Ep & _ & Heq).
  destruct Hin as [<- | []]. rewrite E in Ep. injection Ep as <-.
  vm_compute in E. injection E as <- <-.
  apply (f_equal is_nan) in Heq. vm_compute in Heq. discriminate Heq.
Qed.

(** C2, amended. For every output sample, [power_centered] is the sum of
    the non-NaN values of [power_brake + power_kinetic] over the samples of
    the same attempt's series strictly within 0.5 s of the sample's
    [time_test], divided by the number of those samples and rounded to 2
    decimals; it is the rounded mean whenever none of those values is NaN. *)
Theorem power_centered_window (df : list Input.t) (out : list Sample) (s : Sample) :
  transform df = OK out -> In s out ->
  exists input series,
    In input df /\ process_attempt input = OK series /\ In s series
    /\ let selected :=
         filter (Naive.strictly_within (time_test (row s))) (map row series) in
       let terms := map (fun r => power_brake r + power_kinetic r)%float selected in
       power_centered s
       = Np.round2 (Np.nansum terms / Np.of_int (Z.of_nat (List.length selected)))%float
       /\ (Forall (fun v => is_nan v = false) terms ->
           power_centered s
           = Naive.power_centered (map row series) (time_test (row s))).
Proof.
  intros E Hs.
  destruct (transform_sample_origin df out s E Hs) as (input & series & Hi & Hp & Hin).
  exists input, series. repeat split; try assumption.
  - destruct (process_attempt_inv input series Hp) as (secs & M & _ & _ & _ & ->).
    rewrite map_row_finish. apply in_map_iff in Hin as (r & <- & _). reflexivity.
  - intros NN.
    destruct (process_attempt_inv input series Hp) as (secs & M & _ & _ & _ & ->).
    rewrite map_row_finish in *. apply in_map_iff in Hin as (r & <- & _).
    cbn [finish row power_centered] in *.
    unfold window_power, Naive.power_centered, Naive.mean, shape0, sample_df.
    change in_window with Naive.strictly_within.
    rewrite (nansum_no_nan _ NN). now rewrite length_map.
Qed.

Lemma power_centered_window_witness :
  exists input series,
    In input [attempt_even] /\ process_attempt input = OK series
    /\ In sample_even_3 series
    /\ let selected :=
         filter (Naive.strictly_within (time_test (row sample_even_3)))
                (map row series) in
       let terms := map (fun r => power_brake r + power_kinetic r)%float selected in
       power_centered sample_even_3
       = Np.round2 (Np.nansum terms / Np.of_int (Z.of_nat (List.length selected)))%float
       /\ (Forall (fun v => is_nan v = false) terms ->
           power_centered sample_even_3
           = Naive.power_centered (map row series) (time_test (row sample_even_3))).
Proof.
  apply (power_centered_window [attempt_even] series_even sample_even_3).
  - vm_compute. reflexivity.
  - vm_compute. left. reflexivity.
Defined.

(** * NaN cells and the rows that [dropna] removes *)

Lemma Prim2SF_nan : Prim2SF nan = S754_nan.
Proof. reflexivity. Qed.

Lemma sub_nan_r (x : float) : (x - nan)%float = nan.
Proof.
  apply Prim2SF_inj. rewrite sub_spec, Prim2SF_nan.
  destruct (Prim2SF x) as [[|]|[|]| |[|] m e]; reflexivity.
Qed.

Lemma add_nan_r (x : float) : (x + nan)%float = nan.
Proof.
  apply Prim2SF_inj. rewrite add_spec, Prim2SF_nan.
  destruct (Prim2SF x) as [[|]|[|]| |[|] m e]; reflexivity.
Qed.

Lemma div_nan_l (y : float) : (nan / y)%float = nan.
Proof.
  apply Prim2SF_inj. rewrite div_spec, Prim2SF_nan. reflexivity.
Qed.

Section DroppedRows.

Variable input : Input.t.
Variable secs : list Z.
Variable bufs : list string.
Variable M : Z.

Lemma time_diff_0_nan : col_time_diff secs 0%nat = nan.
Proof. unfold col_time_diff, diff, shift. cbn [Nat.ltb Nat.leb]. apply sub_nan_r. Qed.

Lemma time_test_0_nan : col_time_test secs 0%nat = nan.
Proof.
  unfold col_time_test, shift. cbn [Nat.ltb Nat.leb].
  rewrite add_nan_r. apply div_nan_l.
Qed.

Lemma time_test_diff_1_nan : col_time_test_diff secs 1%nat = nan.
Proof.
  unfold col_time_test_diff, diff, shift. cbn [Nat.ltb Nat.leb Nat.sub].
  rewrite time_test_0_nan. apply sub_nan_r.
Qed.

Lemma has_nan_row_0 : has_nan (mk_row input secs bufs M 0%nat) = true.
Proof.
  unfold has_nan. cbn [mk_row time_diff]. rewrite time_diff_0_nan.
  change (is_nan nan) with true. now rewrite !orb_true_r.
Qed.

Lemma has_nan_row_1 : has_nan (mk_row input secs bufs M 1%nat) = true.
Proof.
  unfold has_nan. cbn [mk_row time_test_diff]. rewrite time_test_diff_1_nan.
  change (is_nan nan) with true. now rewrite !orb_true_r.
Qed.

(** The rows that survive [dropna], by their labels. *)
Definition kept (i : nat) : bool := negb (has_nan (mk_row input secs bufs M i)).

Lemma dropna_frame_labels (l : list nat) :
  dropna (map (mk_row input secs bufs M) l)
  = map (mk_row input secs bufs M) (filter kept l).
Proof.
  unfold dropna. induction l as [|i l IH]; cbn [map filter]; [reflexivity|].
  fold (kept i). destruct (kept i); cbn [map]; now rewrite IH.
Qed.

Lemma dropna_frame_from_2 :
  (2 <= List.length secs)%nat ->
  dropna (frame input secs bufs M)
  = map (mk_row input secs bufs M) (filter kept (seq 2 (List.length secs - 2))).
Proof.
  intros H. unfold frame. rewrite dropna_frame_labels. f_equal.
  destruct (List.length secs) as [|[|n]]; try lia.
  replace (S (S n) - 2)%nat with n by lia.
  assert (K0 : kept 0 = false) by (unfold kept; now rewrite has_nan_row_0).
  assert (K1 : kept 1 = false) by (unfold kept; now rewrite has_nan_row_1).
  cbn [seq filter]. now rewrite K0, K1.
Qed.

End DroppedRows.

Section FilterSeq.

Variable p : nat -> bool.

Lemma filter_length_le (l : list nat) :
  (List.length (filter p l) <= List.length l)%nat.
Proof.
  induction l as [|i l IH]; cbn [filter List.length]; [lia|].
  destruct (p i); cbn [List.length]; lia.
Qed.

Lemma filter_all_iff (l : list nat) :
  List.length (filter p l) = List.length l <-> (forall i, In i l -> p i = true).
Proof.
  induction l as [|i l IH]; cbn [filter List.length In].
  - split; [intros _ j [] | reflexivity].
  - pose proof (filter_length_le l) as L.
    destruct (p i) eqn:Pi; cbn [List.length].
    + split.
      * intros E j [<- | Hj]; [assumption|]. apply IH; [lia | assumption].
      * intros H. f_equal. apply IH. intros j Hj. apply H. now right.
    + split; [lia|]. intros H. specialize (H i (or_introl eq_refl)). congruence.
Qed.

Lemma filter_all (l : list nat) :
  (forall i, In i l -> p i = true) -> filter p l = l.
Proof.
  induction l as [|i l IH]; cbn [filter]; intros H; [reflexivity|].
  rewrite (H i (or_introl eq_refl)). f_equal. apply IH.
  intros j Hj. apply H. now right.
Qed.

(** After the first kept label is discarded, the labels left are above the
    start of the range. *)
Lemma tl_filter_seq_above (a n : nat) :
  Forall (fun i => (a + 1 <= i < a + n)%nat) (tl (filter p (seq a n))).
Proof.
  revert a. induction n as [|n IH]; intros a; cbn [seq filter tl]; [constructor|].
  destruct (p a); cbn [tl].
  - apply Forall_forall. intros i Hi. apply filter_In in Hi as [Hi _].
    apply in_seq in Hi. lia.
  - eapply Forall_impl; [|apply (IH (S a))]. cbn beta. intros i Hi. lia.
Qed.

End FilterSeq.

(** The labels of the rows of [res_df]: those kept by [dropna], less the
    first. *)
Lemma res_df_of_labels (input : Input.t) (secs : list Z) (M : Z) :
  (2 <= List.length secs)%nat ->
  res_df_of input secs M
  = map (mk_row input secs (chunks (Input.FlyWheelLog input)) M)
        (tl (filter (kept input secs (chunks (Input.FlyWheelLog input)) M)
                    (seq 2 (List.length secs - 2)))).
Proof.
  intros H. unfold res_df_of, iloc_from_1. rewrite dropna_frame_from_2 by assumption.
  now destruct (filter _ _).
Qed.

Lemma series_labels (input : Input.t) (secs : list Z) (M : Z) :
  (2 <= List.length secs)%nat ->
  map label (map (finish (res_df_of input secs M)) (res_df_of input secs M))
  = tl (filter (kept input secs (chunks (Input.FlyWheelLog input)) M)
               (seq 2 (List.length secs - 2))).
Proof.
  intros H. rewrite map_map. unfold label. cbn [finish row].
  rewrite res_df_of_labels by assumption.
  rewrite map_map. cbn [mk_row index]. apply map_id.
Qed.

(** C3 as stated fails: four equal ticks give a NaN [power_kinetic] in the
    rows 2 and 3, [dropna] removes every row and the series is empty, not of
    length 1. *)
Lemma stuck_ticks_leave_no_sample :
  ~ (forall (input : Input.t) (secs : list Z) (series : list Sample),
       decode_log (Input.FlyWheelLog input) = OK secs ->
       (4 <= List.length secs)%nat ->
       process_attempt input = OK series ->
       List.length series = (List.length secs - 3)%nat
       /\ map label series = seq 3 (List.length secs - 3)).
Proof.
  intros H.
  destruct (H (attempt_of log_stuck sampling_14) [5; 5; 5; 5] []) as [L _].
  - reflexivity.
  - cbn. lia.
  - vm_compute. reflexivity.
  - discriminate L.
Qed.

(** C3, amended. For an attempt with N >= 4 decoded ticks and a Magnets
    value that fits an int64 cell, the rows 0 and 1 always go and one
    further leading row is discarded: the series has at most N - 3 samples,
    all from tick indices 3 to N - 1.  It has exactly N - 3 samples if and
    only if no row from index 2 on holds a NaN, and then these are the
    ticks 3, ..., N - 1. *)
Theorem attempt_series_size (input : Input.t) (secs : list Z) (M : Z) :
  decode_log (Input.FlyWheelLog input) = OK secs ->
  magnets (Input.SamplingMagnets input) = OK M ->
  Np.int64 M = true ->
  (4 <= List.length secs)%nat ->
  exists series,
    process_attempt input = OK series
    /\ (List.length series <= List.length secs - 3)%nat
    /\ Forall (fun s => (3 <= label s < List.length secs)%nat) series
    /\ let clean :=
         forall i, (2 <= i < List.length secs)%nat ->
           has_nan (mk_row input secs (chunks (Input.FlyWheelLog input)) M i) = false in
       (clean <-> List.length series = (List.length secs - 3)%nat)
       /\ (clean -> map label series = seq 3 (List.length secs - 3)).
Proof.
  intros D HM I N.
  assert (NE : secs <> []) by (destruct secs; [cbn in N; lia | discriminate]).
  eexists. split; [apply (process_attempt_eq input secs M D HM I NE)|].
  set (series := map _ _).
  assert (LB : map label series
               = tl (filter (kept input secs (chunks (Input.FlyWheelLog input)) M)
                            (seq 2 (List.length secs - 2))))
    by (apply series_labels; lia).
  set (k := kept input secs (chunks (Input.FlyWheelLog input)) M) in *.
  set (n := List.length secs) in *.
  assert (LN : List.length series = (List.length (filter k (seq 2 (n - 2))) - 1)%nat).
  { rewrite <- (length_map label series), LB. now destruct (filter _ _); cbn; lia. }
  pose proof (filter_length_le k (seq 2 (n - 2))) as LE. rewrite length_seq in LE.
  assert (CL : (forall i, (2 <= i < n)%nat ->
                  has_nan (mk_row input secs (chunks (Input.FlyWheelLog input)) M i) = false)
               <-> (forall i, In i (seq 2 (n - 2)) -> k i = true)).
  { unfold k, kept. split; intros C i Hi.
    - apply in_seq in Hi. rewrite C by lia. reflexivity.
    - specialize (C i). rewrite in_seq in C.
      destruct (has_nan _); [|reflexivity]. discriminate C. lia. }
  split; [lia|]. split.
  - assert (F : Forall (fun i => (3 <= i < n)%nat) (map label series)).
    { rewrite LB. eapply Forall_impl; [|apply (tl_filter_seq_above k 2 (n - 2))].
      cbn beta. intros i Hi. lia. }
    apply Forall_map in F. exact F.
  - cbn zeta. split.
    + rewrite CL, <- filter_all_iff, length_seq. lia.
    + intros C. rewrite LB, (filter_all k) by (now apply CL).
      destruct n as [|[|[|n']]]; try lia. cbn [Nat.sub seq tl].
      now rewrite Nat.sub_0_r.
Qed.

(** The six evenly spaced ticks give three samples, from the ticks 3, 4
    and 5. *)
Example series_even_labels :
  process_attempt attempt_even = OK series_even
  /\ map label series_even = [3; 4; 5]%nat.
Proof. split; vm_compute; reflexivity. Qed.

Lemma attempt_series_size_witness :
  exists series,
    process_attempt attempt_even = OK series
    /\ (List.length series <= List.length secs_even - 3)%nat
    /\ Forall (fun s => (3 <= label s < List.length secs_even)%nat) series
    /\ let clean :=
         forall i, (2 <= i < List.length secs_even)%nat ->
           has_nan (mk_row attempt_even secs_even
                      (chunks (Input.FlyWheelLog attempt_even)) 14 i) = false in
       (clean <-> List.length series = (List.length secs_even - 3)%nat)
       /\ (clean -> map label series = seq 3 (List.length secs_even - 3)).
Proof.
  apply (attempt_series_size attempt_even secs_even 14).
  - vm_compute. reflexivity.
  - vm_compute. reflexivity.
  - reflexivity.
  - cbn. lia.
Defined.

(** * Values of the time columns *)

Section TimeColumns.

Import Binary64.

Lemma fin_opp (x : float) : fin (- x) = fin x.
Proof. unfold fin. rewrite opp_spec. now destruct (Prim2SF x). Qed.

Lemma FR_opp (x : float) : FR (- x) = (- FR x)%R.
Proof.
  unfold FR. rewrite opp_spec. destruct (Prim2SF x) as [| | |s m e]; cbn [SFopp B2R]; try lra.
  rewrite !cond_Zopp_IZR. destruct s; cbn; ring.
Qed.

Lemma of_uint63_exact (z : Z) :
  0 < z < 2 ^ 53 ->
  fin (of_uint63 (Uint63.of_Z z)) = true /\ FR (of_uint63 (Uint63.of_Z z)) = IZR z.
Proof.
  intros H. unfold fin, FR. rewrite of_uint63_spec, Uint63.of_Z_spec.
  assert (W : wB = 2 ^ 63) by reflexivity.
  rewrite Z.mod_small by (rewrite W; split; [lia|]; apply Z.lt_trans with (2 ^ 53); [lia | reflexivity]).
  destruct (binary_normalize_exact z 0 false) as [F V].
  - pose proof (Zdigits2_le z 53 ltac:(lia) ltac:(lia)). rewrite fexp_eq. lia.
  - cbn. lia.
  - split; [assumption|]. rewrite V. change (bpow 0) with 1%R. ring.
Qed.

(** Integers of at most 53 bits convert exactly. *)
Lemma of_int_exact (z : Z) :
  - 2 ^ 53 < z < 2 ^ 53 ->
  fin (Np.of_int z) = true /\ FR (Np.of_int z) = IZR z.
Proof.
  intros H. unfold Np.of_int. destruct z as [|p|p].
  - split; [reflexivity|]. unfold FR. change (Prim2SF 0) with (S754_zero false).
    reflexivity.
  - apply of_uint63_exact. lia.
  - assert (N : (Zneg p =? - 2 ^ 63) = false).
    { apply Z.eqb_neq. intros E. rewrite E in H.
      assert (2 ^ 53 < 2 ^ 63) by reflexivity. lia. }
    rewrite N, fin_opp, FR_opp.
    destruct (of_uint63_exact (- Zneg p)) as [F V]; [lia|].
    split; [assumption|]. rewrite V, opp_IZR. ring.
Qed.

Lemma Rabs_le_inv (a b : R) : (Rabs a <= b)%R -> (- b <= a <= b)%R.
Proof. unfold Rabs. destruct (Rcase_abs a); lra. Qed.

Lemma bpow_Zneg (p : positive) : bpow (Zneg p) = (/ IZR (2 ^ Zpos p))%R.
Proof. apply (bpow_neg (Zpos p)). lia. Qed.

Lemma FR_57600 : FR 57600 = 57600%R.
Proof.
  unfold FR. change (Prim2SF 57600) with (S754_finite false 7916483719987200 (-37)).
  cbn [B2R cond_Zopp]. rewrite bpow_Zneg.
  change (2 ^ 37) with 137438953472. lra.
Qed.

Lemma FR_2 : FR 2 = 2%R.
Proof.
  unfold FR. change (Prim2SF 2) with (S754_finite false 4503599627370496 (-51)).
  cbn [B2R cond_Zopp]. rewrite bpow_Zneg.
  change (2 ^ 51) with 2251799813685248. lra.
Qed.

Lemma FR_half : FR 0.5 = (/ 2)%R.
Proof.
  unfold FR. change (Prim2SF 0.5) with (S754_finite false 4503599627370496 (-53)).
  cbn [B2R cond_Zopp]. rewrite bpow_Zneg.
  change (2 ^ 53) with 9007199254740992. lra.
Qed.

Lemma bpow_nat (n : Z) (v : Z) : 0 <= n -> 2 ^ n = v -> bpow n = IZR v.
Proof. intros H <-. now apply bpow_IZR. Qed.

Definition tol : R := (5 * bpow (-35))%R.

Lemma tol_eq : tol = (5 / 34359738368)%R.
Proof. unfold tol. rewrite bpow_Zneg. change (2 ^ 35) with 34359738368. lra. Qed.

Lemma elapsed_R (d : Z) :
  - 2 ^ 33 < d < 2 ^ 33 ->
  fin (elapsed d) = true /\ (Rabs (FR (elapsed d) - IZR d / 57600) <= tol)%R.
Proof.
  intros H. unfold elapsed, tol.
  assert (H53 : - 2 ^ 53 < d < 2 ^ 53).
  { assert (2 ^ 33 < 2 ^ 53) by reflexivity. lia. }
  destruct (of_int_exact d H53) as [F V].
  destruct (div_R (Np.of_int d) 57600 33 15) as [F' B]; try assumption.
  - now exists false, 7916483719987200%positive, (-37).
  - rewrite V, <- abs_IZR, (bpow_nat 33 _ ltac:(lia) eq_refl). apply IZR_lt. lia.
  - rewrite FR_57600, (bpow_nat 15 _ ltac:(lia) eq_refl).
    rewrite Rabs_pos_eq by lra. cbn. lra.
  - cbn. lia.
  - split; [assumption|]. rewrite V, FR_57600 in B. exact B.
Qed.

(** The float quotient is monotone on tick differences. *)
Lemma elapsed_mono (d1 d2 : Z) :
  - 2 ^ 33 < d1 < 2 ^ 33 -> - 2 ^ 33 < d2 < 2 ^ 33 -> d1 <= d2 ->
  (elapsed d1 <=? elapsed d2)%float = true.
Proof.
  intros H1 H2 L.
  destruct (elapsed_R d1 H1) as [F1 B1]. destruct (elapsed_R d2 H2) as [F2 B2].
  apply leb_R; try assumption.
  destruct (Z.eq_dec d1 d2) as [-> | N]; [lra|].
  assert (D : (IZR d1 + 1 <= IZR d2)%R) by (rewrite <- plus_IZR; apply IZR_le; lia).
  rewrite tol_eq in *.
  apply Rabs_le_inv in B1. apply Rabs_le_inv in B2. lra.
Qed.

Lemma elapsed_bound (d : Z) :
  - 2 ^ 33 < d < 2 ^ 33 ->
  fin (elapsed d) = true /\ (Rabs (FR (elapsed d)) < bpow 18)%R.
Proof.
  intros H. destruct (elapsed_R d H) as [F B]. split; [assumption|].
  rewrite tol_eq in B. apply Rabs_le_inv in B.
  rewrite (bpow_nat 18 _ ltac:(lia) eq_refl).
  assert (IZR (- 2 ^ 33) < IZR d < IZR (2 ^ 33))%R by (split; apply IZR_lt; lia).
  change (- 2 ^ 33) with (-8589934592) in *. change (2 ^ 33) with 8589934592 in *.
  change (2 ^ 18) with 262144. apply Rabs_def1; lra.
Qed.

(** [time_test]: the mean of two consecutive elapsed times is a finite
    float of moderate size. *)
Lemma midpoint_bound (a b : float) :
  fin a = true -> fin b = true ->
  (Rabs (FR a) < bpow 18)%R -> (Rabs (FR b) < bpow 18)%R ->
  fin ((a + b) / 2) = true /\ (Rabs (FR ((a + b) / 2)) < bpow 20)%R.
Proof.
  intros Fa Fb Ba Bb.
  rewrite (bpow_nat 18 262144 ltac:(lia) eq_refl) in Ba, Bb.
  destruct (add_R a b 19) as [Fs Bs]; try assumption.
  - rewrite (bpow_nat 19 524288 ltac:(lia) eq_refl). lra.
  - cbn. lia.
  - change (fexp prec emax 19) with (-34) in Bs.
    rewrite bpow_Zneg in Bs. change (2 ^ 34) with 17179869184 in Bs.
    apply Rabs_le_inv in Bs.
    apply Rabs_def2 in Ba. apply Rabs_def2 in Bb.
    assert (S : (Rabs (FR (a + b)) < bpow 20)%R).
    { rewrite (bpow_nat 20 1048576 ltac:(lia) eq_refl). apply Rabs_def1; lra. }
    destruct (div_R (a + b) 2 20 1) as [Fq Bq]; try assumption.
    + now exists false, 4503599627370496%positive, (-51).
    + rewrite FR_2, Rabs_pos_eq by lra. rewrite (bpow_nat 1 2 ltac:(lia) eq_refl). lra.
    + cbn. lia.
    + split; [assumption|].
      change (fexp prec emax (20 - 1)) with (-34) in Bq.
      rewrite bpow_Zneg in Bq. change (2 ^ 34) with 17179869184 in Bq.
      rewrite FR_2 in Bq. apply Rabs_le_inv in Bq.
      rewrite (bpow_nat 20 1048576 ltac:(lia) eq_refl). apply Rabs_def1; lra.
Qed.

(** A finite float of moderate size lies strictly within 0.5 of itself. *)
Lemma self_within_half (x : float) :
  fin x = true -> (Rabs (FR x) < bpow 20)%R ->
  ((x - 0.5 <? x) && (x <? x + 0.5))%float = true.
Proof.
  intros F B. rewrite (bpow_nat 20 1048576 ltac:(lia) eq_refl) in B.
  assert (Fh : fin 0.5 = true) by reflexivity.
  assert (Bh : (Rabs (FR x) + Rabs (FR 0.5) < bpow 21)%R).
  { rewrite FR_half, (Rabs_pos_eq (/ 2)) by lra.
    rewrite (bpow_nat 21 2097152 ltac:(lia) eq_refl). lra. }
  destruct (add_R x 0.5 21 F Fh Bh) as [Fa Ba]; [cbn; lia|].
  destruct (sub_R x 0.5 21 F Fh Bh) as [Fs Bs]; [cbn; lia|].
  change (fexp prec emax 21) with (-32) in Ba, Bs.
  rewrite bpow_Zneg in Ba, Bs. change (2 ^ 32) with 4294967296 in Ba, Bs.
  rewrite FR_half in Ba, Bs. apply Rabs_le_inv in Ba. apply Rabs_le_inv in Bs.
  apply andb_true_iff. split; apply ltb_R; try assumption; lra.
Qed.

End TimeColumns.

(** * Decoded ticks are 32-bit in magnitude *)

Section TickBounds.

Local Ltac by_bits c :=
  destruct c as [[] [] [] [] [] [] [] []]; cbn in *; try discriminate; try lia.

Lemma digit16_range (c : ascii) (d : Z) : PyInt.digit16 c = Some d -> 0 <= d < 16.
Proof. intros E. by_bits c; injection E as <-; lia. Qed.

Lemma skip_spaces_length (s : string) :
  (String.length (PyInt.skip_spaces s) <= String.length s)%nat.
Proof.
  induction s as [|c s IH]; cbn [PyInt.skip_spaces String.length]; [lia|].
  destruct (PyInt.is_space c); cbn [String.length]; lia.
Qed.

Lemma take_sign_length (s : string) :
  (String.length (snd (PyInt.take_sign s)) <= String.length s)%nat.
Proof. destruct s as [|c s]; [cbn; lia|]. by_bits c. Qed.

Lemma take_prefix_length (s : string) :
  (String.length (PyInt.take_prefix s) <= String.length s)%nat.
Proof.
  destruct s as [|c [|x t]]; try (cbn; lia); [by_bits c|].
  unfold PyInt.take_prefix.
  destruct ((PyInt.code x =? 120) || (PyInt.code x =? 88))%N.
  - destruct t as [|u t]; [by_bits c|]. by_bits c. by_bits u.
  - by_bits c.
Qed.

Lemma scan_bound (s : string) :
  forall acc n us v rest,
    PyInt.scan s acc n us = Some (v, rest) -> 0 <= acc ->
    0 <= v /\ v + 1 <= (acc + 1) * 16 ^ Z.of_nat (String.length s).
Proof.
  induction s as [|c s IH]; intros acc n us v rest E Ha; cbn [PyInt.scan] in E.
  - destruct us; [discriminate|]. destruct n; [discriminate|].
    injection E as <- _. cbn. lia.
  - cbn [String.length]. rewrite Nat2Z.inj_succ, Z.pow_succ_r by lia.
    assert (P : 0 < 16 ^ Z.of_nat (String.length s)) by (apply Z.pow_pos_nonneg; lia).
    destruct (PyInt.is_underscore c).
    + destruct us; [discriminate|].
      destruct (IH _ _ _ _ _ E Ha) as [V0 V1]. split; [assumption | nia].
    + destruct (PyInt.digit16 c) as [d|] eqn:D.
      * pose proof (digit16_range c d D) as R.
        destruct (IH _ _ _ _ _ E ltac:(lia)) as [V0 V1]. split; [assumption | nia].
      * destruct us; [discriminate|]. destruct n; [discriminate|].
        injection E as <- _. split; [assumption | nia].
Qed.

Lemma int16_bound (s : string) (v : Z) :
  PyInt.int16 s = OK v -> Z.abs v < 16 ^ Z.of_nat (String.length s).
Proof.
  unfold PyInt.int16. intros E.
  pose proof (skip_spaces_length s) as L1.
  pose proof (take_sign_length (PyInt.skip_spaces s)) as L2.
  destruct (PyInt.take_sign (PyInt.skip_spaces s)) as [neg s1]. cbn [snd] in L2.
  pose proof (take_prefix_length s1) as L3.
  destruct (PyInt.starts_with_underscore _); [discriminate|].
  destruct (PyInt.scan _ 0 0 false) as [[w rest]|] eqn:S; [|discriminate].
  destruct (scan_bound _ _ _ _ _ _ S ltac:(lia)) as [W0 W1].
  destruct (PyInt.skip_spaces rest); [|discriminate].
  assert (16 ^ Z.of_nat (String.length (PyInt.take_prefix s1))
          <= 16 ^ Z.of_nat (String.length s)) by (apply Z.pow_le_mono_r; lia).
  injection E as <-. destruct neg; lia.
Qed.

Lemma hex_to_int_bound (s : string) (v : Z) :
  String.length s = 8%nat -> hex_to_int s = OK v -> - 2 ^ 32 < v < 2 ^ 32.
Proof.
  intros L E.
  destruct (length8_inv s L) as (c0 & c1 & c2 & c3 & c4 & c5 & c6 & c7 & ->).
  unfold hex_to_int in E.
  cbn [slice_from slice String.length substring Nat.sub Nat.min append] in E.
  apply int16_bound in E. cbn [String.length] in E.
  change (16 ^ Z.of_nat 8) with (2 ^ 32) in E. lia.
Qed.

Lemma substring_length (n m : nat) (s : string) :
  (n + m <= String.length s)%nat -> String.length (substring n m s) = m.
Proof.
  revert n m. induction s as [|c s IH]; intros n m H; cbn [String.length] in H.
  - assert (n = 0 /\ m = 0)%nat as [-> ->] by lia. reflexivity.
  - destruct n as [|n]; cbn [substring].
    + destruct m as [|m]; [reflexivity|]. cbn [String.length]. f_equal.
      apply IH. lia.
    + apply IH. lia.
Qed.

Lemma chunks_length (s c : string) : In c (chunks s) -> String.length c = 8%nat.
Proof.
  unfold chunks. intros H. apply in_map_iff in H as (i & <- & Hi).
  apply in_seq in Hi. unfold slice.
  pose proof (Nat.div_mod_eq (String.length s) 8) as D.
  pose proof (Nat.mod_upper_bound (String.length s) 8 ltac:(lia)) as M.
  assert (B : ((i + 1) * 8 <= String.length s)%nat) by nia.
  rewrite Nat.min_l by assumption.
  replace ((i + 1) * 8 - i * 8)%nat with 8%nat by lia.
  apply substring_length. lia.
Qed.

Lemma decode_log_bound (s : string) (secs : list Z) :
  decode_log s = OK secs -> Forall tick32 secs.
Proof.
  unfold decode_log. intros E. apply mapM_OK_Forall2 in E.
  assert (L : Forall (fun c => String.length c = 8%nat) (chunks s))
    by (apply Forall_forall; apply chunks_length).
  induction E as [|c t cs ts Ec _ IH]; constructor.
  - inversion L; subst. now apply (hex_to_int_bound c).
  - inversion L; subst. now apply IH.
Qed.

Lemma nth_tick32 (secs : list Z) (i : nat) : Forall tick32 secs -> tick32 (nth i secs 0).
Proof.
  intros H. destruct (Nat.lt_ge_cases i (List.length secs)) as [L | G].
  - rewrite Forall_forall in H. apply H. now apply nth_In.
  - rewrite nth_overflow by assumption. unfold tick32. cbn. lia.
Qed.

End TickBounds.

(** * Order of the samples *)

Section Order.

Lemma StronglySorted_map_rel {A B : Type} (R : A -> A -> Prop) (R' : B -> B -> Prop)
    (f : A -> B) (l : list A) :
  (forall a b, R a b -> R' (f a) (f b)) ->
  StronglySorted R l -> StronglySorted R' (map f l).
Proof.
  intros H S. induction S as [|a l S IH F]; cbn [map]; constructor; [assumption|].
  apply Forall_map. eapply Forall_impl; [|exact F]. intros b. apply H.
Qed.

Lemma StronglySorted_tl {A : Type} (R : A -> A -> Prop) (l : list A) :
  StronglySorted R l -> StronglySorted R (tl l).
Proof. intros S. destruct S; [constructor | assumption]. Qed.

Lemma filter_seq_sorted (p : nat -> bool) (a n : nat) :
  StronglySorted (fun i j => (i < j < a + n)%nat) (filter p (seq a n)).
Proof.
  revert a. induction n as [|n IH]; intros a; cbn [seq filter]; [constructor|].
  assert (S : StronglySorted (fun i j => (i < j < a + S n)%nat) (filter p (seq (S a) n))).
  { eapply StronglySorted_map_rel with (f := fun i => i) in IH.
    - rewrite map_id in IH. exact IH.
    - cbn beta. intros i j H. lia. }
  destruct (p a); [|assumption]. constructor; [assumption|].
  apply Forall_forall. intros j Hj. apply filter_In in Hj as [Hj _].
  apply in_seq in Hj. lia.
Qed.

Lemma sorted_nth (l : list Z) (i j : nat) :
  Sorted Z.le l -> (i <= j < List.length l)%nat -> nth i l 0 <= nth j l 0.
Proof.
  intros S. apply Sorted_StronglySorted in S; [|exact Z.le_trans].
  revert i j. induction S as [|x l S IH F]; intros i j H; cbn [List.length] in H; [lia|].
  destruct i as [|i], j as [|j]; cbn [nth]; try lia.
  - rewrite Forall_forall in F. apply F. apply nth_In. lia.
  - apply IH. lia.
Qed.

End Order.

(** The series of an attempt, by the labels of its rows. *)
Lemma series_by_labels (input : Input.t) (secs : list Z) (M : Z) :
  let bufs := chunks (Input.FlyWheelLog input) in
  map (finish (res_df_of input secs M)) (res_df_of input secs M)
  = map (fun i => finish (res_df_of input secs M) (mk_row input secs bufs M i))
        (tl (filter (kept input secs bufs M) (seq 0 (List.length secs)))).
Proof.
  cbn zeta. unfold res_df_of at 2, iloc_from_1, frame.
  rewrite dropna_frame_labels. destruct (filter _ _); cbn [tl map]; [reflexivity|].
  now rewrite map_map.
Qed.

Lemma time_elapsed_eq (input : Input.t) (secs : list Z) (bufs : list string) (M : Z)
    (i : nat) :
  time_elapsed (mk_row input secs bufs M i)
  = elapsed (nth i secs 0 - nth 0 secs 0).
Proof. reflexivity. Qed.

Lemma tick32_diff (a b : Z) : tick32 a -> tick32 b -> - 2 ^ 33 < a - b < 2 ^ 33.
Proof. unfold tick32. change (2 ^ 33) with (2 * 2 ^ 32). lia. Qed.

(** The order of the ticks is needed below: the code does not enforce it, and
    on the ticks 0, 10, 20, 40, 30 the two samples have a [time_elapsed] that
    goes down. *)
Lemma time_elapsed_follows_ticks_down :
  ~ (forall (input : Input.t) (secs : list Z) (series : list Sample),
       decode_log (Input.FlyWheelLog input) = OK secs ->
       (4 <= List.length secs)%nat ->
       process_attempt input = OK series ->
       Sorted elapsed_le series).
Proof.
  intros H.
  pose (a := attempt_of log_back sampling_14).
  destruct (process_attempt a) as [ser|] eqn:E; [|vm_compute in E; discriminate E].
  specialize (H a [0; 10; 20; 40; 30] ser eq_refl ltac:(cbn; lia) E).
  vm_compute in E. injection E as <-.
  inversion H as [|? ? _ HR]; subst. inversion HR as [|? ? Hle]; subst.
  vm_compute in Hle. discriminate Hle.
Qed.

(** C8. When the decoded ticks of an attempt are non-decreasing, as the
    hardware clock is assumed to give them, [time_elapsed] is non-decreasing
    across the samples of its series (for any number of ticks, so for 4 and
    more). *)
Theorem time_elapsed_non_decreasing (input : Input.t) (secs : list Z)
    (series : list Sample) :
  decode_log (Input.FlyWheelLog input) = OK secs ->
  Sorted Z.le secs ->
  process_attempt input = OK series ->
  Sorted elapsed_le series /\ StronglySorted elapsed_le series.
Proof.
  intros D S E.
  assert (SS : StronglySorted elapsed_le series); [|split; [now apply StronglySorted_Sorted | assumption]].
  destruct (process_attempt_inv input series E) as (secs' & M & D' & _ & _ & ->).
  rewrite D in D'. injection D' as <-.
  pose proof (decode_log_bound _ _ D) as B.
  rewrite series_by_labels.
  eapply StronglySorted_map_rel;
    [|apply StronglySorted_tl, (filter_seq_sorted _ 0 (List.length secs))].
  cbn beta. intros i j H. unfold elapsed_le. cbn [finish row].
  rewrite !time_elapsed_eq.
  apply elapsed_mono.
  - apply tick32_diff; now apply nth_tick32.
  - apply tick32_diff; now apply nth_tick32.
  - pose proof (sorted_nth secs i j S ltac:(lia)). lia.
Qed.

Lemma time_elapsed_non_decreasing_witness :
  Sorted elapsed_le series_even /\ StronglySorted elapsed_le series_even.
Proof.
  apply (time_elapsed_non_decreasing attempt_even secs_even series_even).
  - vm_compute. reflexivity.
  - unfold secs_even. repeat constructor; lia.
  - vm_compute. reflexivity.
Defined.

(** * The window of a sample contains the sample *)

Lemma time_test_eq (input : Input.t) (secs : list Z) (bufs : list string) (M : Z)
    (i : nat) :
  (1 <= i)%nat ->
  time_test (mk_row input secs bufs M i)
  = ((elapsed (nth i secs 0 - nth 0 secs 0)%Z
      + elapsed (nth (i - 1) secs 0 - nth 0 secs 0)%Z) / 2)%float.
Proof.
  intros H. cbn [mk_row time_test]. unfold col_time_test, shift.
  destruct (Nat.ltb_spec i 1) as [L|_]; [lia|]. reflexivity.
Qed.

Lemma own_time_test_in_window (input : Input.t) (secs : list Z) (bufs : list string)
    (M : Z) (i : nat) :
  Forall tick32 secs -> (1 <= i)%nat ->
  in_window (time_test (mk_row input secs bufs M i)) (mk_row input secs bufs M i) = true.
Proof.
  intros B H. unfold in_window. rewrite time_test_eq by assumption.
  destruct (elapsed_bound (nth i secs 0 - nth 0 secs 0)) as [F1 B1];
    [apply tick32_diff; now apply nth_tick32|].
  destruct (elapsed_bound (nth (i - 1) secs 0 - nth 0 secs 0)) as [F2 B2];
    [apply tick32_diff; now apply nth_tick32|].
  destruct (midpoint_bound _ _ F1 F2 B1 B2) as [F B'].
  now apply self_within_half.
Qed.

(** C10. In the pipeline every sample is smoothed with its own [time_test]
    as the centre of a window over its own series: the selection contains
    that sample, so it is not empty and the divisor is at least 1. *)
Theorem own_window_not_empty (input : Input.t) (series : list Sample) (s : Sample) :
  process_attempt input = OK series -> In s series ->
  let window := sample_df (time_test (row s)) (map row series) in
  In (row s) window /\ (1 <= List.length window)%nat /\ window <> [].
Proof.
  intros E Hs. cbn zeta.
  assert (I : In (row s) (sample_df (time_test (row s)) (map row series))).
  { destruct (process_attempt_inv input series E) as (secs & M & D & _ & _ & ->).
    pose proof (decode_log_bound _ _ D) as B.
    rewrite map_row_finish. apply in_map_iff in Hs as (r & <- & Hr).
    cbn [finish row]. unfold sample_df. apply filter_In. split; [assumption|].
    unfold res_df_of, iloc_from_1, frame in Hr. rewrite dropna_frame_labels in Hr.
    assert (Hr' : In r (map (mk_row input secs (chunks (Input.FlyWheelLog input)) M)
                          (filter (kept input secs (chunks (Input.FlyWheelLog input)) M)
                                  (seq 0 (List.length secs)))))
      by (destruct (map _ _); [destruct Hr | now right]).
    apply in_map_iff in Hr' as (i & <- & Hi). apply filter_In in Hi as [_ K].
    apply own_time_test_in_window; [assumption|].
    destruct i; [|lia]. unfold kept in K. rewrite has_nan_row_0 in K. discriminate K. }
  split; [assumption|].
  destruct (sample_df _ _); [destruct I|]. split; [cbn; lia | discriminate].
Qed.

Lemma own_window_not_empty_witness :
  let window :=
    sample_df (time_test (row sample_even_3)) (map row series_even) in
  In (row sample_even_3) window /\ (1 <= List.length window)%nat /\ window <> [].
Proof.
  apply (own_window_not_empty attempt_even series_even sample_even_3).
  - vm_compute. reflexivity.
  - vm_compute. left. reflexivity.
Defined.

(** * Logs and their chunks *)

Section Logs.

Lemma string_length_app (s1 s2 : string) :
  String.length (s1 ++ s2) = (String.length s1 + String.length s2)%nat.
Proof. induction s1 as [|c s1 IH]; cbn [append String.length]; [reflexivity | now rewrite IH]. Qed.

Lemma substring_app_l (s1 s2 : string) :
  forall n m, (n + m <= String.length s1)%nat ->
    substring n m (s1 ++ s2) = substring n m s1.
Proof.
  induction s1 as [|c s1 IH]; intros n m H; cbn [String.length] in H.
  - assert (n = 0 /\ m = 0)%nat as [-> ->] by lia. now destruct s2.
  - cbn [append]. destruct n as [|n]; cbn [substring].
    + destruct m as [|m]; [reflexivity|]. f_equal. apply IH. lia.
    + apply IH. lia.
Qed.

Lemma substring_app_r (s1 s2 : string) (n m : nat) :
  substring (String.length s1 + n) m (s1 ++ s2) = substring n m s2.
Proof. induction s1 as [|c s1 IH]; cbn [append String.length Nat.add substring]; auto. Qed.

Lemma map_seq_from {A : Type} (f : nat -> A) (a n : nat) :
  map f (seq a n) = map (fun j => f (a + j)%nat) (seq 0 n).
Proof.
  revert f a. induction n as [|n IH]; intros f a; cbn [seq map]; [reflexivity|].
  rewrite Nat.add_0_r. f_equal.
  rewrite (IH f (S a)), (IH (fun j => f (a + j)%nat) 1%nat).
  apply map_ext. intros j. f_equal. lia.
Qed.

Lemma chunks_app (s1 s2 : string) :
  (String.length s1 mod 8 = 0)%nat -> chunks (s1 ++ s2) = (chunks s1 ++ chunks s2)%list.
Proof.
  intros H. unfold chunks. rewrite string_length_app.
  pose proof (Nat.div_mod_eq (String.length s1) 8) as D1. rewrite H, Nat.add_0_r in D1.
  set (k := (String.length s1 / 8)%nat) in *.
  pose proof (Nat.div_mod_eq (String.length s2) 8) as D2.
  pose proof (Nat.mod_upper_bound (String.length s2) 8 ltac:(lia)) as M2.
  set (n2 := (String.length s2 / 8)%nat) in *.
  replace ((String.length s1 + String.length s2) / 8)%nat with (k + n2)%nat.
  2:{ apply Nat.div_unique with (String.length s2 mod 8)%nat; lia. }
  rewrite seq_app, map_app. cbn [Nat.add]. f_equal.
  - apply map_ext_in. intros i Hi. apply in_seq in Hi. unfold slice.
    rewrite string_length_app, !Nat.min_l by lia.
    apply substring_app_l. lia.
  - rewrite map_seq_from. apply map_ext_in. intros j Hj. apply in_seq in Hj.
    unfold slice. rewrite string_length_app, !Nat.min_l by lia.
    replace ((k + j) * 8)%nat with (String.length s1 + j * 8)%nat by lia.
    replace ((k + j + 1) * 8 - (String.length s1 + j * 8))%nat
      with ((j + 1) * 8 - j * 8)%nat by lia.
    apply substring_app_r.
Qed.

Lemma mapM_app {A B : Type} (f : A -> result B) (l1 l2 : list A) :
  mapM f (l1 ++ l2)
  = (do a <- mapM f l1; do b <- mapM f l2; OK (a ++ b)%list).
Proof.
  induction l1 as [|x l1 IH]; cbn [mapM app bind].
  - now destruct (mapM f l2).
  - destruct (f x) as [y|e]; cbn [bind]; [|reflexivity]. rewrite IH.
    destruct (mapM f l1) as [a|e]; cbn [bind]; [|reflexivity].
    now destruct (mapM f l2).
Qed.

End Logs.

(** * Further properties of the decoding loop *)

(** X1. Logs compose at chunk boundaries, and a trailing fragment of fewer
    than 8 characters is ignored. *)
Theorem decode_log_concatenation (s1 s2 : string) :
  (String.length s1 mod 8 = 0)%nat ->
  decode_log (s1 ++ s2)
  = (do a <- decode_log s1; do b <- decode_log s2; OK (a ++ b)%list)
  /\ ((String.length s2 < 8)%nat -> decode_log (s1 ++ s2) = decode_log s1).
Proof.
  intros H.
  assert (E : decode_log (s1 ++ s2)
              = (do a <- decode_log s1; do b <- decode_log s2; OK (a ++ b)%list)).
  { unfold decode_log. rewrite chunks_app by assumption. apply mapM_app. }
  split; [assumption|]. intros L. rewrite E.
  assert (D2 : decode_log s2 = OK []).
  { unfold decode_log, chunks. now rewrite (Nat.div_small _ 8 L). }
  rewrite D2. destruct (decode_log s1) as [a|e]; cbn [bind]; [|reflexivity].
  now rewrite app_nil_r.
Qed.

Lemma decode_log_concatenation_witness :
  decode_log (log_even ++ "0A00")
  = (do a <- decode_log log_even; do b <- decode_log "0A00"; OK (a ++ b)%list)
  /\ ((String.length "0A00" < 8)%nat -> decode_log (log_even ++ "0A00") = decode_log log_even).
Proof. apply decode_log_concatenation. reflexivity. Defined.

Lemma Forall2_nth {A B : Type} (P : A -> B -> Prop) (l : list A) (l' : list B)
    (d : A) (d' : B) (i : nat) :
  Forall2 P l l' -> (i < List.length l')%nat -> P (nth i l d) (nth i l' d').
Proof.
  intros F. revert i. induction F as [|x y l l' Hxy F IH]; intros i H; cbn [List.length] in H.
  - lia.
  - destruct i as [|i]; cbn [nth]; [assumption|]. apply IH. lia.
Qed.

Lemma chunks_count (s : string) : List.length (chunks s) = (String.length s / 8)%nat.
Proof. unfold chunks. now rewrite length_map, length_seq. Qed.

(** X2. A log that decodes gives one tick per complete chunk of 8
    characters; every tick is the decoding of the chunk at its position and
    is below 2^32 in magnitude. *)
Theorem decode_log_ticks (s : string) (secs : list Z) :
  decode_log s = OK secs ->
  List.length secs = (String.length s / 8)%nat
  /\ Forall tick32 secs
  /\ forall i, (i < List.length secs)%nat ->
       hex_to_int (nth i (chunks s) EmptyString) = OK (nth i secs 0).
Proof.
  intros D. pose proof (decode_log_bound s secs D) as B.
  unfold decode_log in D. apply mapM_OK_Forall2 in D.
  split; [|split; [assumption|]].
  - rewrite <- (Forall2_length D). apply chunks_count.
  - intros i Hi. now apply (Forall2_nth _ _ _ EmptyString 0 i D).
Qed.

Lemma decode_log_ticks_witness :
  List.length secs_even = (String.length log_even / 8)%nat
  /\ Forall tick32 secs_even
  /\ forall i, (i < List.length secs_even)%nat ->
       hex_to_int (nth i (chunks log_even) EmptyString) = OK (nth i secs_even 0).
Proof. apply decode_log_ticks. vm_compute. reflexivity. Defined.

Lemma valid_chunk_digits (s : string) :
  valid_chunk s = true ->
  exists d0 d1 d2 d3 d4 d5 d6 d7,
    hex_digits s = [Some d0; Some d1; Some d2; Some d3; Some d4; Some d5; Some d6; Some d7]
    /\ (0 <= d0 < 16 /\ 0 <= d1 < 16 /\ 0 <= d2 < 16 /\ 0 <= d3 < 16)
    /\ (0 <= d4 < 16 /\ 0 <= d5 < 16 /\ 0 <= d6 < 16 /\ 0 <= d7 < 16)
    /\ hex_to_int s
       = OK (((d6 * 16 + d7) * 256 + (d4 * 16 + d5)) * 65536
             + (d2 * 16 + d3) * 256 + (d0 * 16 + d1)).
Proof.
  unfold valid_chunk. intros H. apply andb_true_iff in H as [L A].
  apply Nat.eqb_eq in L.
  destruct (length8_inv s L) as (c0 & c1 & c2 & c3 & c4 & c5 & c6 & c7 & ->).
  cbn [all_hex] in A. repeat (apply andb_true_iff in A as [?H A]).
  destruct (hex_digit16 c0) as (d0 & E0 & B0); [assumption|].
  destruct (hex_digit16 c1) as (d1 & E1 & B1); [assumption|].
  destruct (hex_digit16 c2) as (d2 & E2 & B2); [assumption|].
  destruct (hex_digit16 c3) as (d3 & E3 & B3); [assumption|].
  destruct (hex_digit16 c4) as (d4 & E4 & B4); [assumption|].
  destruct (hex_digit16 c5) as (d5 & E5 & B5); [assumption|].
  destruct (hex_digit16 c6) as (d6 & E6 & B6); [assumption|].
  destruct (hex_digit16 c7) as (d7 & E7 & B7); [assumption|].
  exists d0, d1, d2, d3, d4, d5, d6, d7. repeat split; try lia.
  - unfold hex_digits. cbn [list_ascii_of_string map].
    now rewrite E0, E1, E2, E3, E4, E5, E6, E7.
  - apply (hex_to_int_digits _ _ _ _ _ _ _ _ _ _ _ _ _ _ _ _ E0 E1 E2 E3 E4 E5 E6 E7).
Qed.

(** X3. Two chunks of 8 hex characters decode to the same tick exactly when
    they hold the same hex digits (they are equal up to letter case). *)
Theorem hex_to_int_injective (s t : string) :
  valid_chunk s = true -> valid_chunk t = true ->
  (hex_to_int s = hex_to_int t <-> hex_digits s = hex_digits t).
Proof.
  intros Vs Vt.
  destruct (valid_chunk_digits s Vs)
    as (a0 & a1 & a2 & a3 & a4 & a5 & a6 & a7 & Ds & (A0 & A1 & A2 & A3) & (A4 & A5 & A6 & A7) & Es).
  destruct (valid_chunk_digits t Vt)
    as (b0 & b1 & b2 & b3 & b4 & b5 & b6 & b7 & Dt & (B0 & B1 & B2 & B3) & (B4 & B5 & B6 & B7) & Et).
  rewrite Es, Et, Ds, Dt. split.
  - intros E. injection E as E.
    assert (a0 = b0 /\ a1 = b1 /\ a2 = b2 /\ a3 = b3 /\ a4 = b4 /\ a5 = b5 /\ a6 = b6 /\ a7 = b7)
      as (-> & -> & -> & -> & -> & -> & -> & ->) by lia.
    reflexivity.
  - intros E. injection E as -> -> -> -> -> -> -> ->. reflexivity.
Qed.

Lemma hex_to_int_injective_witness :
  hex_to_int "0a1B2c3D" = hex_to_int "0A1b2C3d"
  <-> hex_digits "0a1B2c3D" = hex_digits "0A1b2C3d".
Proof. apply hex_to_int_injective; reflexivity. Defined.

(** * Outcome of an attempt and of the batch *)

Lemma concat_frames_app (a b : list (list Sample)) (oa ob : list Sample) :
  concat_frames a = OK oa -> concat_frames b = OK ob ->
  concat_frames (a ++ b) = OK (oa ++ ob)%list.
Proof.
  destruct a as [|x a]; [discriminate|]. destruct b as [|y b]; [discriminate|].
  cbn [concat_frames app]. intros [= <-] [= <-]. f_equal.
  apply (concat_app (x :: a) (y :: b)).
Qed.

(** X6. Two tables that are processed on their own give, put one after the
    other, the rows of the first followed by the rows of the second. *)
Theorem transform_app (a b : list Input.t) (oa ob : list Sample) :
  transform a = OK oa -> transform b = OK ob ->
  transform (a ++ b) = OK (oa ++ ob)%list.
Proof.
  unfold transform. rewrite mapM_app. intros Ea Eb.
  destruct (mapM process_attempt a) as [da|]; cbn [bind] in *; [|discriminate].
  destruct (mapM process_attempt b) as [db|]; cbn [bind] in *; [|discriminate].
  now apply concat_frames_app.
Qed.

Lemma transform_app_witness :
  transform ([attempt_even] ++ [attempt_of log_spread sampling_14])
  = OK (series_even
        ++ map (finish (res_df_of (attempt_of log_spread sampling_14) [0; 10; 30; 60; 100; 150] 14))
               (res_df_of (attempt_of log_spread sampling_14) [0; 10; 30; 60; 100; 150] 14))%list.
Proof. apply transform_app; vm_compute; reflexivity. Defined.

(** * The rows of the output table *)

Lemma in_tl {A : Type} (x : A) (l : list A) : In x (tl l) -> In x l.
Proof. destruct l; [intros [] | now right]. Qed.

(** The labels of the rows that reach the series: kept by [dropna], and at
    least 3. *)
Lemma series_labels_kept (input : Input.t) (secs : list Z) (bufs : list string) (M : Z) :
  Forall (fun i => (3 <= i < List.length secs)%nat /\ kept input secs bufs M i = true)
         (tl (filter (kept input secs bufs M) (seq 0 (List.length secs)))).
Proof.
  set (k := kept input secs bufs M).
  assert (K0 : k 0%nat = false) by (unfold k, kept; now rewrite has_nan_row_0).
  assert (K1 : k 1%nat = false) by (unfold k, kept; now rewrite has_nan_row_1).
  destruct (List.length secs) as [|[|n]]; cbn [seq filter].
  - constructor.
  - rewrite K0. constructor.
  - rewrite K0, K1. pose proof (tl_filter_seq_above k 2 n) as F.
    rewrite Forall_forall in *. intros i Hi. split; [apply (F i Hi)|].
    apply in_tl, filter_In in Hi. apply Hi.
Qed.

Lemma series_member (input : Input.t) (secs : list Z) (M : Z) (s : Sample) :
  let bufs := chunks (Input.FlyWheelLog input) in
  In s (map (finish (res_df_of input secs M)) (res_df_of input secs M)) ->
  exists i,
    (3 <= i < List.length secs)%nat
    /\ kept input secs bufs M i = true
    /\ s = finish (res_df_of input secs M) (mk_row input secs bufs M i).
Proof.
  cbn zeta. rewrite series_by_labels. intros H.
  apply in_map_iff in H as (i & <- & Hi).
  pose proof (series_labels_kept input secs (chunks (Input.FlyWheelLog input)) M) as F.
  rewrite Forall_forall in F. destruct (F i Hi) as [R K]. now exists i.
Qed.

(** X8. Every row of the output table belongs to one attempt of the input:
    it carries that attempt's identification and weights, the constant
    inertia and the attempt's Magnets value; its [hex] cell is the chunk of
    the log at the row's label and its [timer] cell is that chunk decoded. *)
Theorem output_row_fields (df : list Input.t) (out : list Sample) (s : Sample) :
  transform df = OK out -> In s out ->
  exists input secs M,
    In input df
    /\ decode_log (Input.FlyWheelLog input) = OK secs
    /\ magnets (Input.SamplingMagnets input) = OK M
    /\ (label s < List.length secs)%nat
    /\ hex (row s) = nth (label s) (chunks (Input.FlyWheelLog input)) EmptyString
    /\ timer (row s) = nth (label s) secs 0
    /\ hex_to_int (hex (row s)) = OK (timer (row s))
    /\ Attempt (row s) = Input.BoutNumber input
    /\ Created (row s) = Input._time input
    /\ LastName (row s) = Input.LastName input
    /\ FirstName (row s) = Input.FirstName input
    /\ Weight (row s) = Input.PersonWeight input
    /\ BrakeWeight (row s) = Input.BrakeWeight input
    /\ Inertia (row s) = inertia
    /\ Magnets (row s) = M.
Proof.
  intros E Hs.
  destruct (transform_sample_origin df out s E Hs) as (input & series & Hi & Hp & Hin).
  destruct (process_attempt_inv input series Hp) as (secs & M & D & HM & _ & ->).
  destruct (series_member input secs M s Hin) as (i & R & _ & ->).
  exists input, secs, M. unfold label. cbn [finish row mk_row index hex timer
    Attempt Created LastName FirstName Weight BrakeWeight Inertia Magnets].
  repeat split; try assumption; try reflexivity; [lia|].
  unfold col_timer. unfold decode_log in D. apply mapM_OK_Forall2 in D.
  apply (Forall2_nth _ _ _ EmptyString 0 i D). lia.
Qed.

Lemma output_row_fields_witness :
  exists input secs M,
    In input [attempt_even]
    /\ decode_log (Input.FlyWheelLog input) = OK secs
    /\ magnets (Input.SamplingMagnets input) = OK M
    /\ (label sample_even_3 < List.length secs)%nat
    /\ hex (row sample_even_3)
       = nth (label sample_even_3) (chunks (Input.FlyWheelLog input)) EmptyString
    /\ timer (row sample_even_3) = nth (label sample_even_3) secs 0
    /\ hex_to_int (hex (row sample_even_3)) = OK (timer (row sample_even_3))
    /\ Attempt (row sample_even_3) = Input.BoutNumber input
    /\ Created (row sample_even_3) = Input._time input
    /\ LastName (row sample_even_3) = Input.LastName input
    /\ FirstName (row sample_even_3) = Input.FirstName input
    /\ Weight (row sample_even_3) = Input.PersonWeight input
    /\ BrakeWeight (row sample_even_3) = Input.BrakeWeight input
    /\ Inertia (row sample_even_3) = inertia
    /\ Magnets (row sample_even_3) = M.
Proof.
  apply (output_row_fields [attempt_even] series_even sample_even_3).
  - vm_compute. reflexivity.
  - vm_compute. left. reflexivity.
Defined.

Lemma res_df_of_no_nan (input : Input.t) (secs : list Z) (M : Z) :
  Forall (fun r => has_nan r = false) (res_df_of input secs M).
Proof.
  apply Forall_forall. intros r Hr. unfold res_df_of, iloc_from_1, dropna in Hr.
  apply in_tl, filter_In in Hr as [_ K]. now destruct (has_nan r).
Qed.

(** X9. No row of the output table holds a NaN in any of the eleven float
    cells computed before the smoothing, and none comes from the first three
    ticks of its attempt. *)
Theorem output_rows_without_nan (df : list Input.t) (out : list Sample) :
  transform df = OK out ->
  Forall (fun s => has_nan (row s) = false /\ (3 <= label s)%nat) out.
Proof.
  intros E. apply Forall_forall. intros s Hs.
  destruct (transform_sample_origin df out s E Hs) as (input & series & Hi & Hp & Hin).
  destruct (process_attempt_inv input series Hp) as (secs & M & D & HM & _ & ->).
  destruct (series_member input secs M s Hin) as (i & R & K & ->).
  unfold label. cbn [finish row mk_row index]. split; [|lia].
  unfold kept in K. now destruct (has_nan _).
Qed.

Lemma output_rows_without_nan_witness :
  Forall (fun s => has_nan (row s) = false /\ (3 <= label s)%nat) series_even.
Proof. apply (output_rows_without_nan [attempt_even]). vm_compute. reflexivity. Defined.

Lemma has_nan_rpm (r : Row) : has_nan r = false -> is_nan (rpm r) = false.
Proof.
  unfold has_nan. intros H. repeat (apply orb_false_iff in H as [H ?]).
  assumption.
Qed.

(** X10. [rpm_centered] of every output row is the plain mean of [rpm] over
    the rows of the same series strictly within 0.5 s of the row's
    [time_test], rounded to 2 decimals: a series holds no NaN [rpm], so the
    NaN-skipping sum of the code skips nothing. *)
Theorem rpm_centered_window (df : list Input.t) (out : list Sample) (s : Sample) :
  transform df = OK out -> In s out ->
  exists input series,
    In input df /\ process_attempt input = OK series /\ In s series
    /\ rpm_centered s = naive_rpm_centered (map row series) (time_test (row s)).
Proof.
  intros E Hs.
  destruct (transform_sample_origin df out s E Hs) as (input & series & Hi & Hp & Hin).
  exists input, series. repeat split; try assumption.
  destruct (process_attempt_inv input series Hp) as (secs & M & _ & _ & _ & ->).
  rewrite map_row_finish. apply in_map_iff in Hin as (r & <- & _).
  cbn [finish row rpm_centered].
  unfold window_rpm, naive_rpm_centered, Naive.mean, shape0, sample_df.
  change in_window with Naive.strictly_within.
  rewrite length_map, nansum_no_nan; [reflexivity|].
  apply Forall_map, Forall_forall. intros x Hx. apply filter_In in Hx as [Hx _].
  pose proof (res_df_of_no_nan input secs M) as F. rewrite Forall_forall in F.
  apply has_nan_rpm, F, Hx.
Qed.

Lemma rpm_centered_window_witness :
  exists input series,
    In input [attempt_even] /\ process_attempt input = OK series
    /\ In sample_even_3 series
    /\ rpm_centered sample_even_3
       = naive_rpm_centered (map row series) (time_test (row sample_even_3)).
Proof.
  apply (rpm_centered_window [attempt_even] series_even sample_even_3).
  - vm_compute. reflexivity.
  - vm_compute. left. reflexivity.
Defined.

(** X11. The rows of a series keep the order of the ticks and no tick
    gives two rows; an attempt of fewer than 4 ticks is processed without
    error and gives no row at all. *)
Theorem series_order (input : Input.t) (secs : list Z) (series : list Sample) :
  decode_log (Input.FlyWheelLog input) = OK secs ->
  process_attempt input = OK series ->
  StronglySorted lt (map label series)
  /\ NoDup (map label series)
  /\ ((List.length secs < 4)%nat -> series = []).
Proof.
  intros D E.
  destruct (process_attempt_inv input series E) as (secs' & M & D' & _ & _ & ->).
  rewrite D in D'. injection D' as <-.
  assert (L : map label (map (finish (res_df_of input secs M)) (res_df_of input secs M))
              = tl (filter (kept input secs (chunks (Input.FlyWheelLog input)) M)
                           (seq 0 (List.length secs)))).
  { rewrite series_by_labels, map_map. unfold label. cbn [finish row mk_row index].
    apply map_id. }
  assert (S : StronglySorted lt
                (map label (map (finish (res_df_of input secs M)) (res_df_of input secs M)))).
  { rewrite L. apply StronglySorted_tl.
    pose proof (filter_seq_sorted (kept input secs (chunks (Input.FlyWheelLog input)) M)
                  0 (List.length secs)) as S.
    apply (StronglySorted_map_rel _ lt (fun i => i)) in S; [now rewrite map_id in S|].
    cbn beta. intros a b H. lia. }
  split; [assumption|]. split.
  - clear L. induction S as [|a l S IH F]; constructor; [|assumption].
    intros Hin. rewrite Forall_forall in F. specialize (F a Hin). lia.
  - intros N.
    pose proof (series_labels_kept input secs (chunks (Input.FlyWheelLog input)) M) as F.
    rewrite <- L in F.
    destruct (map (finish _) _) as [|s l]; [reflexivity|].
    cbn [map] in F. inversion F; subst. lia.
Qed.

Lemma series_order_witness :
  StronglySorted lt (map label series_even)
  /\ NoDup (map label series_even)
  /\ ((List.length secs_even < 4)%nat -> series_even = []).
Proof.
  apply (series_order attempt_even secs_even series_even); vm_compute; reflexivity.
Defined.

(** * Accuracy and order of the time columns *)

Section TimeAccuracy.

Import Binary64.

(** The mean of two elapsed times, against the exact mean of the two tick
    differences over the clock frequency. *)
Lemma midpoint_R (a b : Z) :
  - 2 ^ 33 < a < 2 ^ 33 -> - 2 ^ 33 < b < 2 ^ 33 ->
  fin ((elapsed a + elapsed b) / 2) = true
  /\ (Rabs (FR ((elapsed a + elapsed b) / 2) - (IZR a + IZR b) / 115200)
      <= 19 / 34359738368)%R.
Proof.
  intros Ha Hb.
  destruct (elapsed_R a Ha) as [Fa Ra]. destruct (elapsed_R b Hb) as [Fb Rb].
  destruct (elapsed_bound a Ha) as [_ Ba]. destruct (elapsed_bound b Hb) as [_ Bb].
  rewrite tol_eq in Ra, Rb.
  rewrite (bpow_nat 18 262144 ltac:(lia) eq_refl) in Ba, Bb.
  destruct (add_R (elapsed a) (elapsed b) 19) as [Fs Bs]; try assumption.
  - rewrite (bpow_nat 19 524288 ltac:(lia) eq_refl). lra.
  - cbn. lia.
  - change (fexp prec emax 19) with (-34) in Bs.
    rewrite bpow_Zneg in Bs. change (2 ^ 34) with 17179869184 in Bs.
    apply Rabs_le_inv in Bs. apply Rabs_le_inv in Ra. apply Rabs_le_inv in Rb.
    apply Rabs_def2 in Ba. apply Rabs_def2 in Bb.
    destruct (div_R (elapsed a + elapsed b) 2 20 1) as [Fq Bq]; try assumption.
    + now exists false, 4503599627370496%positive, (-51).
    + rewrite (bpow_nat 20 1048576 ltac:(lia) eq_refl). apply Rabs_def1; lra.
    + rewrite FR_2, Rabs_pos_eq by lra. rewrite (bpow_nat 1 2 ltac:(lia) eq_refl). lra.
    + cbn. lia.
    + split; [assumption|].
      change (fexp prec emax (20 - 1)) with (-34) in Bq.
      rewrite bpow_Zneg in Bq. change (2 ^ 34) with 17179869184 in Bq.
      rewrite FR_2 in Bq. apply Rabs_le_inv in Bq.
      apply Rabs_le. lra.
Qed.

Lemma elapsed_strict (d1 d2 : Z) :
  - 2 ^ 33 < d1 < 2 ^ 33 -> - 2 ^ 33 < d2 < 2 ^ 33 -> d1 < d2 ->
  (elapsed d1 <? elapsed d2)%float = true.
Proof.
  intros H1 H2 L.
  destruct (elapsed_R d1 H1) as [F1 B1]. destruct (elapsed_R d2 H2) as [F2 B2].
  apply ltb_R; try assumption.
  assert (D : (IZR d1 + 1 <= IZR d2)%R) by (rewrite <- plus_IZR; apply IZR_le; lia).
  rewrite tol_eq in *.
  apply Rabs_le_inv in B1. apply Rabs_le_inv in B2. lra.
Qed.

Lemma midpoint_mono (a a' b b' : Z) :
  - 2 ^ 33 < a < 2 ^ 33 -> - 2 ^ 33 < a' < 2 ^ 33 ->
  - 2 ^ 33 < b < 2 ^ 33 -> - 2 ^ 33 < b' < 2 ^ 33 ->
  a <= b -> a' <= b' ->
  ((elapsed a + elapsed a') / 2 <=? (elapsed b + elapsed b') / 2)%float = true.
Proof.
  intros Ha Ha' Hb Hb' L L'.
  destruct (midpoint_R a a' Ha Ha') as [F1 B1].
  destruct (midpoint_R b b' Hb Hb') as [F2 B2].
  apply leb_R; try assumption.
  destruct (Z.eq_dec a b) as [<- | N].
  - destruct (Z.eq_dec a' b') as [<- | N']; [lra|].
    assert (D : (IZR a' + 1 <= IZR b')%R) by (rewrite <- plus_IZR; apply IZR_le; lia).
    apply Rabs_le_inv in B1. apply Rabs_le_inv in B2. lra.
  - assert (D : (IZR a + 1 <= IZR b)%R) by (rewrite <- plus_IZR; apply IZR_le; lia).
    assert (D' : (IZR a' <= IZR b')%R) by (apply IZR_le; lia).
    apply Rabs_le_inv in B1. apply Rabs_le_inv in B2. lra.
Qed.

Lemma midpoint_strict (a a' b b' : Z) :
  - 2 ^ 33 < a < 2 ^ 33 -> - 2 ^ 33 < a' < 2 ^ 33 ->
  - 2 ^ 33 < b < 2 ^ 33 -> - 2 ^ 33 < b' < 2 ^ 33 ->
  a < b -> a' <= b' ->
  ((elapsed a + elapsed a') / 2 <? (elapsed b + elapsed b') / 2)%float = true.
Proof.
  intros Ha Ha' Hb Hb' L L'.
  destruct (midpoint_R a a' Ha Ha') as [F1 B1].
  destruct (midpoint_R b b' Hb Hb') as [F2 B2].
  apply ltb_R; try assumption.
  assert (D : (IZR a + 1 <= IZR b)%R) by (rewrite <- plus_IZR; apply IZR_le; lia).
  assert (D' : (IZR a' <= IZR b')%R) by (apply IZR_le; lia).
  apply Rabs_le_inv in B1. apply Rabs_le_inv in B2. lra.
Qed.

Lemma sorted_lt_nth (l : list Z) (i j : nat) :
  Sorted Z.lt l -> (i < j < List.length l)%nat -> nth i l 0 < nth j l 0.
Proof.
  intros S. apply Sorted_StronglySorted in S; [|exact Z.lt_trans].
  revert i j. induction S as [|x l S IH F]; intros i j H; cbn [List.length] in H; [lia|].
  destruct i as [|i], j as [|j]; cbn [nth]; try lia.
  - rewrite Forall_forall in F. apply F. apply nth_In. lia.
  - apply IH. lia.
Qed.

(** X12. In every row of a series, [time_elapsed] is a finite float within
    1.5e-10 s of the exact quotient (timer - first timer) / 57600, and
    [time_test] is a finite float within 5.6e-10 s of the exact midpoint of
    this row's and the previous tick's elapsed time. *)
Theorem time_columns_accuracy (input : Input.t) (secs : list Z)
    (series : list Sample) (s : Sample) :
  decode_log (Input.FlyWheelLog input) = OK secs ->
  process_attempt input = OK series -> In s series ->
  let t0 := nth 0 secs 0 in
  let t := timer (row s) in
  let t' := nth (label s - 1) secs 0 in
  fin (time_elapsed (row s)) = true
  /\ (Rabs (FR (time_elapsed (row s)) - IZR (t - t0) / 57600)
      <= 5 / 34359738368)%R
  /\ fin (time_test (row s)) = true
  /\ (Rabs (FR (time_test (row s)) - (IZR (t - t0) + IZR (t' - t0)) / 115200)
      <= 19 / 34359738368)%R.
Proof.
  intros D E Hs. cbn zeta.
  destruct (process_attempt_inv input series E) as (secs' & M & D' & _ & _ & ->).
  rewrite D in D'. injection D' as <-.
  pose proof (decode_log_bound _ _ D) as B.
  destruct (series_member input secs M s Hs) as (i & R & _ & ->).
  unfold label. cbn [finish row]. rewrite time_test_eq by lia.
  cbn [mk_row index timer time_elapsed]. unfold col_timer.
  change (col_time_elapsed secs i) with (elapsed (nth i secs 0 - nth 0 secs 0)).
  assert (T1 : - 2 ^ 33 < nth i secs 0 - nth 0 secs 0 < 2 ^ 33)
    by (apply tick32_diff; now apply nth_tick32).
  assert (T2 : - 2 ^ 33 < nth (i - 1) secs 0 - nth 0 secs 0 < 2 ^ 33)
    by (apply tick32_diff; now apply nth_tick32).
  destruct (elapsed_R _ T1) as [F1 B1]. rewrite tol_eq in B1.
  destruct (midpoint_R _ _ T1 T2) as [F2 B2].
  repeat split; assumption.
Qed.

Lemma time_columns_accuracy_witness :
  let t0 := nth 0 secs_even 0 in
  let t := timer (row sample_even_3) in
  let t' := nth (label sample_even_3 - 1) secs_even 0 in
  fin (time_elapsed (row sample_even_3)) = true
  /\ (Rabs (FR (time_elapsed (row sample_even_3)) - IZR (t - t0) / 57600)
      <= 5 / 34359738368)%R
  /\ fin (time_test (row sample_even_3)) = true
  /\ (Rabs (FR (time_test (row sample_even_3)) - (IZR (t - t0) + IZR (t' - t0)) / 115200)
      <= 19 / 34359738368)%R.
Proof.
  apply (time_columns_accuracy attempt_even secs_even series_even sample_even_3).
  - vm_compute. reflexivity.
  - vm_compute. reflexivity.
  - vm_compute. left. reflexivity.
Defined.

(** X13. When the decoded ticks of an attempt are non-decreasing,
    [time_test], the centre of the smoothing windows, is non-decreasing
    across the samples of its series. *)
Theorem time_test_non_decreasing (input : Input.t) (secs : list Z)
    (series : list Sample) :
  decode_log (Input.FlyWheelLog input) = OK secs ->
  Sorted Z.le secs ->
  process_attempt input = OK series ->
  StronglySorted time_test_le series.
Proof.
  intros D S E.
  destruct (process_attempt_inv input series E) as (secs' & M & D' & _ & _ & ->).
  rewrite D in D'. injection D' as <-.
  pose proof (decode_log_bound _ _ D) as B.
  rewrite series_by_labels.
  set (bufs := chunks (Input.FlyWheelLog input)).
  pose proof (series_labels_kept input secs bufs M) as F.
  pose proof (StronglySorted_tl _ _ (filter_seq_sorted (kept input secs bufs M) 0
                                       (List.length secs))) as SS.
  induction SS as [|i l SS IH Fi]; cbn [map]; constructor.
  - apply IH. now inversion F.
  - apply Forall_map. inversion F as [|? ? [Ri _] Fl]; subst.
    rewrite Forall_forall in Fi |- *. intros j Hj. specialize (Fi j Hj).
    unfold time_test_le. cbn [finish row]. rewrite !time_test_eq by lia.
    pose proof (sorted_nth secs i j S ltac:(lia)).
    pose proof (sorted_nth secs (i - 1) (j - 1) S ltac:(lia)).
    apply midpoint_mono; try (apply tick32_diff; now apply nth_tick32); lia.
Qed.

Lemma time_test_non_decreasing_witness : StronglySorted time_test_le series_even.
Proof.
  apply (time_test_non_decreasing attempt_even secs_even series_even).
  - vm_compute. reflexivity.
  - unfold secs_even. repeat constructor; lia.
  - vm_compute. reflexivity.
Defined.

(** X14. When the decoded ticks of an attempt are strictly increasing,
    [time_elapsed] and [time_test] are strictly increasing across the samples
    of its series: no two samples share a time. *)
Theorem times_strictly_increasing (input : Input.t) (secs : list Z)
    (series : list Sample) :
  decode_log (Input.FlyWheelLog input) = OK secs ->
  Sorted Z.lt secs ->
  process_attempt input = OK series ->
  StronglySorted time_lt series.
Proof.
  intros D S E.
  destruct (process_attempt_inv input series E) as (secs' & M & D' & _ & _ & ->).
  rewrite D in D'. injection D' as <-.
  pose proof (decode_log_bound _ _ D) as B.
  rewrite series_by_labels.
  set (bufs := chunks (Input.FlyWheelLog input)).
  pose proof (series_labels_kept input secs bufs M) as F.
  pose proof (StronglySorted_tl _ _ (filter_seq_sorted (kept input secs bufs M) 0
                                       (List.length secs))) as SS.
  induction SS as [|i l SS IH Fi]; cbn [map]; constructor.
  - apply IH. now inversion F.
  - apply Forall_map. inversion F as [|? ? [Ri _] Fl]; subst.
    rewrite Forall_forall in Fi |- *. intros j Hj. specialize (Fi j Hj).
    pose proof (sorted_lt_nth secs i j S ltac:(lia)).
    pose proof (sorted_lt_nth secs (i - 1) (j - 1) S ltac:(lia)).
    unfold time_lt. cbn [finish row]. rewrite !time_test_eq by lia.
    rewrite !time_elapsed_eq. split.
    + apply elapsed_strict; try (apply tick32_diff; now apply nth_tick32); lia.
    + apply midpoint_strict; try (apply tick32_diff; now apply nth_tick32); lia.
Qed.

Lemma times_strictly_increasing_witness : StronglySorted time_lt series_even.
Proof.
  apply (times_strictly_increasing attempt_even secs_even series_even).
  - vm_compute. reflexivity.
  - unfold secs_even. repeat constructor; lia.
  - vm_compute. reflexivity.
Defined.

End TimeAccuracy.

(** * Round trips between ticks and logs *)

Section RoundTrips.

Lemma is_hex_hex_digit (upper : bool) (d : Z) :
  0 <= d < 16 -> is_hex (Encode.hex_digit upper d) = true.
Proof. intros H. unfold is_hex. now rewrite digit16_hex_digit. Qed.

Lemma encode_chunk_valid (upper : bool) (v : Z) :
  valid_chunk (Encode.encode_chunk upper v) = true.
Proof.
  unfold Encode.encode_chunk, Encode.be_bytes.
  cbn [rev app Encode.hex_encode Encode.hex_byte append].
  assert (D : forall b, 0 <= b mod 256 / 16 < 16 /\ 0 <= b mod 256 mod 16 < 16).
  { intros b. pose proof (Z.mod_pos_bound b 256 ltac:(lia)).
    split; [|apply Z.mod_pos_bound; lia].
    split; [apply Z.div_pos; lia | apply Z.div_lt_upper_bound; lia]. }
  unfold valid_chunk. cbn [String.length Nat.eqb all_hex andb].
  rewrite !is_hex_hex_digit by apply D. reflexivity.
Qed.

(** X15. Decoding a chunk of 8 hex characters and writing the tick back as
    a chunk gives the same hex digits: the chunk itself up to letter case. *)
Theorem hex_to_int_encode_round_trip (s : string) (v : Z) (upper : bool) :
  valid_chunk s = true -> hex_to_int s = OK v ->
  valid_chunk (Encode.encode_chunk upper v) = true
  /\ hex_digits (Encode.encode_chunk upper v) = hex_digits s.
Proof.
  intros Vs E.
  destruct (valid_chunk_digits s Vs)
    as (a0 & a1 & a2 & a3 & a4 & a5 & a6 & a7 & Ds & (A0 & A1 & A2 & A3)
        & (A4 & A5 & A6 & A7) & Es).
  rewrite E in Es. injection Es as Ev.
  assert (R : 0 <= v < 2 ^ 32) by (change (2 ^ 32) with 4294967296; lia).
  pose proof (encode_chunk_decodes upper v R) as Ee.
  split; [apply encode_chunk_valid|].
  destruct (valid_chunk_digits _ (encode_chunk_valid upper v))
    as (b0 & b1 & b2 & b3 & b4 & b5 & b6 & b7 & Db & (B0 & B1 & B2 & B3)
        & (B4 & B5 & B6 & B7) & Eb).
  rewrite Ee in Eb. injection Eb as Eb.
  rewrite Ds, Db.
  assert (a0 = b0 /\ a1 = b1 /\ a2 = b2 /\ a3 = b3 /\ a4 = b4 /\ a5 = b5 /\ a6 = b6 /\ a7 = b7)
    as (-> & -> & -> & -> & -> & -> & -> & ->) by lia.
  reflexivity.
Qed.

Lemma hex_to_int_encode_round_trip_witness :
  valid_chunk (Encode.encode_chunk true 1023410176) = true
  /\ hex_digits (Encode.encode_chunk true 1023410176) = hex_digits "0000003d".
Proof. apply hex_to_int_encode_round_trip; reflexivity. Defined.

Lemma encode_chunk_length (upper : bool) (v : Z) :
  String.length (Encode.encode_chunk upper v) = 8%nat.
Proof. reflexivity. Qed.

Lemma decode_log_chunk (c : string) (v : Z) :
  String.length c = 8%nat -> hex_to_int c = OK v -> decode_log c = OK [v].
Proof.
  intros L E. unfold decode_log, chunks. rewrite L. cbn [Nat.div Nat.divmod fst seq map].
  unfold slice. rewrite L. cbn [Nat.mul Nat.add Nat.min Nat.sub].
  assert (S : substring 0 8 c = c).
  { destruct (length8_inv c L) as (c0 & c1 & c2 & c3 & c4 & c5 & c6 & c7 & ->).
    reflexivity. }
  rewrite S. cbn [mapM]. now rewrite E.
Qed.

(** X16. A log written from a list of 32-bit ticks, in either letter case,
    decodes to exactly those ticks, in order. *)
Theorem decode_log_encode_round_trip (upper : bool) (ticks : list Z) :
  Forall (fun v => 0 <= v < 2 ^ 32) ticks ->
  decode_log (encode_log upper ticks) = OK ticks
  /\ String.length (encode_log upper ticks) = (8 * List.length ticks)%nat.
Proof.
  induction 1 as [|v ticks Hv _ [IH IL]]; cbn [encode_log fold_right].
  - split; reflexivity.
  - fold (encode_log upper ticks). split.
    + pose proof (chunks_app (Encode.encode_chunk upper v) (encode_log upper ticks)
                    eq_refl) as C.
      unfold decode_log in *. rewrite C, mapM_app.
      fold (decode_log (Encode.encode_chunk upper v)).
      rewrite (decode_log_chunk _ v (encode_chunk_length upper v)
                 (encode_chunk_decodes upper v Hv)).
      cbn [bind]. rewrite IH. reflexivity.
    + rewrite string_length_app, IL, encode_chunk_length. cbn [List.length]. lia.
Qed.

Lemma decode_log_encode_round_trip_witness :
  decode_log (encode_log false secs_even) = OK secs_even
  /\ String.length (encode_log false secs_even) = (8 * List.length secs_even)%nat.
Proof.
  apply decode_log_encode_round_trip. unfold secs_even.
  repeat constructor; try lia; reflexivity.
Defined.

End RoundTrips.

(** * Rounding to an integer *)

Section IntegerRounding.

Import Binary64.

Lemma round_half_even_R (m e : Z) :
  0 <= m ->
  0 <= Np.round_half_even m e
  /\ (Rabs (IZR (Np.round_half_even m e) - IZR m * bpow e) <= / 2)%R.
Proof.
  intros Hm. unfold Np.round_half_even.
  destruct (Z.leb_spec 0 e) as [He | He].
  - assert (0 < 2 ^ e) by (apply Z.pow_pos_nonneg; lia).
    split; [nia|]. rewrite mult_IZR, <- bpow_IZR by assumption.
    replace (IZR m * bpow e - IZR m * bpow e)%R with 0%R by ring.
    rewrite Rabs_R0. lra.
  - set (d := 2 ^ (- e)).
    assert (Pd : 0 < d) by (apply Z.pow_pos_nonneg; lia).
    pose proof (Z.div_mod m d ltac:(lia)) as DM.
    pose proof (Z.mod_pos_bound m d Pd) as [R0 R1].
    assert (Q0 : 0 <= m / d) by (apply Z.div_pos; lia).
    set (q := m / d) in *. set (r := m mod d) in *.
    pose proof (bpow_pos e) as Pe.
    assert (I : (IZR d * bpow e = 1)%R).
    { unfold d. rewrite <- bpow_IZR, <- bpow_add by lia.
      replace (- e + e) with 0 by lia. reflexivity. }
    assert (X : (IZR m * bpow e = IZR q + IZR r * bpow e)%R).
    { rewrite DM, plus_IZR, mult_IZR.
      replace ((IZR d * IZR q + IZR r) * bpow e)%R
        with (IZR q * (IZR d * bpow e) + IZR r * bpow e)%R by ring.
      rewrite I. ring. }
    assert (P0 : (0 <= IZR r * bpow e)%R).
    { apply Rmult_le_pos; [now apply IZR_le | lra]. }
    rewrite X.
    destruct (Z.compare_spec (2 * r) d) as [C | C | C].
    + assert (H2 : (2 * (IZR r * bpow e) = 1)%R).
      { rewrite <- I, <- C, mult_IZR. ring. }
      destruct (Z.even q); (split; [lia|]); rewrite ?plus_IZR; apply Rabs_le; lra.
    + assert (H2 : (2 * (IZR r * bpow e) < 1)%R).
      { rewrite <- I. apply IZR_lt in C. rewrite mult_IZR in C.
        replace (2 * (IZR r * bpow e))%R with (2 * IZR r * bpow e)%R by ring.
        apply Rmult_lt_compat_r; assumption. }
      split; [lia|]. apply Rabs_le; lra.
    + assert (H2 : (1 < 2 * (IZR r * bpow e))%R).
      { rewrite <- I. apply IZR_lt in C. rewrite mult_IZR in C.
        replace (2 * (IZR r * bpow e))%R with (2 * IZR r * bpow e)%R by ring.
        apply Rmult_lt_compat_r; assumption. }
      assert (H1 : (IZR r * bpow e < 1)%R).
      { rewrite <- I. apply Rmult_lt_compat_r; [assumption | now apply IZR_lt]. }
      split; [lia|]. rewrite plus_IZR. apply Rabs_le; lra.
Qed.

Lemma cond_Ropp_minus (s : bool) (a b : R) :
  (cond_Ropp s a - cond_Ropp s b)%R = cond_Ropp s (a - b)%R.
Proof. destruct s; cbn; ring. Qed.

(** Python's [round] of a finite float is within 1/2 of it. *)
Lemma py_round_R (x : float) :
  fin x = true ->
  exists n, Np.py_round x = OK n /\ (Rabs (IZR n - FR x) <= / 2)%R.
Proof.
  unfold fin, FR, Np.py_round. destruct (Prim2SF x) as [s| | |s m e]; try discriminate.
  - intros _. exists 0. split; [reflexivity|]. cbn [B2R].
    rewrite Rminus_0_r, Rabs_R0. lra.
  - intros _. eexists. split; [reflexivity|].
    destruct (round_half_even_R (Zpos m) e ltac:(lia)) as [_ B].
    rewrite B2R_finite, cond_Zopp_IZR, cond_Ropp_minus, Rabs_cond_Ropp. exact B.
Qed.

Lemma binary_round_aux_opp (m e : Z) (l : location) :
  binary_round_aux prec emax true m e l = SFopp (binary_round_aux prec emax false m e l).
Proof.
  unfold binary_round_aux.
  destruct (shr_fexp prec emax m e l) as [mrs1 e1].
  destruct (shr_fexp prec emax _ e1 loc_Exact) as [mrs2 e2].
  destruct (shr_m mrs2); try reflexivity. now destruct (e2 <=? emax - prec).
Qed.

Lemma binary_round_opp (m : positive) (e : Z) :
  binary_round prec emax true m e = SFopp (binary_round prec emax false m e).
Proof.
  unfold binary_round. destruct (shl_align m e _) as [mz ez]. apply binary_round_aux_opp.
Qed.

(** The integral float of a non-negative integer below [2^53] with a sign. *)
Lemma signed_integer_float (s : bool) (r : Z) :
  0 <= r < 2 ^ 53 ->
  fin (SF2Prim (binary_normalize prec emax (cond_Zopp s r) 0 s)) = true
  /\ FR (SF2Prim (binary_normalize prec emax (cond_Zopp s r) 0 s))
     = IZR (cond_Zopp s r).
Proof.
  intros H. destruct (Z.eq_dec r 0) as [-> | N].
  - replace (cond_Zopp s 0) with 0 by (now destruct s). cbn [binary_normalize].
    unfold fin, FR. rewrite Prim2SF_SF2Prim by reflexivity. split; reflexivity.
  - destruct (of_uint63_exact r ltac:(lia)) as [F V].
    assert (W : wB = 2 ^ 63) by reflexivity.
    assert (S : Prim2SF (of_uint63 (Uint63.of_Z r)) = binary_normalize prec emax r 0 false).
    { rewrite of_uint63_spec, Uint63.of_Z_spec.
      rewrite Z.mod_small; [reflexivity|]. rewrite W. split; [lia|].
      apply Z.lt_trans with (2 ^ 53); [lia | reflexivity]. }
    destruct s; cbn [cond_Zopp].
    + assert (S' : binary_normalize prec emax (- r) 0 true
                   = Prim2SF (- of_uint63 (Uint63.of_Z r))).
      { rewrite opp_spec, S. destruct r as [|p|p]; try lia. apply binary_round_opp. }
      rewrite S', SF2Prim_Prim2SF, fin_opp, FR_opp, V, opp_IZR. now split.
    + rewrite <- S, SF2Prim_Prim2SF. now split.
Qed.

(** numpy's [rint] of a finite float below [2^52] in magnitude is an
    integral float within 1/2 of it. *)
Lemma rint_R (x : float) :
  fin x = true -> (Rabs (FR x) < bpow 52)%R ->
  fin (Np.rint x) = true
  /\ exists n, FR (Np.rint x) = IZR n /\ (Rabs (IZR n - FR x) <= / 2)%R.
Proof.
  intros F B. unfold Np.rint. unfold fin, FR in F, B.
  destruct (Prim2SF x) as [s| | |s m e] eqn:E; try discriminate F.
  - split; [unfold fin; now rewrite E|]. exists 0. unfold FR. rewrite E. cbn [B2R].
    rewrite Rminus_0_r, Rabs_R0. lra.
  - destruct (Z.leb_spec 0 e) as [He | He].
    + split; [unfold fin; now rewrite E|].
      exists (cond_Zopp s (Zpos m * 2 ^ e)). unfold FR. rewrite E, B2R_finite.
      assert (V : IZR (cond_Zopp s (Zpos m * 2 ^ e))
                  = cond_Ropp s (IZR (Zpos m) * bpow e)).
      { rewrite cond_Zopp_IZR, mult_IZR, <- bpow_IZR by assumption. reflexivity. }
      split; [now rewrite V|]. rewrite V.
      replace (cond_Ropp s (IZR (Zpos m) * bpow e) - cond_Ropp s (IZR (Zpos m) * bpow e))%R
        with 0%R by ring.
      rewrite Rabs_R0. lra.
    + destruct (round_half_even_R (Zpos m) e ltac:(lia)) as [R0 RB].
      rewrite B2R_finite, Rabs_cond_Ropp in B.
      pose proof (mag_pos m e) as Pm. rewrite Rabs_pos_eq in B by lra.
      rewrite (bpow_nat 52 4503599627370496 ltac:(lia) eq_refl) in B.
      assert (R1 : Np.round_half_even (Zpos m) e < 2 ^ 53).
      { apply lt_IZR. apply Rabs_le_inv in RB.
        change (2 ^ 53) with 9007199254740992. lra. }
      destruct (signed_integer_float s (Np.round_half_even (Zpos m) e) ltac:(lia))
        as [F' V'].
      split; [assumption|].
      exists (cond_Zopp s (Np.round_half_even (Zpos m) e)). split; [assumption|].
      unfold FR. rewrite E, B2R_finite, cond_Zopp_IZR, cond_Ropp_minus, Rabs_cond_Ropp.
      exact RB.
Qed.

End IntegerRounding.

(** * The Magnets value *)

Section MagnetsValue.

Import Binary64.

Lemma FR_52 : FR 52 = 52%R.
Proof.
  unfold FR. change (Prim2SF 52) with (S754_finite false 7318349394477056 (-47)).
  cbn [B2R cond_Zopp]. rewrite bpow_Zneg.
  change (2 ^ 47) with 140737488355328. lra.
Qed.

Lemma FR_10000 : FR 10000 = 10000%R.
Proof.
  unfold FR. change (Prim2SF 10000) with (S754_finite false 5497558138880000 (-39)).
  cbn [B2R cond_Zopp]. rewrite bpow_Zneg.
  change (2 ^ 39) with 549755813888. lra.
Qed.

Lemma FR_14 : FR 14 = 14%R.
Proof.
  unfold FR. change (Prim2SF 14) with (S754_finite false 7881299347898368 (-49)).
  cbn [B2R cond_Zopp]. rewrite bpow_Zneg.
  change (2 ^ 49) with 562949953421312. lra.
Qed.

Lemma Rinv_bounds (x lo hi : R) :
  (0 < lo)%R -> (lo <= x <= hi)%R -> (/ hi <= / x <= / lo)%R.
Proof.
  intros L [H1 H2]. split; apply Rinv_le_contravar; lra.
Qed.

(** [52 * SamplingMagnets / 10000] for a value between 1 and [2^20]. *)
Lemma magnets_divisor_R (sm : float) :
  fin sm = true -> (1 <= FR sm <= 1048576)%R ->
  fin (52 * sm / 10000) = true
  /\ (Rabs (FR (52 * sm / 10000) - 52 * FR sm / 10000) <= / 100000000000)%R.
Proof.
  intros F [L U].
  destruct (mul_R 52 sm 26) as [Fp Bp]; try assumption.
  - reflexivity.
  - rewrite FR_52, !Rabs_pos_eq by lra.
    rewrite (bpow_nat 26 67108864 ltac:(lia) eq_refl). lra.
  - cbn. lia.
  - change (fexp prec emax 26) with (-27) in Bp.
    rewrite bpow_Zneg in Bp. change (2 ^ 27) with 134217728 in Bp.
    rewrite FR_52 in Bp. apply Rabs_le_inv in Bp.
    destruct (div_R (52 * sm) 10000 26 13) as [Fd Bd]; try assumption.
    + now exists false, 5497558138880000%positive, (-39).
    + rewrite (bpow_nat 26 67108864 ltac:(lia) eq_refl). apply Rabs_def1; lra.
    + rewrite FR_10000, Rabs_pos_eq by lra.
      rewrite (bpow_nat 13 8192 ltac:(lia) eq_refl). lra.
    + cbn. lia.
    + split; [assumption|].
      change (fexp prec emax (26 - 13)) with (-40) in Bd.
      rewrite bpow_Zneg in Bd. change (2 ^ 40) with 1099511627776 in Bd.
      rewrite FR_10000 in Bd. apply Rabs_le_inv in Bd.
      apply Rabs_le. lra.
Qed.

(** X17. For a finite sampling-magnets value [s] between 1 and [2^20] the
    Magnets value is computed without error and is within 1/2 + 2^-16 of
    35000 / (13 s), the exact value of 14 / (52 s / 10000).  It is 14 for
    [s] from 186 to 199 and 0 for [s] from 5385 on. *)
Theorem magnets_accuracy (sm : float) :
  fin sm = true -> (1 <= FR sm <= 1048576)%R ->
  exists M,
    magnets sm = OK M
    /\ (Rabs (IZR M - 35000 / (13 * FR sm)) <= / 2 + / 65536)%R
    /\ ((186 <= FR sm <= 199)%R -> M = 14)
    /\ ((5385 <= FR sm)%R -> M = 0).
Proof.
  intros F [L U].
  destruct (magnets_divisor_R sm F (conj L U)) as [Fd Bd].
  set (d := (52 * sm / 10000)%float) in *.
  set (s := FR sm) in *.
  apply Rabs_le_inv in Bd.
  assert (D0 : (/ 200 <= FR d)%R) by lra.
  assert (NZ : FR d <> 0%R) by lra.
  assert (E0 : (d =? 0)%float = false).
  { apply eqb_R; [assumption | reflexivity|].
    replace (FR 0) with 0%R by reflexivity. assumption. }
  destruct (div_R 14 d 4 (-8)) as [Fq Bq].
  - reflexivity.
  - now apply nonzero_float.
  - rewrite FR_14, Rabs_pos_eq by lra.
    rewrite (bpow_nat 4 16 ltac:(lia) eq_refl). lra.
  - rewrite bpow_Zneg. change (2 ^ 8) with 256. rewrite Rabs_pos_eq by lra. lra.
  - cbn. lia.
  - change (fexp prec emax (4 - -8)) with (-41) in Bq.
    rewrite bpow_Zneg in Bq. change (2 ^ 41) with 2199023255552 in Bq.
    rewrite FR_14 in Bq. apply Rabs_le_inv in Bq.
    destruct (py_round_R (14 / d) Fq) as (M & EM & BM).
    apply Rabs_le_inv in BM.
    (* the exact quotient *)
    set (d0 := (52 * s / 10000)%R) in *.
    assert (P0 : (/ 200 <= d0)%R) by (unfold d0; lra).
    assert (T : (35000 / (13 * s) = 14 / d0)%R) by (unfold d0; field; lra).
    assert (Ia : (0 < / FR d <= 200)%R).
    { split; [apply Rinv_0_lt_compat; lra|].
      replace 200%R with (/ / 200)%R by lra. apply Rinv_le_contravar; lra. }
    assert (Ib : (0 < / d0 <= 200)%R).
    { split; [apply Rinv_0_lt_compat; lra|].
      replace 200%R with (/ / 200)%R by lra. apply Rinv_le_contravar; lra. }
    assert (Q : (14 / FR d - 14 / d0 = 14 * (d0 - FR d) * (/ FR d * / d0))%R)
      by (field; lra).
    assert (PI : (0 < / FR d * / d0 <= 40000)%R).
    { split; [apply Rmult_lt_0_compat; lra|].
      replace 40000%R with (200 * 200)%R by lra.
      apply Rmult_le_compat; lra. }
    assert (QB : (Rabs (14 / FR d - 14 / d0) <= / 100000)%R).
    { rewrite Q, Rabs_mult, (Rabs_pos_eq (/ FR d * / d0)) by lra.
      assert (A : (Rabs (14 * (d0 - FR d)) <= 14 / 100000000000)%R)
        by (apply Rabs_le; lra).
      pose proof (Rabs_pos (14 * (d0 - FR d))) as A0.
      apply Rle_trans with (14 / 100000000000 * 40000)%R; [|lra].
      apply Rmult_le_compat; lra. }
    apply Rabs_le_inv in QB.
    assert (BT : (Rabs (IZR M - 35000 / (13 * s)) <= / 2 + / 65536)%R).
    { rewrite T. apply Rabs_le. lra. }
    exists M. unfold magnets. fold d. rewrite E0.
    split; [exact EM|]. split; [exact BT|].
    apply Rabs_le_inv in BT. split.
    + intros [S1 S2].
      assert (I : (/ (13 * 199) <= / (13 * s) <= / (13 * 186))%R)
        by (apply Rinv_bounds; lra).
      unfold Rdiv in BT.
      assert (13 < IZR M < 15)%R as [M1 M2] by lra.
      apply lt_IZR in M1, M2. lia.
    + intros S1.
      assert (I : (/ (13 * 1048576) <= / (13 * s) <= / (13 * 5385))%R)
        by (apply Rinv_bounds; lra).
      unfold Rdiv in BT.
      assert (-1 < IZR M < 1)%R as [M1 M2] by lra.
      apply lt_IZR in M1, M2. lia.
Qed.

Lemma magnets_accuracy_witness :
  exists M,
    magnets sampling_14 = OK M
    /\ (Rabs (IZR M - 35000 / (13 * FR sampling_14)) <= / 2 + / 65536)%R
    /\ ((186 <= FR sampling_14 <= 199)%R -> M = 14)
    /\ ((5385 <= FR sampling_14)%R -> M = 0).
Proof.
  assert (V : FR sampling_14 = (6765954752682394 / 35184372088832)%R).
  { unfold FR, sampling_14.
    change (Prim2SF 0x1.809999999999ap+7)
      with (S754_finite false 6765954752682394 (-45)).
    cbn [B2R cond_Zopp]. rewrite bpow_Zneg.
    change (2 ^ 45) with 35184372088832. lra. }
  apply magnets_accuracy; [reflexivity|]. rewrite V. lra.
Defined.

End MagnetsValue.

(** * Tick differences and revolutions per minute *)

Section Revolutions.

Import Binary64.

Lemma FR_48384000 : FR 48384000 = 48384000%R.
Proof.
  unfold FR. change (Prim2SF 48384000) with (S754_finite false 6493990551552000 (-27)).
  cbn [B2R cond_Zopp]. rewrite bpow_Zneg.
  change (2 ^ 27) with 134217728. lra.
Qed.

Lemma tick32_53 (t : Z) : tick32 t -> - 2 ^ 53 < t < 2 ^ 53.
Proof. unfold tick32. assert (2 ^ 32 < 2 ^ 53) by reflexivity. lia. Qed.

(** [time_diff] is the exact difference of two consecutive ticks. *)
Lemma time_diff_R (secs : list Z) (i : nat) :
  Forall tick32 secs -> (1 <= i)%nat ->
  fin (col_time_diff secs i) = true
  /\ FR (col_time_diff secs i) = IZR (nth i secs 0 - nth (i - 1) secs 0).
Proof.
  intros B H. unfold col_time_diff, diff, shift, col_timerF, col_timer.
  destruct (Nat.ltb_spec i 1) as [L|_]; [lia|].
  pose proof (nth_tick32 secs i B) as T1. pose proof (nth_tick32 secs (i - 1) B) as T2.
  destruct (of_int_exact _ (tick32_53 _ T1)) as [F1 V1].
  destruct (of_int_exact _ (tick32_53 _ T2)) as [F2 V2].
  apply sub_int; try assumption.
  pose proof (tick32_diff _ _ T1 T2). assert (2 ^ 33 < 2 ^ 53) by reflexivity. lia.
Qed.

Lemma wrap64_small (z : Z) : - 2 ^ 63 <= z < 2 ^ 63 -> Np.wrap64 z = z.
Proof.
  intros H. unfold Np.wrap64. rewrite Z.mod_small; [lia|].
  change (2 ^ 64) with (2 * 2 ^ 63). lia.
Qed.

(** [rpm] for a Magnets value between 1 and [2^14] and a tick difference
    that is not zero. *)
Lemma rpm_R (secs : list Z) (M : Z) (i : nat) :
  Forall tick32 secs -> (1 <= i)%nat -> 1 <= M <= 16384 ->
  nth i secs 0 - nth (i - 1) secs 0 <> 0 ->
  fin (col_rpm secs M i) = true
  /\ exists n,
      FR (col_rpm secs M i) = IZR n
      /\ (Rabs (IZR n - 48384000 / IZR (52 * M * (nth i secs 0 - nth (i - 1) secs 0))%Z)
          <= / 2 + 5 / 134217728)%R.
Proof.
  intros B H HM HD. unfold col_rpm.
  destruct (time_diff_R secs i B H) as [Ft Vt].
  set (D := nth i secs 0 - nth (i - 1) secs 0) in *.
  assert (TD : - 2 ^ 33 < D < 2 ^ 33).
  { apply tick32_diff; now apply nth_tick32. }
  change (2 ^ 33) with 8589934592 in TD.
  rewrite wrap64_small
    by (split; [apply Z.le_trans with 0; [discriminate | lia]
               | apply Z.lt_trans with (2 ^ 53); [change (2 ^ 53) with 9007199254740992; lia
                                                 | reflexivity]]).
  destruct (of_int_exact (M * 52)) as [Fm Vm];
    [change (2 ^ 53) with 9007199254740992; lia|].
  destruct (mul_int (Np.of_int (M * 52)) (col_time_diff secs i) (M * 52) D)
    as [Fp Vp]; try assumption.
  - change (2 ^ 53) with 9007199254740992. lia.
  - change (2 ^ 53) with 9007199254740992. lia.
  - change (2 ^ 53) with 9007199254740992. rewrite Z.abs_mul.
    apply Z.le_lt_trans with (851968 * 8589934592); [|reflexivity].
    apply Z.mul_le_mono_nonneg; lia.
  - set (p := (Np.of_int (M * 52) * col_time_diff secs i)%float) in *.
    replace (M * 52 * D) with (52 * M * D) in Vp by ring.
    assert (K1 : (1 <= Rabs (IZR (52 * M * D)))%R).
    { rewrite <- abs_IZR. apply IZR_le.
      rewrite !Z.abs_mul. assert (1 <= Z.abs D) by lia.
      assert (1 <= Z.abs M) by lia. change (Z.abs 52) with 52. nia. }
    assert (NZ : FR p <> 0%R).
    { rewrite Vp. intros E. rewrite E, Rabs_R0 in K1. lra. }
    destruct (div_R 48384000 p 26 0) as [Fq Bq].
    + reflexivity.
    + now apply nonzero_float.
    + rewrite FR_48384000, Rabs_pos_eq by lra.
      rewrite (bpow_nat 26 67108864 ltac:(lia) eq_refl). lra.
    + rewrite Vp. change (bpow 0) with 1%R. assumption.
    + cbn. lia.
    + change (fexp prec emax (26 - 0)) with (-27) in Bq.
      rewrite bpow_Zneg in Bq. change (2 ^ 27) with 134217728 in Bq.
      rewrite FR_48384000, Vp in Bq.
      set (K := IZR (52 * M * D)) in *.
      set (q := (48384000 / p)%float) in *.
      (* the exact quotient is at most 48384000 in magnitude *)
      assert (KN : K <> 0%R) by (intros E; rewrite E, Rabs_R0 in K1; lra).
      assert (QB : (Rabs (48384000 / K) <= 48384000)%R).
      { unfold Rdiv. rewrite Rabs_mult, Rabs_inv, (Rabs_pos_eq 48384000) by lra.
        assert (0 < / Rabs K <= 1)%R.
        { split; [apply Rinv_0_lt_compat; lra|].
          replace 1%R with (/ 1)%R by lra. apply Rinv_le_contravar; lra. }
        nra. }
      apply Rabs_le_inv in QB. pose proof Bq as Bq'. apply Rabs_le_inv in Bq'.
      destruct (rint_R q Fq) as [Fr (n & Vn & Bn)].
      * rewrite (bpow_nat 52 4503599627370496 ltac:(lia) eq_refl).
        apply Rabs_def1; lra.
      * split; [assumption|]. exists n. split; [assumption|].
        apply Rabs_le_inv in Bn. apply Rabs_le. lra.
Qed.

(** X18. In every row of a series [time_diff] is exactly the difference
    between the row's tick and the tick before it: the float subtraction
    loses nothing. *)
Theorem time_diff_exact (input : Input.t) (secs : list Z)
    (series : list Sample) (s : Sample) :
  decode_log (Input.FlyWheelLog input) = OK secs ->
  process_attempt input = OK series -> In s series ->
  fin (time_diff (row s)) = true
  /\ FR (time_diff (row s)) = IZR (timer (row s) - nth (label s - 1) secs 0).
Proof.
  intros D E Hs.
  destruct (process_attempt_inv input series E) as (secs' & M & D' & _ & _ & ->).
  rewrite D in D'. injection D' as <-.
  pose proof (decode_log_bound _ _ D) as B.
  destruct (series_member input secs M s Hs) as (i & R & _ & ->).
  unfold label. cbn [finish row mk_row index timer time_diff]. unfold col_timer.
  apply time_diff_R; [assumption | lia].
Qed.

Lemma time_diff_exact_witness :
  fin (time_diff (row sample_even_3)) = true
  /\ FR (time_diff (row sample_even_3))
     = IZR (timer (row sample_even_3) - nth (label sample_even_3 - 1) secs_even 0).
Proof.
  apply (time_diff_exact attempt_even secs_even series_even sample_even_3).
  - vm_compute. reflexivity.
  - vm_compute. reflexivity.
  - vm_compute. left. reflexivity.
Defined.

(** X19. In a row whose tick differs from the tick before it, of an attempt
    with a Magnets value between 1 and 16384, [rpm] is a finite whole number
    within 1/2 + 5/2^27 of 48384000 / (52 * Magnets * tick difference). *)
Theorem rpm_accuracy (input : Input.t) (secs : list Z)
    (series : list Sample) (s : Sample) :
  decode_log (Input.FlyWheelLog input) = OK secs ->
  process_attempt input = OK series -> In s series ->
  let M := Magnets (row s) in
  let dt := timer (row s) - nth (label s - 1) secs 0 in
  1 <= M <= 16384 -> dt <> 0 ->
  fin (rpm (row s)) = true
  /\ exists n,
      FR (rpm (row s)) = IZR n
      /\ (Rabs (IZR n - 48384000 / IZR (52 * M * dt)%Z) <= / 2 + 5 / 134217728)%R.
Proof.
  intros D E Hs. cbn zeta.
  destruct (process_attempt_inv input series E) as (secs' & M & D' & _ & _ & ->).
  rewrite D in D'. injection D' as <-.
  pose proof (decode_log_bound _ _ D) as B.
  destruct (series_member input secs M s Hs) as (i & R & _ & ->).
  unfold label. cbn [finish row mk_row index timer rpm Magnets]. unfold col_timer.
  intros HM HD. apply rpm_R; try assumption. lia.
Qed.

Lemma rpm_accuracy_witness :
  let M := Magnets (row sample_even_3) in
  let dt := timer (row sample_even_3) - nth (label sample_even_3 - 1) secs_even 0 in
  fin (rpm (row sample_even_3)) = true
  /\ exists n,
      FR (rpm (row sample_even_3)) = IZR n
      /\ (Rabs (IZR n - 48384000 / IZR (52 * M * dt)%Z) <= / 2 + 5 / 134217728)%R.
Proof.
  apply (rpm_accuracy attempt_even secs_even series_even sample_even_3).
  - vm_compute. reflexivity.
  - vm_compute. reflexivity.
  - vm_compute. left. reflexivity.
  - vm_compute. split; discriminate.
  - vm_compute. discriminate.
Defined.

End Revolutions.

(** * The recorded time of the last tick *)

Section RecordedTime.

Import Binary64.

Lemma SFsub_diag (x : spec_float) :
  is_fin x = true -> SFsub prec emax x x = S754_zero false.
Proof.
  destruct x as [s| | |s m e]; try discriminate; intros _; cbn [SFsub].
  - now destruct s.
  - now rewrite Z.sub_diag.
Qed.

(** A finite float minus itself is [+0.0]. *)
Lemma sub_diag (x : float) : fin x = true -> (x - x)%float = 0%float.
Proof.
  intros F. rewrite <- (SF2Prim_Prim2SF (x - x)), sub_spec.
  unfold fin in F. change SF64sub with (SFsub prec emax).
  now rewrite (SFsub_diag _ F).
Qed.

(** [+0.0] added to anything but [-0.0] changes nothing. *)
Lemma add_zero_l (y : float) : y <> (- 0)%float -> (0 + y)%float = y.
Proof.
  intros N. rewrite <- (SF2Prim_Prim2SF (0 + y)), add_spec.
  change (Prim2SF 0) with (S754_zero false).
  destruct (Prim2SF y) as [[|]| | |s m e] eqn:E.
  - exfalso. apply N. rewrite <- (SF2Prim_Prim2SF y), E. reflexivity.
  - rewrite <- (SF2Prim_Prim2SF y), E. reflexivity.
  - rewrite <- (SF2Prim_Prim2SF y), E. reflexivity.
  - rewrite <- (SF2Prim_Prim2SF y), E. reflexivity.
  - rewrite <- (SF2Prim_Prim2SF y), E. reflexivity.
Qed.

(** X20. The row of the last tick of a log, when it reaches the series,
    has [time_recorded] equal to the attempt's duration rounded to 2
    decimals (for any duration but [-0.0]). *)
Theorem time_recorded_last (input : Input.t) (secs : list Z)
    (series : list Sample) (s : Sample) :
  decode_log (Input.FlyWheelLog input) = OK secs ->
  process_attempt input = OK series -> In s series ->
  label s = (List.length secs - 1)%nat ->
  Input.Duration input <> (- 0)%float ->
  time_recorded (row s) = Np.round2 (Input.Duration input).
Proof.
  intros D E Hs L N.
  destruct (process_attempt_inv input series E) as (secs' & M & D' & _ & _ & ->).
  rewrite D in D'. injection D' as <-.
  pose proof (decode_log_bound _ _ D) as B.
  destruct (series_member input secs M s Hs) as (i & R & _ & ->).
  unfold label in L. cbn [finish row mk_row index time_recorded] in L |- *.
  unfold col_time_recorded. rewrite <- L. f_equal.
  change (col_time_elapsed secs i) with (elapsed (nth i secs 0 - nth 0 secs 0)).
  destruct (elapsed_R (nth i secs 0 - nth 0 secs 0)) as [F _];
    [apply tick32_diff; now apply nth_tick32|].
  rewrite (sub_diag _ F). now apply add_zero_l.
Qed.

Lemma time_recorded_last_witness :
  time_recorded (row (finish (res_df_of attempt_even secs_even 14)
                        (mk_row attempt_even secs_even (chunks log_even) 14 5%nat)))
  = Np.round2 (Input.Duration attempt_even).
Proof.
  apply (time_recorded_last attempt_even secs_even series_even).
  - vm_compute. reflexivity.
  - vm_compute. reflexivity.
  - vm_compute. right. right. left. reflexivity.
  - reflexivity.
  - intros H. apply (f_equal Prim2SF) in H. vm_compute in H. discriminate H.
Defined.

End RecordedTime.

(** * Uniform rotation *)

Section UniformRotation.

Import Binary64.

Lemma SFcompare_Eq_finite (s1 s2 : bool) (m1 m2 : positive) (e1 e2 : Z) :
  SFcompare (S754_finite s1 m1 e1) (S754_finite s2 m2 e2) = Some Eq ->
  S754_finite s1 m1 e1 = S754_finite s2 m2 e2.
Proof.
  cbn [SFcompare]. intros H.
  destruct s1, s2; try discriminate H;
    destruct (Z.compare_spec e1 e2) as [-> | |]; try discriminate H;
    change (Pos.compare_cont Eq m1 m2) with (Pos.compare m1 m2) in H;
    destruct (Pos.compare_spec m1 m2) as [-> | |]; try discriminate H; reflexivity.
Qed.

(** Two finite floats with the same non-zero value are the same float. *)
Lemma FR_inj (x y : float) :
  fin x = true -> fin y = true -> FR x = FR y -> FR x <> 0%R -> x = y.
Proof.
  unfold fin, FR. intros Fx Fy E N.
  rewrite <- (SF2Prim_Prim2SF x), <- (SF2Prim_Prim2SF y). f_equal.
  pose proof (Prim2SF_valid x) as Vx. pose proof (Prim2SF_valid y) as Vy.
  destruct (SFcompare_R _ _ Vx Vy Fx Fy) as (_ & C & _). specialize (C E).
  destruct (nonzero_finite _ Fx N) as (s1 & m1 & e1 & E1).
  destruct (nonzero_finite _ Fy ltac:(now rewrite <- E)) as (s2 & m2 & e2 & E2).
  rewrite E1, E2 in *. now apply SFcompare_Eq_finite.
Qed.

(** The square of a non-zero tick difference is a finite float, at least 1. *)
Lemma square_R (d : float) (D : Z) :
  fin d = true -> FR d = IZR D -> D <> 0 -> - 2 ^ 33 < D < 2 ^ 33 ->
  fin (d * d) = true /\ (1 <= FR (d * d))%R.
Proof.
  intros F V N B. change (2 ^ 33) with 8589934592 in B.
  destruct (Z_lt_le_dec (Z.abs D) (2 ^ 26)) as [S | L].
  - change (2 ^ 26) with 67108864 in S.
    destruct (mul_int d d D D F F V V) as [Fm Vm];
      try (change (2 ^ 53) with 9007199254740992; lia).
    + change (2 ^ 53) with 9007199254740992. rewrite Z.abs_mul.
      apply Z.le_lt_trans with (67108864 * 67108864); [|reflexivity].
      apply Z.mul_le_mono_nonneg; lia.
    + split; [assumption|]. rewrite Vm. apply IZR_le. nia.
  - change (2 ^ 26) with 67108864 in L.
    assert (A : (67108864 <= Rabs (FR d) < 8589934592)%R).
    { rewrite V, <- abs_IZR. split; [apply IZR_le | apply IZR_lt]; lia. }
    destruct (mul_R d d 67 F F) as [Fm Bm].
    + rewrite (bpow_nat 67 147573952589676412928 ltac:(lia) eq_refl).
      apply Rlt_le_trans with (8589934592 * 8589934592)%R; [|lra].
      apply Rmult_le_0_lt_compat; lra.
    + cbn. lia.
    + split; [assumption|].
      change (fexp prec emax 67) with 14 in Bm.
      rewrite (bpow_nat 14 16384 ltac:(lia) eq_refl) in Bm.
      apply Rabs_le_inv in Bm.
      assert (Q : (67108864 * 67108864 <= FR d * FR d)%R).
      { replace (FR d * FR d)%R with (Rabs (FR d) * Rabs (FR d))%R
          by (rewrite <- Rabs_mult; apply Rabs_pos_eq, Rle_0_sqr).
        apply Rmult_le_compat; lra. }
      lra.
Qed.

Lemma mul_zero_r (x : float) : fin x = true -> (x * 0 =? 0)%float = true.
Proof.
  unfold fin. intros F. rewrite eqb_spec, mul_spec.
  change (Prim2SF 0) with (S754_zero false).
  destruct (Prim2SF x) as [s| | |s m e]; try discriminate F; reflexivity.
Qed.

Lemma FR_kinetic_constant :
  FR (4 * Np.pi_sq * 191102976000000 * inertia) = 6865443213686782%R.
Proof.
  unfold FR.
  change (Prim2SF (4 * Np.pi_sq * 191102976000000 * inertia))
    with (S754_finite false 6865443213686782 0).
  cbn [B2R cond_Zopp]. change (bpow 0) with 1%R. lra.
Qed.

(** [power_kinetic] when the last two tick gaps are equal and not zero. *)
Lemma power_kinetic_uniform_R (secs : list Z) (M : Z) (i : nat) :
  Forall tick32 secs -> (2 <= i)%nat -> 1 <= M <= 1024 ->
  nth i secs 0 - nth (i - 1) secs 0 = nth (i - 1) secs 0 - nth (i - 2) secs 0 ->
  nth i secs 0 - nth (i - 1) secs 0 <> 0 ->
  (col_power_kinetic secs M i =? 0)%float = true.
Proof.
  intros B H HM U N. unfold col_power_kinetic, shift, col_timerF, col_timer.
  destruct (Nat.ltb_spec i 1) as [L|_]; [lia|].
  destruct (Nat.ltb_spec i 2) as [L|_]; [lia|].
  pose proof (nth_tick32 secs i B) as T0.
  pose proof (nth_tick32 secs (i - 1) B) as T1.
  pose proof (nth_tick32 secs (i - 2) B) as T2.
  set (t0 := nth i secs 0) in *. set (t1 := nth (i - 1) secs 0) in *.
  set (t2 := nth (i - 2) secs 0) in *.
  destruct (of_int_exact _ (tick32_53 _ T0)) as [F0 V0].
  destruct (of_int_exact _ (tick32_53 _ T1)) as [F1 V1].
  destruct (of_int_exact _ (tick32_53 _ T2)) as [F2 V2].
  assert (S53 : 2 ^ 33 < 2 ^ 53) by reflexivity.
  pose proof (tick32_diff _ _ T0 T1) as D01.
  pose proof (tick32_diff _ _ T1 T2) as D12.
  pose proof (tick32_diff _ _ T0 T2) as D02.
  destruct (sub_int _ _ t0 t1 F0 F1 V0 V1 ltac:(lia)) as [Fa Va].
  destruct (sub_int _ _ t1 t2 F1 F2 V1 V2 ltac:(lia)) as [Fb Vb].
  destruct (sub_int _ _ t0 t2 F0 F2 V0 V2 ltac:(lia)) as [Fc Vc].
  (* the two gaps are the same float *)
  assert (E : (Np.of_int t1 - Np.of_int t2 = Np.of_int t0 - Np.of_int t1)%float).
  { apply FR_inj; try assumption.
    - rewrite Va, Vb. now rewrite U.
    - rewrite Vb, <- U. intros Z. apply eq_IZR in Z. contradiction. }
  rewrite E.
  set (d := (Np.of_int t0 - Np.of_int t1)%float) in *.
  destruct (square_R d (t0 - t1) Fa Va N D01) as [Fs Bs].
  assert (Fi : fin (1 / (d * d)) = true).
  { destruct (div_R 1 (d * d) 1 0) as [Fi _]; try assumption.
    - reflexivity.
    - apply nonzero_float; [assumption | lra].
    - replace (FR 1) with 1%R.
      + rewrite Rabs_pos_eq, bpow_1 by lra. lra.
      + unfold FR. change (Prim2SF 1) with (S754_finite false 4503599627370496 (-52)).
        cbn [B2R cond_Zopp]. rewrite bpow_Zneg.
        change (2 ^ 52) with 4503599627370496. lra.
    - change (bpow 0) with 1%R. rewrite Rabs_pos_eq; lra.
    - cbn. lia. }
  rewrite (sub_diag _ Fi).
  apply mul_zero_r.
  (* the factor in front is finite *)
  assert (HM2 : 1 <= M ^ 2 <= 1048576).
  { change (M ^ 2) with (M * (M * 1)). nia. }
  rewrite wrap64_small
    by (split; [apply Z.le_trans with 0; [discriminate | lia]
               | apply Z.lt_trans with (2 ^ 53); [change (2 ^ 53) with 9007199254740992; lia
                                                 | reflexivity]]).
  destruct (of_int_exact (M ^ 2)) as [Fm Vm];
    [change (2 ^ 53) with 9007199254740992; lia|].
  change (2 ^ 33) with 8589934592 in D02.
  destruct (mul_int (Np.of_int (M ^ 2)) (Np.of_int t0 - Np.of_int t2) (M ^ 2) (t0 - t2))
    as [Fp Vp]; try assumption.
  - change (2 ^ 53) with 9007199254740992. lia.
  - change (2 ^ 53) with 9007199254740992. lia.
  - change (2 ^ 53) with 9007199254740992. rewrite Z.abs_mul.
    apply Z.le_lt_trans with (1048576 * 8589934591); [|reflexivity].
    apply Z.mul_le_mono_nonneg; lia.
  - assert (K1 : (1 <= Rabs (IZR (M ^ 2 * (t0 - t2))))%R).
    { rewrite <- abs_IZR. apply IZR_le. rewrite Z.abs_mul.
      assert (1 <= Z.abs (t0 - t2)) by lia. assert (1 <= Z.abs (M ^ 2)) by lia. nia. }
    destruct (div_R (4 * Np.pi_sq * 191102976000000 * inertia)
                (Np.of_int (M ^ 2) * (Np.of_int t0 - Np.of_int t2)) 53 0) as [Fq _].
    + reflexivity.
    + apply nonzero_float; [assumption|]. rewrite Vp. intros Z.
      rewrite Z, Rabs_R0 in K1. lra.
    + rewrite FR_kinetic_constant, Rabs_pos_eq by lra.
      rewrite (bpow_nat 53 9007199254740992 ltac:(lia) eq_refl). lra.
    + rewrite Vp. change (bpow 0) with 1%R. assumption.
    + cbn. lia.
    + assumption.
Qed.

(** X21. Uniform rotation carries no kinetic power: in a row whose last two
    tick gaps are equal and not zero, of an attempt with a Magnets value
    between 1 and 1024, [power_kinetic] is zero. *)
Theorem power_kinetic_uniform (input : Input.t) (secs : list Z)
    (series : list Sample) (s : Sample) :
  decode_log (Input.FlyWheelLog input) = OK secs ->
  process_attempt input = OK series -> In s series ->
  let t := fun k => nth (label s - k) secs 0 in
  1 <= Magnets (row s) <= 1024 ->
  t 0%nat - t 1%nat = t 1%nat - t 2%nat -> t 0%nat - t 1%nat <> 0 ->
  (power_kinetic (row s) =? 0)%float = true.
Proof.
  intros D E Hs. cbn zeta.
  destruct (process_attempt_inv input series E) as (secs' & M & D' & _ & _ & ->).
  rewrite D in D'. injection D' as <-.
  pose proof (decode_log_bound _ _ D) as B.
  destruct (series_member input secs M s Hs) as (i & R & _ & ->).
  unfold label. cbn [finish row mk_row index power_kinetic Magnets].
  rewrite Nat.sub_0_r. intros HM U N.
  apply power_kinetic_uniform_R; try assumption. lia.
Qed.

Lemma power_kinetic_uniform_witness :
  (power_kinetic (row sample_even_3) =? 0)%float = true.
Proof.
  apply (power_kinetic_uniform attempt_even secs_even series_even sample_even_3).
  - vm_compute. reflexivity.
  - vm_compute. reflexivity.
  - vm_compute. left. reflexivity.
  - vm_compute. split; discriminate.
  - vm_compute. reflexivity.
  - vm_compute. discriminate.
Defined.

End UniformRotation.

(** * The sign of the brake power *)

Section BrakePower.

Import Binary64.

Lemma binary_round_aux_nonneg (m e : Z) (l : location) :
  0 <= m -> nonneg (binary_round_aux prec emax false m e l) = true.
Proof.
  intros H. destruct (binary_round_aux_spec false m e l H) as (m' & k & -> & M0 & _).
  unfold SFmake. destruct m' as [|p|p]; [reflexivity | | lia].
  now destruct (_ <=? _).
Qed.

Lemma SFmul_nonneg (x : spec_float) (m : positive) (e : Z) :
  nonneg x = true -> nonneg (SFmul prec emax x (S754_finite false m e)) = true.
Proof.
  destruct x as [s|s| |s mx ex]; cbn [nonneg SFmul]; try discriminate.
  - reflexivity.
  - now destruct s.
  - destruct s; [discriminate|]. intros _. cbn [xorb].
    apply binary_round_aux_nonneg. lia.
Qed.

Lemma SFdiv_nonneg (x : spec_float) (m : positive) (e : Z) :
  nonneg x = true -> nonneg (SFdiv prec emax x (S754_finite false m e)) = true.
Proof.
  destruct x as [s|s| |s mx ex]; cbn [nonneg SFdiv]; try discriminate.
  - reflexivity.
  - now destruct s.
  - destruct s; [discriminate|]. intros _. cbn [xorb].
    destruct (SFdiv_core_spec mx m ex e) as (q & e' & l & -> & _ & Hq & _).
    now apply binary_round_aux_nonneg.
Qed.

Lemma leb_zero_nonneg (x : float) :
  (0 <=? x)%float = true <-> nonneg (Prim2SF x) = true.
Proof.
  rewrite leb_spec. change (Prim2SF 0) with (S754_zero false).
  unfold SFleb. destruct (Prim2SF x) as [s|[|]| |[|] m e]; cbn; split; congruence.
Qed.

Lemma mul_nonneg (x c : float) :
  nonneg (Prim2SF x) = true ->
  (exists m e, Prim2SF c = S754_finite false m e) ->
  nonneg (Prim2SF (x * c)) = true.
Proof.
  intros H (m & e & E). rewrite mul_spec, E. now apply SFmul_nonneg.
Qed.

Lemma positive_float (x : float) :
  fin x = true -> (0 < FR x)%R -> exists m e, Prim2SF x = S754_finite false m e.
Proof.
  intros F P. destruct (nonzero_float x F ltac:(lra)) as (s & m & e & E).
  exists m, e. rewrite E. unfold FR in P. rewrite E, B2R_finite in P.
  pose proof (mag_pos m e). destruct s; [cbn in P; lra | reflexivity].
Qed.

(** [time_test_diff] when the tick went up over the last two gaps. *)
Lemma time_test_diff_R (secs : list Z) (i : nat) :
  Forall tick32 secs -> (2 <= i)%nat -> nth (i - 2) secs 0 < nth i secs 0 ->
  fin (col_time_test_diff secs i) = true
  /\ (/ 131072 <= FR (col_time_test_diff secs i) < 131072)%R.
Proof.
  intros B H U. unfold col_time_test_diff, diff, shift.
  destruct (Nat.ltb_spec i 1) as [L|_]; [lia|].
  unfold col_time_test, shift.
  destruct (Nat.ltb_spec i 1) as [L|_]; [lia|].
  destruct (Nat.ltb_spec (i - 1)%nat 1) as [L|_]; [lia|].
  replace (i - 1 - 1)%nat with (i - 2)%nat by lia.
  change (col_time_elapsed secs i) with (elapsed (nth i secs 0 - nth 0 secs 0)).
  change (col_time_elapsed secs (i - 1)%nat) with (elapsed (nth (i - 1) secs 0 - nth 0 secs 0)).
  change (col_time_elapsed secs (i - 2)%nat) with (elapsed (nth (i - 2) secs 0 - nth 0 secs 0)).
  pose proof (nth_tick32 secs 0 B) as T.
  pose proof (nth_tick32 secs i B) as T0.
  pose proof (nth_tick32 secs (i - 1) B) as T1.
  pose proof (nth_tick32 secs (i - 2) B) as T2.
  set (t := nth 0 secs 0) in *.
  set (t0 := nth i secs 0) in *. set (t1 := nth (i - 1) secs 0) in *.
  set (t2 := nth (i - 2) secs 0) in *.
  pose proof (tick32_diff _ _ T0 T) as D0.
  pose proof (tick32_diff _ _ T1 T) as D1.
  pose proof (tick32_diff _ _ T2 T) as D2.
  destruct (midpoint_R _ _ D0 D1) as [Fa Ra].
  destruct (midpoint_R _ _ D1 D2) as [Fb Rb].
  destruct (elapsed_bound _ D0) as [F0 B0]. destruct (elapsed_bound _ D1) as [F1 B1].
  destruct (elapsed_bound _ D2) as [F2 B2].
  destruct (midpoint_bound _ _ F0 F1 B0 B1) as [_ Ba].
  destruct (midpoint_bound _ _ F1 F2 B1 B2) as [_ Bb].
  rewrite (bpow_nat 20 1048576 ltac:(lia) eq_refl) in Ba, Bb.
  set (a := ((elapsed (t0 - t) + elapsed (t1 - t)) / 2)%float) in *.
  set (b := ((elapsed (t1 - t) + elapsed (t2 - t)) / 2)%float) in *.
  destruct (sub_R a b 21 Fa Fb) as [Fs Bs].
  - rewrite (bpow_nat 21 2097152 ltac:(lia) eq_refl). lra.
  - cbn. lia.
  - split; [assumption|].
    change (fexp prec emax 21) with (-32) in Bs.
    rewrite bpow_Zneg in Bs. change (2 ^ 32) with 4294967296 in Bs.
    apply Rabs_le_inv in Bs. apply Rabs_le_inv in Ra. apply Rabs_le_inv in Rb.
    (* the exact difference of the two midpoints *)
    assert (X : ((IZR (t0 - t) + IZR (t1 - t)) / 115200
                 - (IZR (t1 - t) + IZR (t2 - t)) / 115200
                 = IZR (t0 - t2) / 115200)%R).
    { rewrite !minus_IZR. field. }
    pose proof (tick32_diff _ _ T0 T2) as D02.
    change (2 ^ 33) with 8589934592 in D02.
    assert (Y : (1 <= IZR (t0 - t2) < 8589934592)%R).
    { split; [apply IZR_le | apply IZR_lt]; lia. }
    lra.
Qed.

(** X22. The brake power is never negative: in a row whose tick is above
    the tick two positions before it, of an attempt with a non-negative
    brake weight and a Magnets value between 1 and 16384, [power_brake] is
    not NaN and not below zero. *)
Theorem power_brake_non_negative (input : Input.t) (secs : list Z)
    (series : list Sample) (s : Sample) :
  decode_log (Input.FlyWheelLog input) = OK secs ->
  process_attempt input = OK series -> In s series ->
  (0 <=? Input.BrakeWeight input)%float = true ->
  1 <= Magnets (row s) <= 16384 ->
  nth (label s - 2) secs 0 < timer (row s) ->
  (0 <=? power_brake (row s))%float = true.
Proof.
  intros D E Hs HB.
  destruct (process_attempt_inv input series E) as (secs' & M & D' & _ & _ & ->).
  rewrite D in D'. injection D' as <-.
  pose proof (decode_log_bound _ _ D) as B.
  destruct (series_member input secs M s Hs) as (i & R & _ & ->).
  unfold label. cbn [finish row mk_row index power_brake Magnets timer].
  unfold col_timer. intros HM U.
  destruct (time_test_diff_R secs i B ltac:(lia) U) as [Ft [L1 L2]].
  destruct (of_int_exact M) as [Fm Vm]; [change (2 ^ 53) with 9007199254740992; lia|].
  assert (IM : (1 <= IZR M <= 16384)%R) by (split; apply IZR_le; lia).
  destruct (mul_R (Np.of_int M) (col_time_test_diff secs i) 31 Fm Ft) as [Fp Bp].
  - rewrite Vm, !Rabs_pos_eq by lra.
    rewrite (bpow_nat 31 2147483648 ltac:(lia) eq_refl).
    apply Rle_lt_trans with (16384 * FR (col_time_test_diff secs i))%R; [|lra].
    apply Rmult_le_compat_r; lra.
  - cbn. lia.
  - change (fexp prec emax 31) with (-22) in Bp.
    rewrite bpow_Zneg in Bp. change (2 ^ 22) with 4194304 in Bp.
    rewrite Vm in Bp. apply Rabs_le_inv in Bp.
    assert (P : (0 < FR (Np.of_int M * col_time_test_diff secs i))%R).
    { assert (1 * FR (col_time_test_diff secs i)
              <= IZR M * FR (col_time_test_diff secs i))%R
        by (apply Rmult_le_compat_r; lra).
      lra. }
    destruct (positive_float _ Fp P) as (m & e & Ed).
    unfold col_power_brake. apply leb_zero_nonneg.
    rewrite div_spec, Ed. apply SFdiv_nonneg.
    apply mul_nonneg; [|now eexists; eexists].
    apply mul_nonneg; [|now eexists; eexists].
    apply mul_nonneg; [|now eexists; eexists].
    now apply leb_zero_nonneg.
Qed.

Lemma power_brake_non_negative_witness :
  (0 <=? power_brake (row sample_even_3))%float = true.
Proof.
  apply (power_brake_non_negative attempt_even secs_even series_even sample_even_3).
  - vm_compute. reflexivity.
  - vm_compute. reflexivity.
  - vm_compute. left. reflexivity.
  - reflexivity.
  - vm_compute. split; discriminate.
  - vm_compute. reflexivity.
Defined.

End BrakePower.
